(** * duo-toolbox: priority mutex and event registry

    A shallow embedding of the coordination core of duo-toolbox:
    - [utils/constants.js]: the priority levels,
    - [utils/functions.js]: [extremumBy] / [maxBy],
    - [extension/ui.js]: [updateMutex], [releaseMutex], [requestMutex],
    - the event registry (found in [src/duo/sounds.js]): the listeners,
      [dispatchEvent] and [registerDerivedEventListener].

    The shared global variables of [utils/internal.js] are the fields of the
    state records below (one typed field per variable key).  Timers
    ([setTimeout] / [clearTimeout]) are an explicit queue that is run one task
    at a time, as the host event loop does.

    [mutexes] and the objects of listeners are plain objects, and the mutex
    codes and the listener ids are strings that the scripts choose: what
    the key "__proto__" and the names of the properties of
    [Object.prototype] find, and what an assignment under "__proto__" does,
    is part of the model.

    Further parts of the library follow, each in a module of its own:
    - [Functions]: the other helpers of [utils/functions.js],
    - [Sounds]: the data about the detected sounds and their relevance,
    - [Internal]: the shared global variables themselves, the counters and
      [overrideFunction] of [utils/internal.js],
    - [SoundSettings]: the bounds of the sound settings of [duo/sounds.js],
    - [Events]: two callers of the registry, [processSoundPlayback] and the
      handler of HTTP responses. *)

From stdpp Require Import gmap strings list fin_maps pretty sorting.
From Stdlib Require Import ZArith Lia QArith Qcanon.

Open Scope Z_scope.

(** ** JavaScript values (the fragment that payloads and results need) *)

#[warnings="-register-all"]
Inductive Value :=
| VUndefined
| VNull
| VBoolean (b : bool)
| VNumber (n : Z)
| VString (s : string)
| VArray (elements : list Value)
| VError (name : string).

(** [Array.isArray] *)
Definition isArray (v : Value) : bool :=
  match v with VArray _ => true | _ => false end.

(** ** utils/constants.js *)

Definition PRIORITY_HIGHEST : Z := 9007199254740991. (* Number.MAX_SAFE_INTEGER *)
Definition PRIORITY_LOWEST : Z := 1.

(** [Math.round(a / b)] for [b > 0]: the integer nearest to the quotient,
    halves going up, i.e. [floor (a / b + 1/2)]. *)
Definition Math_round_div (a b : Z) : Z := (2 * a + b) / (2 * b).

Definition PRIORITY_LOW : Z := Math_round_div PRIORITY_HIGHEST 4.
Definition PRIORITY_AVERAGE : Z := Math_round_div (2 * PRIORITY_LOW) 1.
Definition PRIORITY_HIGH : Z := Math_round_div (3 * PRIORITY_LOW) 1.

(** ** utils/functions.js *)

Section Extremum.
Context {A B : Type}.

(** The [for] loop of [extremumBy]; [extremum = None] is [undefined]. *)
Fixpoint extremumBy_loop (getter : A -> B) (comparator : B -> B -> bool)
    (values : list A) (selected : option A) (extremum : option B) : option A :=
  match values with
  | [] => selected
  | value :: rest =>
      let calculated := getter value in
      let take :=
        match extremum with
        | None => true
        | Some e => comparator calculated e
        end in
      if take
      then extremumBy_loop getter comparator rest (Some value) (Some calculated)
      else extremumBy_loop getter comparator rest selected extremum
  end.

Definition extremumBy (values : list A) (getter : A -> B)
    (comparator : B -> B -> bool) : option A :=
  extremumBy_loop getter comparator values None None.
End Extremum.

(** [gt = (_ > _)] *)
Definition gt (x y : Z) : bool := Z.ltb y x.

Definition maxBy {A : Type} (values : list A) (getter : A -> Z) : option A :=
  extremumBy values getter gt.

(** ** extension/ui.js: the mutex registry *)

(** User callbacks are opaque; invoking one is recorded in the log. *)
Inductive Callback :=
| noop
| UserCallback (name : string).

(** The closure [onAcquired] of a request: it captures [cancelTimeoutId],
    [mutexCode] and [uniqueId] (through [resolve]). *)
Record OnAcquired := {
  cancelTimeoutId : option nat;
  acquiredCode : string;
}.

Record MutexHolder := {
  uniqueId : nat;
  priority : Z;
  onAcquired : OnAcquired;
  onSupersessionRequest : Callback;
}.

Record Mutex := {
  currentHolder : option MutexHolder;
  pendingHolders : list MutexHolder;
}.

(** What [mutexes[mutexCode]] can evaluate to.  [mutexes] is a plain object:
    a code is looked up among its own properties first, then on
    [Object.prototype], which has its standard properties and, once a mutex
    operation on the code "__proto__" has assigned to it, a property
    [currentHolder]. *)
Inductive Slot :=
| SUndefined
    (* undefined, or null *)
| SObject (ref : nat)
    (* a mutex object, by reference *)
| SFunction
    (* a method of Object.prototype *)
| SPrototype
    (* Object.prototype itself *)
| SHolder (holder : MutexHolder)
    (* the holder object found as Object.prototype.currentHolder; it has no
       [currentHolder] of its own and inherits that of Object.prototype *)
| SHolderWith (own : option MutexHolder).
    (* a holder object that was given a property [currentHolder] of its
       own, with the value of that property *)

(** The callbacks handed to [setTimeout]. *)
Inductive Task :=
| RunOnAcquired (holder : MutexHolder)
    (* () => onAcquired()   and   () => nextHolder.onAcquired() *)
| NotifySupersession (mutex : nat)
    (* () => mutex.currentHolder.onSupersessionRequest() *)
| TimeoutExpired (mutexCode : string) (uniqueId : nat).
    (* the handler armed when timeoutDelay > 0 *)

Record Timer := {
  timerId : nat;
  due : nat;
  task : Task;
}.

Inductive PromiseState :=
| Pending
| Fulfilled (mutexCode : string) (holderId : nat)
    (* resolved with () => releaseMutex(mutexCode, holderId) *)
| Rejected (reason : Value).

Inductive Notice :=
| OnAcquiredCalled (holderId : nat)
| OnSupersessionRequestCalled (holderId : nat) (callback : Callback)
| UncaughtTypeError.

Record World := {
  last_mutex_holder_id : nat;          (* counter 'last_mutex_holder_id' *)
  mutexes : gmap string Slot;          (* shared variable 'mutexes': the
                                          properties of its own *)
  prototype_currentHolder : option MutexHolder;
                                       (* Object.prototype.currentHolder;
                                          None when not set, or null *)
  heap : list Mutex;                   (* the mutex objects, by reference *)
  promises : gmap nat PromiseState;    (* the promise of request #uniqueId *)
  now : nat;                           (* the clock, in milliseconds *)
  timers : list Timer;                 (* armed timers, in arming order *)
  next_timer_id : nat;
  log : list Notice;                   (* callbacks invoked so far *)
}.

Definition initial_world : World := {|
  last_mutex_holder_id := 0;
  mutexes := ∅;
  prototype_currentHolder := None;
  heap := [];
  promises := ∅;
  now := 0;
  timers := [];
  next_timer_id := 1;
  log := [];
|}.

Definition set_counter (n : nat) (w : World) : World :=
  {| last_mutex_holder_id := n;
     mutexes := mutexes w;
     prototype_currentHolder := prototype_currentHolder w;
     heap := heap w;
     promises := promises w;
     now := now w;
     timers := timers w;
     next_timer_id := next_timer_id w;
     log := log w |}.

Definition set_mutexes (ms : gmap string Slot) (w : World) : World :=
  {| last_mutex_holder_id := last_mutex_holder_id w;
     mutexes := ms;
     prototype_currentHolder := prototype_currentHolder w;
     heap := heap w;
     promises := promises w;
     now := now w;
     timers := timers w;
     next_timer_id := next_timer_id w;
     log := log w |}.

Definition set_prototype_currentHolder (holder : option MutexHolder) (w : World) : World :=
  {| last_mutex_holder_id := last_mutex_holder_id w;
     mutexes := mutexes w;
     prototype_currentHolder := holder;
     heap := heap w;
     promises := promises w;
     now := now w;
     timers := timers w;
     next_timer_id := next_timer_id w;
     log := log w |}.

Definition set_heap (h : list Mutex) (w : World) : World :=
  {| last_mutex_holder_id := last_mutex_holder_id w;
     mutexes := mutexes w;
     prototype_currentHolder := prototype_currentHolder w;
     heap := h;
     promises := promises w;
     now := now w;
     timers := timers w;
     next_timer_id := next_timer_id w;
     log := log w |}.

Definition set_promises (ps : gmap nat PromiseState) (w : World) : World :=
  {| last_mutex_holder_id := last_mutex_holder_id w;
     mutexes := mutexes w;
     prototype_currentHolder := prototype_currentHolder w;
     heap := heap w;
     promises := ps;
     now := now w;
     timers := timers w;
     next_timer_id := next_timer_id w;
     log := log w |}.

Definition set_now (t : nat) (w : World) : World :=
  {| last_mutex_holder_id := last_mutex_holder_id w;
     mutexes := mutexes w;
     prototype_currentHolder := prototype_currentHolder w;
     heap := heap w;
     promises := promises w;
     now := t;
     timers := timers w;
     next_timer_id := next_timer_id w;
     log := log w |}.

Definition set_timers (ts : list Timer) (w : World) : World :=
  {| last_mutex_holder_id := last_mutex_holder_id w;
     mutexes := mutexes w;
     prototype_currentHolder := prototype_currentHolder w;
     heap := heap w;
     promises := promises w;
     now := now w;
     timers := ts;
     next_timer_id := next_timer_id w;
     log := log w |}.

Definition set_next_timer_id (n : nat) (w : World) : World :=
  {| last_mutex_holder_id := last_mutex_holder_id w;
     mutexes := mutexes w;
     prototype_currentHolder := prototype_currentHolder w;
     heap := heap w;
     promises := promises w;
     now := now w;
     timers := timers w;
     next_timer_id := n;
     log := log w |}.

Definition add_log (n : Notice) (w : World) : World :=
  {| last_mutex_holder_id := last_mutex_holder_id w;
     mutexes := mutexes w;
     prototype_currentHolder := prototype_currentHolder w;
     heap := heap w;
     promises := promises w;
     now := now w;
     timers := timers w;
     next_timer_id := next_timer_id w;
     log := log w ++ [n] |}.

(** *** Timers *)

(** [setTimeout(task, delay)]: the timer is due [delay] ms from now (a
    missing or negative delay counts as 0) and its id is returned.  Timer ids
    are positive, hence truthy. *)
Definition setTimeout (t : Task) (delay : Z) (w : World) : nat * World :=
  let id := next_timer_id w in
  (id,
   set_next_timer_id (S id)
     (set_timers (timers w ++ [{| timerId := id; due := (now w + Z.to_nat delay)%nat; task := t |}]) w)).

(** [clearTimeout(id)] *)
Definition clearTimeout (id : nat) (w : World) : World :=
  set_timers (filter (fun t => timerId t ≠ id) (timers w)) w.

(** *** Promises *)

(** [resolve(() => releaseMutex(mutexCode, uniqueId))] on the promise of
    request [id]; a settled promise stays as it is. *)
Definition resolve (id : nat) (mutexCode : string) (w : World) : World :=
  match promises w !! id with
  | Some Pending => set_promises (<[id := Fulfilled mutexCode id]> (promises w)) w
  | _ => w
  end.

(** [reject(reason)] on the promise of request [id]. *)
Definition reject (id : nat) (reason : Value) (w : World) : World :=
  match promises w !! id with
  | Some Pending => set_promises (<[id := Rejected reason]> (promises w)) w
  | _ => w
  end.

(** *** Mutex objects *)

(** [{ currentHolder: null, pendingHolders: [] }] *)
Definition fresh_mutex : Mutex := {| currentHolder := None; pendingHolders := [] |}.

(** A new object; its reference is returned. *)
Definition alloc (m : Mutex) (w : World) : nat * World :=
  (length (heap w), set_heap (heap w ++ [m]) w).

(** The object behind a reference. *)
Definition deref (w : World) (r : nat) : Mutex :=
  default fresh_mutex (heap w !! r).

(** An update in place of the object behind a reference. *)
Definition assign (r : nat) (m : Mutex) (w : World) : World :=
  set_heap (<[r := m]> (heap w)) w.

(** [getNextHolderId = () => bumpGlobalCounter('last_mutex_holder_id')] *)
Definition getNextHolderId (w : World) : nat * World :=
  let n := S (last_mutex_holder_id w) in (n, set_counter n w).

(** The methods of the standard [Object.prototype]. *)
Definition Object_prototype_methods : list string :=
  [ "constructor"; "hasOwnProperty"; "isPrototypeOf"; "propertyIsEnumerable";
    "toLocaleString"; "toString"; "valueOf";
    "__defineGetter__"; "__defineSetter__";
    "__lookupGetter__"; "__lookupSetter__" ].

(** [mutexes[mutexCode]]: under "__proto__" the getter of [Object.prototype]
    returns the prototype of [mutexes], which is [Object.prototype]; any
    other code is looked up among the properties of [mutexes], then among
    those of [Object.prototype]. *)
Definition lookup_mutex (w : World) (mutexCode : string) : Slot :=
  if decide (mutexCode = "__proto__") then SPrototype
  else
    match mutexes w !! mutexCode with
    | Some value => value
    | None =>
        if decide (mutexCode = "currentHolder") then
          match prototype_currentHolder w with
          | Some holder => SHolder holder
          | None => SUndefined
          end
        else if bool_decide (mutexCode ∈ Object_prototype_methods) then SFunction
        else SUndefined
    end.

(** [mutexes[mutexCode] = value]: under "__proto__" the assignment goes to
    the setter of [Object.prototype], which creates no property (it
    replaces the prototype of [mutexes] when the value is another object;
    the values stored below under that code are [Object.prototype] itself
    and [undefined], which leave it as it is). *)
Definition store_mutex (mutexCode : string) (value : Slot) (w : World) : World :=
  if decide (mutexCode = "__proto__") then w
  else set_mutexes (<[mutexCode := value]> (mutexes w)) w.

(** [isObject(value)]: a function is not an object for [typeof]. *)
Definition isObject (value : Slot) : bool :=
  match value with
  | SObject _ | SPrototype | SHolder _ | SHolderWith _ => true
  | SUndefined | SFunction => false
  end.

(** [mutex.currentHolder], also on a function, as [isMutexLocked] may read
    it: an object without a [currentHolder] of its own inherits that of
    [Object.prototype]. *)
Definition currentHolder_of (w : World) (mutex : Slot) : option MutexHolder :=
  match mutex with
  | SUndefined => None
  | SObject r => currentHolder (deref w r)
  | SHolderWith own => own
  | SPrototype | SHolder _ | SFunction => prototype_currentHolder w
  end.

(** [mutex.currentHolder = value] on an object without [pendingHolders];
    the object is returned as it then is. *)
Definition assign_currentHolder (mutex : Slot) (value : option MutexHolder)
    (w : World) : Slot * World :=
  match mutex with
  | SPrototype => (SPrototype, set_prototype_currentHolder value w)
  | SHolder _ | SHolderWith _ => (SHolderWith value, w)
  | other => (other, w)
  end.

(** The first statement of the callback of [updateMutex]:
    [if (!isObject(mutexes[mutexCode])) mutexes[mutexCode] = { ... }],
    returning what is then found under [mutexCode]. *)
Definition ensureMutex (mutexCode : string) (w : World) : Slot * World :=
  if isObject (lookup_mutex w mutexCode) then (lookup_mutex w mutexCode, w)
  else
    let '(r, w') := alloc fresh_mutex w in
    let w'' := store_mutex mutexCode (SObject r) w' in
    (lookup_mutex w'' mutexCode, w'').

(** How a call completes. *)
Inductive Completion :=
| Returned
| ThrewTypeError.

(** [updateMutex(mutexCode, updateCallback)]: the callback receives what is
    found under [mutexCode] and returns what is stored back there, or throws
    a TypeError ([None]), which leaves [updateMutex] before the store. *)
Definition updateMutex (mutexCode : string)
    (updateCallback : Slot -> World -> option Slot * World) (w : World)
    : Completion * World :=
  let '(mutex, w1) := ensureMutex mutexCode w in
  match updateCallback mutex w1 with
  | (Some result, w2) => (Returned, store_mutex mutexCode result w2)
  | (None, w2) => (ThrewTypeError, w2)
  end.

(** [current?.uniqueId !== holderId] *)
Definition not_held_by (current : option MutexHolder) (holderId : nat) : bool :=
  match current with
  | Some h => negb (Nat.eqb (uniqueId h) holderId)
  | None => true
  end.

(** [releaseMutex(mutexCode, holderId)]; [maxBy] returns [undefined] for
    anything but an array, so for an object without [pendingHolders]. *)
Definition releaseMutex (mutexCode : string) (holderId : nat) (w : World) : World :=
  (updateMutex mutexCode (fun mutex w =>
    if not_held_by (currentHolder_of w mutex) holderId
    then (Some SUndefined, w) (* return; *)
    else
      match mutex with
      | SObject r =>
          match maxBy (pendingHolders (deref w r)) priority with
          | Some nextHolder =>
              let '(_, w1) := setTimeout (RunOnAcquired nextHolder) 0 w in
              (Some (SObject r),
               assign r {| currentHolder := Some nextHolder;
                           pendingHolders :=
                             filter (fun it => uniqueId it ≠ uniqueId nextHolder)
                                    (pendingHolders (deref w r)) |} w1)
          | None =>
              (Some (SObject r),
               assign r {| currentHolder := None;
                           pendingHolders := pendingHolders (deref w r) |} w)
          end
      | other =>
          let '(mutex', w1) := assign_currentHolder other None w in
          (Some mutex', w1)
      end) w).2.

(** The options of [requestMutex]; [None] is an omitted ([undefined]) option,
    for [timeoutDelay] also an explicit [null]. *)
Record Config := {
  cfg_priority : option Z;
  cfg_timeoutDelay : option Z;
  cfg_onSupersessionRequest : option Callback;
}.

(** [timeoutDelay > 0], where [null > 0] is false *)
Definition positive_delay (timeoutDelay : option Z) : option Z :=
  match timeoutDelay with
  | Some d => if 0 <? d then Some d else None
  | None => None
  end.

(** [requestMutex(mutexCode, config)]; the returned promise is identified by
    the unique id of the request.  The body runs inside the executor of the
    promise: when [mutex.pendingHolders.push] throws, [pendingHolders] being
    undefined, the promise is rejected with that TypeError. *)
Definition requestMutex (mutexCode : string) (config : Config) (w : World) : nat * World :=
  let prio := default PRIORITY_AVERAGE (cfg_priority config) in
  let timeoutDelay := cfg_timeoutDelay config in
  let callback := default noop (cfg_onSupersessionRequest config) in
  let '(id, w) := getNextHolderId w in
  let w := set_promises (<[id := Pending]> (promises w)) w in
  let '(cancelTimeoutId, w) :=
    match positive_delay timeoutDelay with
    | Some d =>
        let '(timer, w') := setTimeout (TimeoutExpired mutexCode id) d w in
        (Some timer, w')
    | None => (None, w)
    end in
  let holder := {|
    uniqueId := id;
    priority := prio;
    onAcquired := {| cancelTimeoutId := cancelTimeoutId; acquiredCode := mutexCode |};
    onSupersessionRequest := callback;
  |} in
  let '(completion, w) :=
    updateMutex mutexCode (fun mutex w =>
      match currentHolder_of w mutex with
      | None =>
          let '(mutex', w1) :=
            match mutex with
            | SObject r =>
                (SObject r,
                 assign r {| currentHolder := Some holder;
                             pendingHolders := pendingHolders (deref w r) |} w)
            | other => assign_currentHolder other (Some holder) w
            end in
          let '(_, w2) := setTimeout (RunOnAcquired holder) 0 w1 in
          (Some mutex', w2)
      | Some current =>
          match mutex with
          | SObject r =>
              let w1 := assign r {| currentHolder := Some current;
                                    pendingHolders :=
                                      pendingHolders (deref w r) ++ [holder] |} w in
              if gt (priority holder) (priority current)
              then let '(_, w2) := setTimeout (NotifySupersession r) 0 w1 in
                   (Some (SObject r), w2)
              else (Some (SObject r), w1)
          | _ => (None, w)
          end
      end) w in
  (id,
   match completion with
   | Returned => w
   | ThrewTypeError => reject id (VError "TypeError") w
   end).

(** *** The timer tasks *)

(** The handler armed by [requestMutex] when [timeoutDelay > 0]: it stores a
    copy of the mutex without the request among its pending holders, then
    calls [reject()], which gives no reason.  On an object without
    [pendingHolders], [mutex.pendingHolders.filter] throws a TypeError, which
    nothing catches: the handler ends there. *)
Definition timeoutHandler (mutexCode : string) (id : nat) (w : World) : World :=
  let '(completion, w1) :=
    updateMutex mutexCode (fun mutex w =>
      match mutex with
      | SObject r =>
          let '(r', w') :=
            alloc {| currentHolder := currentHolder (deref w r);
                     pendingHolders :=
                       filter (fun it => id ≠ uniqueId it)
                              (pendingHolders (deref w r)) |} w in
          (Some (SObject r'), w')
      | _ => (None, w)
      end) w in
  match completion with
  | Returned => reject id VUndefined w1
  | ThrewTypeError => add_log UncaughtTypeError w1
  end.

(** [onAcquired()]:
    [cancelTimeoutId && clearTimeout(cancelTimeoutId); resolve(() => releaseMutex(mutexCode, uniqueId))] *)
Definition callOnAcquired (h : MutexHolder) (w : World) : World :=
  let w1 :=
    match cancelTimeoutId (onAcquired h) with
    | Some id => clearTimeout id w
    | None => w
    end in
  resolve (uniqueId h) (acquiredCode (onAcquired h)) w1.

(** Runs the callback of a timer. *)
Definition run_task (t : Task) (w : World) : World :=
  match t with
  | RunOnAcquired h =>
      callOnAcquired h (add_log (OnAcquiredCalled (uniqueId h)) w)
  | NotifySupersession r =>
      match currentHolder (deref w r) with
      | Some h =>
          add_log (OnSupersessionRequestCalled (uniqueId h) (onSupersessionRequest h)) w
      | None => add_log UncaughtTypeError w
      end
  | TimeoutExpired mutexCode id => timeoutHandler mutexCode id w
  end.

(** *** The event loop *)

(** The armed timer that is due first; among timers due at the same time,
    the one armed first. *)
Fixpoint earliest (ts : list Timer) : option Timer :=
  match ts with
  | [] => None
  | t :: rest =>
      match earliest rest with
      | Some t' => if (due t' <? due t)%nat then Some t' else Some t
      | None => Some t
      end
  end.

(** The host runs the timer [t]: it is disarmed and its task is run to
    completion. *)
Definition fire (t : Timer) (w : World) : World :=
  run_task (task t) (clearTimeout (timerId t) w).

(** Runs the timer [id] if it is armed and due. *)
Definition fireTimer (id : nat) (w : World) : World :=
  match list_find (fun t => timerId t = id) (timers w) with
  | Some (_, t) => if (due t <=? now w)%nat then fire t w else w
  | None => w
  end.

(** Runs the timer that is due first, if it is due. *)
Definition runNextTimer (w : World) : World :=
  match earliest (timers w) with
  | Some t => fireTimer (timerId t) w
  | None => w
  end.

(** What the scripts and the host can do, one turn at a time. *)
Inductive Op :=
| Request (mutexCode : string) (config : Config)
    (* a script calls requestMutex *)
| CallRelease (promise : nat)
    (* the script whose promise was fulfilled calls the release function
       it received *)
| Elapse (ms : nat)
    (* time passes *)
| FireTimer (id : nat)
    (* the host runs the due timer [id] *)
| RunNextTimer.
    (* the host runs the due timer that expired first *)

(** One operation.  A release function exists only once [onAcquired] has
    resolved the promise with it. *)
Definition step (op : Op) (w : World) : World :=
  match op with
  | Request mutexCode config => (requestMutex mutexCode config w).2
  | CallRelease p =>
      match promises w !! p with
      | Some (Fulfilled mutexCode holderId) => releaseMutex mutexCode holderId w
      | _ => w
      end
  | Elapse ms => set_now (now w + ms)%nat w
  | FireTimer id => fireTimer id w
  | RunNextTimer => runNextTimer w
  end.

(** A run: the operations in order. *)
Definition run (ops : list Op) (w : World) : World :=
  foldl (fun w op => step op w) w ops.

(** The mutex registered under a code: the object that [mutexes] holds
    under it as a property of its own, or [Object.prototype] under
    "__proto__".  An object without [pendingHolders] is shown with no
    pending holder; a code without an object of its own is shown as a new
    mutex. *)
Definition mutex_of (w : World) (mutexCode : string) : Mutex :=
  if decide (mutexCode = "__proto__")
  then {| currentHolder := prototype_currentHolder w; pendingHolders := [] |}
  else
    match mutexes w !! mutexCode with
    | Some (SObject r) => deref w r
    | Some (SHolderWith own) => {| currentHolder := own; pendingHolders := [] |}
    | _ => fresh_mutex
    end.

(** [isMutexLocked(mutexCode)]: [!!mutexes?.[mutexCode]?.currentHolder] *)
Definition isMutexLocked (w : World) (mutexCode : string) : bool :=
  bool_decide (is_Some (currentHolder_of w (lookup_mutex w mutexCode))).

(** * The listener registry *)

(** ** Plain objects used as maps

    An object is the list of its own properties in creation order.  Keys
    that are array indices are enumerated first, in ascending order, then
    the other keys in creation order. *)

Abbreviation JSObject A := (list (string * A)).

(** [object[key]] *)
Fixpoint obj_get {A} (key : string) (o : JSObject A) : option A :=
  match o with
  | [] => None
  | (k, v) :: rest => if decide (k = key) then Some v else obj_get key rest
  end.

(** [object[key] = value]: an existing property keeps its place. *)
Fixpoint obj_set {A} (key : string) (value : A) (o : JSObject A) : JSObject A :=
  match o with
  | [] => [(key, value)]
  | (k, v) :: rest =>
      if decide (k = key) then (k, value) :: rest
      else (k, v) :: obj_set key value rest
  end.

(** [object[key] = value] on an object created by [{}]: under the key
    "__proto__" the assignment reaches the setter of [Object.prototype],
    which replaces the prototype of the object and creates no property. *)
Definition obj_assign {A} (key : string) (value : A) (o : JSObject A) : JSObject A :=
  if decide (key = "__proto__") then o else obj_set key value o.

(** [delete object[key]] *)
Definition obj_delete {A} (key : string) (o : JSObject A) : JSObject A :=
  filter (fun p => p.1 ≠ key) o.

Definition obj_keys {A} (o : JSObject A) : list string := o.*1.

(** [isEmptyObject] *)
Definition isEmptyObject {A} (o : JSObject A) : bool :=
  match o with [] => true | _ => false end.

Definition digit_value (a : Ascii.ascii) : option N :=
  N.of_nat <$> Ascii.is_nat a.

Fixpoint digits_value (s : string) (acc : N) : option N :=
  match s with
  | EmptyString => Some acc
  | String a rest =>
      match digit_value a with
      | Some d => digits_value rest (10 * acc + d)%N
      | None => None
      end
  end.

(** The array index that a property key denotes, if any: the key is the
    decimal numeral of a number below [2^32 - 1], written canonically. *)
Definition array_index (key : string) : option N :=
  match digits_value key 0 with
  | Some n =>
      if bool_decide (pretty n = key) && (n <? 2 ^ 32 - 1)%N then Some n else None
  | None => None
  end.

Definition index_le {A} (p q : string * A) : Prop :=
  (default 0 (array_index p.1) <= default 0 (array_index q.1))%N.

Global Instance index_le_dec {A} (p q : string * A) : Decision (index_le p q).
Proof. unfold index_le. apply _. Defined.

(** [Object.values(object)] *)
Definition Object_values {A} (o : JSObject A) : list A :=
  (merge_sort index_le (filter (fun p => is_Some (array_index p.1)) o)
   ++ filter (fun p => ¬ is_Some (array_index p.1)) o).*2.

(** ** Listeners *)

(** A listener is either a callback supplied by a script, or the hidden
    listener that [registerDerivedEventListener] installs on a base event:
    [(...payload) => { const derivedPayload = mapPayload(...payload);
       isArray(derivedPayload) && dispatchEvent(derivedEvent, ...derivedPayload); }] *)
Inductive Listener :=
| UserListener (callback : string)
| BaseListener (derivedEvent : string) (mapPayload : string).

Global Instance Listener_eq_dec : EqDecision Listener.
Proof. solve_decision. Defined.

Record Registry := {
  event_listeners : gmap string (JSObject Listener);
    (* shared variable 'event_listeners': the listeners of each event type,
       by listener id; the event types are the EVENT_TYPE constants of the
       module, the listener ids are also given by the scripts *)
  last_event_listener_id : nat;
    (* counter 'last_event_listener_id' *)
}.

(** No listener, counter at 0. *)
Definition empty_registry : Registry :=
  {| event_listeners := ∅; last_event_listener_id := 0 |}.

(** [getUniqueEventListenerId] *)
Definition getUniqueEventListenerId (reg : Registry) : string * Registry :=
  let n := S (last_event_listener_id reg) in
  ("__listener::" +:+ pretty n +:+ "__",
   {| event_listeners := event_listeners reg; last_event_listener_id := n |}).

(** [getEventListeners(event)]: [... ?.[event] || {}] *)
Definition getEventListeners (reg : Registry) (event : string) : JSObject Listener :=
  default [] (event_listeners reg !! event).

(** [setEventListeners(event, listeners)] *)
Definition setEventListeners (event : string) (listeners : JSObject Listener)
    (reg : Registry) : Registry :=
  {| event_listeners := <[event := listeners]> (event_listeners reg);
     last_event_listener_id := last_event_listener_id reg |}.

(** [hasEventListeners(event)] *)
Definition hasEventListeners (reg : Registry) (event : string) : bool :=
  negb (isEmptyObject (getEventListeners reg event)).

(** [hasEventListener(event, listenerId)]: [!!getEventListeners(event)[listenerId]];
    a listener is a function, hence truthy, and so is what the names of
    [Object.prototype] find in an object that has no such listener.  (The
    code asks about the ids of hidden listeners only, which are none of
    these names.) *)
Definition hasEventListener (reg : Registry) (event listenerId : string) : bool :=
  match obj_get listenerId (getEventListeners reg event) with
  | Some _ => true
  | None => bool_decide (listenerId ∈ "__proto__" :: Object_prototype_methods)
  end.

(** [unregisterEventListener(event, listenerId)] *)
Definition unregisterEventListener (event listenerId : string) (reg : Registry) : Registry :=
  setEventListeners event (obj_delete listenerId (getEventListeners reg event)) reg.

(** The closure [() => unregisterEventListener(event, listenerId)]. *)
Record Unregister := {
  unregister_event : string;
  unregister_id : string;
}.

(** Calling that closure. *)
Definition call_unregister (u : Unregister) : Registry -> Registry :=
  unregisterEventListener (unregister_event u) (unregister_id u).

(** [registerEventListener(event, callback, listenerId = getUniqueEventListenerId())] *)
Definition registerEventListener (event : string) (callback : Listener)
    (listenerId : option string) (reg : Registry) : Unregister * Registry :=
  let '(id, reg) :=
    match listenerId with
    | Some id => (id, reg)
    | None => getUniqueEventListenerId reg
    end in
  ({| unregister_event := event; unregister_id := id |},
   setEventListeners event (obj_assign id callback (getEventListeners reg event)) reg).

(** The closure returned by [registerDerivedEventListener]. *)
Record UnregisterDerived := {
  unregisterDerived : Unregister;
  derived_event : string;
  base_event : string;
  base_listener_id : string;
}.

(** Calling that closure:
    [unregisterDerived(); if (!hasEventListeners(derivedEvent)) unregisterEventListener(baseEvent, baseListenerId);] *)
Definition call_unregisterDerived (u : UnregisterDerived) (reg : Registry) : Registry :=
  let reg := call_unregister (unregisterDerived u) reg in
  if negb (hasEventListeners reg (derived_event u))
  then unregisterEventListener (base_event u) (base_listener_id u) reg
  else reg.

(** [`__${baseEvent}::${derivedEvent}__`] *)
Definition baseListenerId (baseEvent derivedEvent : string) : string :=
  "__" +:+ baseEvent +:+ "::" +:+ derivedEvent +:+ "__".

(** [registerDerivedEventListener(derivedEvent, baseEvent, derivedCallback,
      mapPayload, registerBaseListener, derivedListenerId)].
    The default of [derivedListenerId] is evaluated on entry. *)
Definition registerDerivedEventListener (derivedEvent baseEvent : string)
    (derivedCallback : Listener) (mapPayload : string)
    (registerBaseListener : string -> Listener -> string -> Registry -> Registry)
    (derivedListenerId : option string) (reg : Registry)
    : UnregisterDerived * Registry :=
  let '(derivedListenerId, reg) :=
    match derivedListenerId with
    | Some id => (id, reg)
    | None => getUniqueEventListenerId reg
    end in
  let baseListenerId := baseListenerId baseEvent derivedEvent in
  let reg :=
    if negb (hasEventListener reg baseEvent baseListenerId)
    then registerBaseListener baseEvent (BaseListener derivedEvent mapPayload)
           baseListenerId reg
    else reg in
  let '(unregisterDerived, reg) :=
    registerEventListener derivedEvent derivedCallback (Some derivedListenerId) reg in
  ({| unregisterDerived := unregisterDerived; derived_event := derivedEvent;
      base_event := baseEvent; base_listener_id := baseListenerId |},
   reg).

(** The default [registerBaseListener = registerEventListener]. *)
Definition registerBaseListener_default (event : string) (callback : Listener)
    (listenerId : string) (reg : Registry) : Registry :=
  (registerEventListener event callback (Some listenerId) reg).2.

(** ** Dispatching *)

Inductive Outcome :=
| Returns (v : Value)
| Throws (e : Value).

Inductive Call :=
| Dispatched (event : string) (payload : list Value)
| Invoked (listener : Listener) (payload : list Value).

(** A computation returns, throws, or needs more nested calls than the
    budget allows; it records the calls it makes. *)
Inductive Result (A : Type) :=
| Done (a : A)
| Thrown (e : Value)
| OutOfFuel.
Arguments Done {A} a.
Arguments Thrown {A} e.
Arguments OutOfFuel {A}.

Definition M (A : Type) : Type := Result A * list Call.

Definition ret {A} (a : A) : M A := (Done a, []).

Definition bind {A B} (m : M A) (k : A -> M B) : M B :=
  match m with
  | (Done a, calls) => let '(r, calls') := k a in (r, calls ++ calls')
  | (Thrown e, calls) => (Thrown e, calls)
  | (OutOfFuel, calls) => (OutOfFuel, calls)
  end.

Notation "'let*' x := m 'in' k" := (bind m (fun x => k))
  (at level 10, x pattern, m at level 100, k at level 200, only parsing).

Definition tell (c : Call) : M unit := (Done tt, [c]).

Definition lift (o : Outcome) : M Value :=
  match o with
  | Returns v => ret v
  | Throws e => (Thrown e, [])
  end.

(** [try { body } catch (error) { handler }] *)
Definition try_catch {A} (body : M A) (handler : Value -> M A) : M A :=
  match body with
  | (Thrown e, calls) => let '(r, calls') := handler e in (r, calls ++ calls')
  | other => other
  end.

(** [array.flatMap(f)] *)
Fixpoint flatMapM {A B} (f : A -> M (list B)) (l : list A) : M (list B) :=
  match l with
  | [] => ret []
  | x :: rest =>
      let* ys := f x in
      let* zs := flatMapM f rest in
      ret (ys ++ zs)
  end.

(** [withEventListeners(event, callback)] *)
Definition withEventListeners {A} (reg : Registry) (event : string)
    (callback : list Listener -> M A) : M (option A) :=
  let listeners := getEventListeners reg event in
  if isEmptyObject listeners then ret None
  else let* a := callback (Object_values listeners) in ret (Some a).

Section Dispatch.
(** What the callbacks of the scripts do when called. *)
Variable callback_outcome : string -> list Value -> Outcome.
Variable mapPayload_outcome : string -> list Value -> Outcome.

(** [listener(...payload)], given [dispatchEvent]. *)
Definition callListener
    (dispatch : string -> list Value -> M (option (list Value)))
    (listener : Listener) (payload : list Value) : M Value :=
  match listener with
  | UserListener f => lift (callback_outcome f payload)
  | BaseListener derivedEvent mapPayload =>
      let* derivedPayload := lift (mapPayload_outcome mapPayload payload) in
      match derivedPayload with
      | VArray elements =>
          let* _ := dispatch derivedEvent elements in ret VUndefined
      | _ => ret VUndefined
      end
  end.

(** [dispatchEvent(event, ...payload)]; [fuel] bounds the depth of nested
    dispatches.  The result [None] is [null]. *)
Fixpoint dispatchEvent (fuel : nat) (reg : Registry) (event : string)
    (payload : list Value) : M (option (list Value)) :=
  let* _ := tell (Dispatched event payload) in
  match fuel with
  | O => (OutOfFuel, [])
  | S fuel' =>
      withEventListeners reg event (fun listeners =>
        flatMapM (fun listener =>
          try_catch
            (let* _ := tell (Invoked listener payload) in
             let* v := callListener (dispatchEvent fuel' reg) listener payload in
             ret [v])
            (fun _ => ret []))
          listeners)
  end.

(** What a listener does when called, if nested dispatches complete. *)
Definition listener_outcome (listener : Listener) (payload : list Value) : Outcome :=
  match listener with
  | UserListener f => callback_outcome f payload
  | BaseListener _ mapPayload =>
      match mapPayload_outcome mapPayload payload with
      | Returns _ => Returns VUndefined
      | Throws e => Throws e
      end
  end.

(** [n] nested dispatches are enough for [event]. *)
Fixpoint depth_ok (n : nat) (reg : Registry) (event : string) : bool :=
  match n with
  | O => false
  | S n' =>
      forallb (fun listener =>
                 match listener with
                 | UserListener _ => true
                 | BaseListener derivedEvent _ => depth_ok n' reg derivedEvent
                 end)
              (Object_values (getEventListeners reg event))
  end.
(** The results that a listener contributes to the array of [dispatchEvent]. *)
Definition listener_successes (listener : Listener) (payload : list Value)
    : list Value :=
  match listener_outcome listener payload with
  | Returns v => [v]
  | Throws _ => []
  end.

(** The callback passed to [flatMap] by [dispatchEvent]. *)
Definition deliver_to (fuel : nat) (reg : Registry) (payload : list Value)
    (listener : Listener) : M (list Value) :=
  try_catch
    (let* _ := tell (Invoked listener payload) in
     let* v := callListener (dispatchEvent fuel reg) listener payload in
     ret [v])
    (fun _ => ret []).
End Dispatch.

(** * Further parts of the library *)

(** ** utils/functions.js: the other helpers

    Numbers are integers, on which [>], [<] and [===] are exact; values
    that are compared with [===] or [indexOf] are of a type with decidable
    equality (strings and integers in the library). *)

Module Functions.

(** [identity = _] *)
Definition identity {A : Type} (value : A) : A := value.

(** [array.indexOf(value)]: the first index of the value, or -1. *)
Definition indexOf {A : Type} `{EqDecision A} (array : list A) (value : A) : Z :=
  match list_find (fun x => x = value) array with
  | Some (i, _) => Z.of_nat i
  | None => -1
  end.

(** [isSupersetOf = _.every(_.indexOf(_) >= 0)], which the build expands to
    [(xs, ys) => xs.every(x => ys.indexOf(x) >= 0)]. *)
Definition isSupersetOf {A : Type} `{EqDecision A} (xs ys : list A) : bool :=
  forallb (fun x => 0 <=? indexOf ys x) xs.

(** The result of a comparator once through [Number(...)]: an integer, or
    [None] for [NaN]. *)
Definition Comparator (A : Type) : Type := A -> A -> option Z.

(** [compareWith(comparators, x, y)] *)
Fixpoint compareWith {A : Type} (comparators : list (Comparator A)) (x y : A) : Z :=
  match comparators with
  | [] => 0
  | comparator :: rest =>
      match comparator x y with
      | Some result =>
          if bool_decide (result ≠ 0) then result else compareWith rest x y
      | None => compareWith rest x y
      end
  end.

(** [lt = (_ < _)] *)
Definition lt (x y : Z) : bool := Z.ltb x y.

(** [minBy = extremumBy(_, _, lt)] *)
Definition minBy {A : Type} (values : list A) (getter : A -> Z) : option A :=
  extremumBy values getter lt.



(** [partition(values, predicate)]: the loop pushes each value to
    [result[0]] or to [result[1]]. *)
Definition partition {A : Type} (values : list A) (predicate : A -> bool)
    : list A * list A :=
  foldl (fun result value =>
           if predicate value then (result.1 ++ [value], result.2)
           else (result.1, result.2 ++ [value]))
        ([], []) values.

(** *** [Map] objects

    A [Map] is the list of its entries in insertion order; a key occurs
    once. *)

Abbreviation JSMap K V := (list (K * V)).

Section JSMap.
Context {K V : Type} `{EqDecision K}.

(** [map.get(key)]; [None] is [undefined] *)
Fixpoint Map_get (key : K) (m : JSMap K V) : option V :=
  match m with
  | [] => None
  | (k, v) :: rest => if decide (k = key) then Some v else Map_get key rest
  end.

(** [map.set(key, value)]: the entry of an existing key keeps its place. *)
Fixpoint Map_set (key : K) (value : V) (m : JSMap K V) : JSMap K V :=
  match m with
  | [] => [(key, value)]
  | (k, v) :: rest =>
      if decide (k = key) then (k, value) :: rest
      else (k, v) :: Map_set key value rest
  end.

(** [map.delete(key)] *)
Definition Map_delete (key : K) (m : JSMap K V) : JSMap K V :=
  filter (fun entry => entry.1 ≠ key) m.

(** [Array.from(map.values())] *)
Definition Map_values (m : JSMap K V) : list V := m.*2.
End JSMap.

(** The body of the loop of [dedupeBy], on the map [deduped]. *)
Definition dedupeBy_step {A K : Type} `{EqDecision K}
    (choose : A -> A -> K -> Z) (map : A -> K)
    (deduped : JSMap K A) (value : A) : JSMap K A :=
  let key := map value in
  match Map_get key deduped with
  | Some kept =>             (* deduped.has(key) *)
      let choice := choose kept value key in
      if choice =? 1
      then Map_set key value (Map_delete key deduped)
      else deduped
  | None => Map_set key value deduped
  end.

(** [dedupeBy(values, choose, map)] *)
Definition dedupeBy {A K : Type} `{EqDecision K} (values : list A)
    (choose : A -> A -> K -> Z) (map : A -> K) : list A :=
  if (length values <=? 1)%nat then values (* values.slice() *)
  else Map_values (foldl (dedupeBy_step choose map) [] values).

(** The state of the loop of [dedupeAdjacentBy]: [result],
    [values[baseIndex]] and [left]. *)
Definition dedupeAdjacentBy_step {A K : Type} `{EqDecision K}
    (choose : A -> A -> K -> Z) (map : A -> K)
    (state : list A * A * K) (value : A) : list A * A * K :=
  let '(result, base, left') := state in
  let right' := map value in
  let choice := if decide (left' ≠ right') then 0 else choose base value left' in
  if choice =? -1 then (result, base, left')
  else ((if choice =? 0 then result ++ [base] else result), value, right').

(** [dedupeAdjacentBy(values, choose, map)] *)
Definition dedupeAdjacentBy {A K : Type} `{EqDecision K} (values : list A)
    (choose : A -> A -> K -> Z) (map : A -> K) : list A :=
  match values with
  | [] => []
  | first :: rest =>
      if (length values <=? 1)%nat then values (* values.slice() *)
      else
        let '(result, base, _) :=
          foldl (dedupeAdjacentBy_step choose map) ([], first, map first) rest in
        result ++ [base]
  end.

(** [dedupeAdjacent = dedupeAdjacentBy(_, () => -1)], with the default [map = identity] *)
Definition dedupeAdjacent {A : Type} `{EqDecision A} (values : list A) : list A :=
  dedupeAdjacentBy values (fun _ _ _ => -1) identity.


(** [cartesianProduct(xss)], as built in [dist/utils/functions.js]:
    [0 === xss.length ? [] : xss.reduce((yss, xs) => yss.flatMap(ys => xs.map(x => [...ys, x])), [[]])] *)
Definition cartesianProduct {A : Type} (xss : list (list A)) : list (list A) :=
  if (length xss =? 0)%nat then []
  else foldl (fun yss xs => flat_map (fun ys => List.map (fun x => ys ++ [x]) xs) yss)
             [[]] xss.

Section Inherited.
(** The names of the properties that a plain object inherits from
    [Object.prototype] ("constructor", "toString", ...); none of their
    values has a [push] method. *)
Variable inherited : string -> bool.

(** [key in object] *)
Definition has_property {A : Type} (object : JSObject A) (key : string) : bool :=
  match obj_get key object with
  | Some _ => true
  | None => inherited key
  end.

(** [groupBy(values, getter)], where [getter] stands for
    [value => String(getter(value))]. *)
Definition groupBy {A : Type} (values : list A) (getter : A -> string)
    : Result (JSObject (list A)) :=
  foldl (fun result value =>
           match result with
           | Done result =>
               let key := getter value in
               let result :=
                 if has_property result key then result else obj_set key [] result in
               match obj_get key result with
               | Some group => Done (obj_set key (group ++ [value]) result)
               | None => Thrown (VError "TypeError")  (* result[key].push is not a function *)
               end
           | failed => failed
           end)
        (Done []) values.
End Inherited.

(** [escapeRegExp = it.replace(/[.*+?^${}()|[\]\\]/g, '\\$&')]:
    a backslash is put before each of the fourteen characters of the
    class. *)
Definition regexp_syntax_characters : list string :=
  [ "."; "*"; "+"; "?"; "^"; "$"; "{"; "}"; "("; ")"; "|"; "["; "]"; "\" ].

Definition is_syntax_character (a : Ascii.ascii) : bool :=
  bool_decide (String a EmptyString ∈ regexp_syntax_characters).

Fixpoint escapeRegExp (value : string) : string :=
  match value with
  | EmptyString => EmptyString
  | String a rest =>
      if is_syntax_character a
      then "\" +:+ String a (escapeRegExp rest)
      else String a (escapeRegExp rest)
  end.

End Functions.

(** ** The data about the detected sounds (found in [src/duo/sounds.js]) *)

Module Sounds.

Definition SOUND_TYPE_EFFECT : string := "effect".
Definition SOUND_TYPE_TTS_SENTENCE : string := "tts_sentence".
Definition SOUND_TYPE_TTS_WORD : string := "tts_word".
Definition SOUND_TYPE_TTS_MORPHEME : string := "tts_morpheme".
Definition SOUND_TYPE_UNKNOWN : string := "unknown".

Definition SOUND_SPEED_NORMAL : string := "normal".
Definition SOUND_SPEED_SLOW : string := "slow".

(** The typedef [SoundData]; a [language] of [None] is [null]. *)
Record SoundData := {
  url : string;
  type : string;
  speed : string;
  language : option string;
}.

Definition SOUND_TYPE_RELEVANCE : list string :=
  [ SOUND_TYPE_UNKNOWN; SOUND_TYPE_TTS_SENTENCE; SOUND_TYPE_TTS_WORD;
    SOUND_TYPE_TTS_MORPHEME; SOUND_TYPE_EFFECT ].

Definition SOUND_SPEED_RELEVANCE : list string :=
  [ SOUND_SPEED_NORMAL; SOUND_SPEED_SLOW ].

(** [compareSoundDataRelevance = compareWith([ lift(...), lift(...) ], _, _)] *)
Definition compareSoundDataRelevance (dataA dataB : SoundData) : Z :=
  Functions.compareWith
    [ (fun a b => Some (Functions.indexOf SOUND_TYPE_RELEVANCE (type a)
                        - Functions.indexOf SOUND_TYPE_RELEVANCE (type b)));
      (fun a b => Some (Functions.indexOf SOUND_SPEED_RELEVANCE (speed a)
                        - Functions.indexOf SOUND_SPEED_RELEVANCE (speed b))) ]
    dataA dataB.

(** [string.charAt(index)]: the empty string when out of range. *)
Definition charAt (s : string) (index : nat) : string :=
  match String.get index s with
  | Some a => String a EmptyString
  | None => EmptyString
  end.

Section UrlPath.
(** [new URL(url).pathname], or [None] when the constructor throws. *)
Variable URL_pathname : string -> option string.

(** [getUrlPath(url)] of utils/functions.js *)
Definition getUrlPath (url : string) : string :=
  let '(url, path) :=
    if decide (charAt url 0 = "/")
    then if decide (charAt url 1 = "/")
         then ("https://" +:+ url, None)
         else (url, Some url)
    else (url, None) in
  match path with
  | Some path => path
  | None =>
      match URL_pathname url with
      | Some pathname => pathname   (* try *)
      | None => url                 (* catch *)
      end
  end.

(** [registerSoundsData(newData)], on the value of the shared variable
    'sound_type_map': an object from paths to sound data (the paths are
    not names of properties that objects inherit). *)
Definition registerSoundsData (newData : list SoundData)
    (soundsData : JSObject SoundData) : JSObject SoundData :=
  foldl (fun soundsData soundData =>
           let path := getUrlPath (url soundData) in
           match obj_get path soundsData with
           | None => obj_set path soundData soundsData
           | Some existing =>
               if 0 <? compareSoundDataRelevance soundData existing
               then obj_set path soundData soundsData
               else soundsData
           end)
        soundsData newData.
End UrlPath.

(** The relevance of sound data: the ranks of its type and of its speed. *)
Definition relevance (data : SoundData) : Z * Z :=
  (Functions.indexOf SOUND_TYPE_RELEVANCE (type data),
   Functions.indexOf SOUND_SPEED_RELEVANCE (speed data)).

(** The lexicographic order on pairs of ranks. *)
Definition more_relevant (p q : Z * Z) : Prop :=
  q.1 < p.1 \/ (q.1 = p.1 /\ q.2 < p.2).

End Sounds.

(** ** utils/internal.js: the shared global variables and the overrides *)

Module Internal.

Section SharedGlobalVariables.
Context {V : Type}.

(** What [window[KEY_GLOBAL_VARIABLES]] holds: the object of the variables,
    or [None] for anything that is not an object. *)
Definition Globals : Type := option (JSObject V).

(** [object[key] = value] on a plain object: "__proto__" names the
    prototype of the object, so that assigning to it adds no property. *)
Definition assign_property (key : string) (value : V) (object : JSObject V)
    : JSObject V :=
  if decide (key = "__proto__") then object else obj_set key value object.

(** [if (!isObject(window[KEY_GLOBAL_VARIABLES])) window[KEY_GLOBAL_VARIABLES] = {}] *)
Definition ensureGlobals (globals : Globals) : JSObject V := default [] globals.

(** [getSharedGlobalVariable(key, defaultValue)] *)
Definition getSharedGlobalVariable (key : string) (defaultValue : V)
    (globals : Globals) : V * Globals :=
  let variables := ensureGlobals globals in
  (match obj_get key variables with   (* hasObjectProperty(..., key) *)
   | None => defaultValue
   | Some value => value
   end,
   Some variables).

(** [setSharedGlobalVariable(key, value)] *)
Definition setSharedGlobalVariable (key : string) (value : V)
    (globals : Globals) : Globals :=
  Some (assign_property key value (ensureGlobals globals)).

(** [updateSharedGlobalVariable(key, callback, defaultValue)], for a
    callback that leaves the shared variables alone. *)
Definition updateSharedGlobalVariable (key : string) (callback : V -> V)
    (defaultValue : V) (globals : Globals) : V * Globals :=
  let '(value, globals) := getSharedGlobalVariable key defaultValue globals in
  let updatedValue := callback value in
  (updatedValue, setSharedGlobalVariable key updatedValue globals).
End SharedGlobalVariables.

(** The number nearest to the integer [x] among the double-precision
    numbers, which are those of JavaScript: [x] itself up to [2^53]; beyond,
    the 53 leading bits of [x] are kept and rounded to nearest, to the even
    neighbour in case of a tie.  (For [|x| < 2^1024].) *)
Definition round_double (x : Z) : Z :=
  let a := Z.abs x in
  if a <? 2 ^ 53 then x
  else
    let e := Z.log2 a - 52 in
    let q := a / 2 ^ e in
    let r := a mod 2 ^ e in
    let q' :=
      if 2 * r <? 2 ^ e then q
      else if 2 ^ e <? 2 * r then q + 1
      else if Z.even q then q else q + 1 in
    Z.sgn x * (q' * 2 ^ e).

(** [bumpGlobalCounter = key => updateSharedGlobalVariable(`__counter::${key}__`, lift(_ + 1), 0)],
    on variables that hold integers; [_ + 1] is the addition of numbers. *)
Definition bumpGlobalCounter (key : string) (globals : Globals) : Z * Globals :=
  updateSharedGlobalVariable ("__counter::" +:+ key +:+ "__")
    (fun n => round_double (n + 1)) 0 globals.

(** *** Overrides *)

(** A function object: a function as it is, or the function that
    [overrideFunction] installed, which is the result of [applyOverride]
    and carries the properties [KEY_ORIGINAL_FUNCTION] and
    [KEY_OVERRIDE_VERSION]. *)
Inductive FunctionObject :=
| Plain (name : string)
| Overridden (applyOverride : string) (original : FunctionObject) (version : Z).

(** The argument [host], as far as [overrideFunction] looks at it: not an
    object (for [isObject]), or an object with what it holds under [name]. *)
Inductive Host :=
| NotAnObject
| HostObject (method : option FunctionObject).

(** [Number(host[name]?.[KEY_OVERRIDE_VERSION]) || 0] *)
Definition override_version (method : option FunctionObject) : Z :=
  match method with
  | Some (Overridden _ _ version) => version
  | _ => 0
  end.

(** [host[name]?.[KEY_ORIGINAL_FUNCTION] || host[name] || noop] *)
Definition original_function (method : option FunctionObject) : FunctionObject :=
  match method with
  | Some (Overridden _ original _) => original
  | Some function => function
  | None => Plain "noop"
  end.

(** [overrideFunction(host, name, applyOverride, overrideVersion)], where
    [applyOverride] returns a new function. *)
Definition overrideFunction (host : Host) (applyOverride : string)
    (overrideVersion : Z) : Host :=
  match host with
  | NotAnObject => NotAnObject
  | HostObject method =>
      if override_version method <? overrideVersion
      then HostObject
             (Some (Overridden applyOverride (original_function method) overrideVersion))
      else host
  end.

End Internal.

(** ** duo/sounds.js: the bounds of the sound settings *)

Module SoundSettings.

(** The numbers that a setting can be given: the rationals (of which the
    finite doubles are a part, with their order), the two infinities and
    [NaN]. *)
Inductive Number :=
| NaN
| Finite (q : Qc)
| Infinity (negative : bool).

(** [x <= y], false when one of them is [NaN] *)
Definition number_le (x y : Number) : bool :=
  match x, y with
  | NaN, _ | _, NaN => false
  | Infinity true, _ => true
  | _, Infinity false => true
  | Finite p, Finite q => Qle_bool p q
  | _, _ => false
  end.

(** [Math.min(x, y)] and [Math.max(x, y)] *)
Definition Math_min (x y : Number) : Number :=
  match x, y with
  | NaN, _ | _, NaN => NaN
  | _, _ => if number_le x y then x else y
  end.

Definition Math_max (x y : Number) : Number :=
  match x, y with
  | NaN, _ | _, NaN => NaN
  | _, _ => if number_le x y then y else x
  end.

Definition SOUND_SETTING_RATE : string := "rate".
Definition SOUND_SETTING_VOLUME : string := "volume".

(** The base configuration of a setting. *)
Record SoundSetting := {
  minValue : Number;
  maxValue : Number;
  defaultValue : Number;
}.

(** What [SOUND_SETTINGS[code]] evaluates to: a setting, a property that
    the object inherits (which has no [minValue] and no [maxValue]), or
    [undefined]. *)
Inductive SettingLookup :=
| Setting (setting : SoundSetting)
| InheritedProperty
| Undefined.

Section Inherited.
(** The names of the properties that a plain object inherits. *)
Variable inherited : string -> bool.

(** [SOUND_SETTINGS[code]] *)
Definition SOUND_SETTINGS (code : string) : SettingLookup :=
  if decide (code = SOUND_SETTING_RATE)
  then Setting {| minValue := Finite (Q2Qc 0.5); maxValue := Finite (Q2Qc 4.0);
                  defaultValue := Finite (Q2Qc 1.0) |}
  else if decide (code = SOUND_SETTING_VOLUME)
  then Setting {| minValue := Finite (Q2Qc 0.0); maxValue := Finite (Q2Qc 1.0);
                  defaultValue := Finite (Q2Qc 1.0) |}
  else if inherited code then InheritedProperty
  else Undefined.

(** [clampSoundSettingValue(code, value)]; a missing bound is [undefined],
    which [Math.min] and [Math.max] read as [NaN]. *)
Definition clampSoundSettingValue (code : string) (value : Number) : Number :=
  match SOUND_SETTINGS code with
  | Undefined => value
  | Setting setting => Math_max (minValue setting) (Math_min value (maxValue setting))
  | InheritedProperty => Math_max NaN (Math_min value NaN)
  end.
End Inherited.

End SoundSettings.

(** ** The callers of the registry (found in [src/duo/sounds.js]) *)

Module Events.

Definition EVENT_TYPE_SOUND_PLAYBACK_REQUESTED : string := "sound_playback_requested".
Definition EVENT_TYPE_SOUND_PLAYBACK_CONFIRMED : string := "sound_playback_confirmed".
Definition EVENT_TYPE_SOUND_PLAYBACK_CANCELLED : string := "sound_playback_cancelled".

(** [results?.some(false === it)]; [undefined], for [null] results, counts
    as [false] wherever it is used. *)
Definition some_false (results : option (list Value)) : bool :=
  match results with
  | Some results =>
      existsb (fun it => match it with VBoolean false => true | _ => false end) results
  | None => false
  end.


Section Callers.
Variable callback_outcome : string -> list Value -> Outcome.
Variable mapPayload_outcome : string -> list Value -> Outcome.

(** [processSoundPlayback(sound, url, playbackStrategy, play)], from the
    payload that [getSoundEventPayload] built; [play] is the callback that
    starts the playback.  The assignment to [isCancelled] splits the [try]
    block in two: an exception before it leaves [isCancelled] at [false],
    an exception after it leaves it as assigned.  Logging the error is not
    part of the model. *)
Definition processSoundPlayback (fuel : nat) (reg : Registry) (payload : Value)
    (play : M Value) : M Value :=
  let dispatchEvent := dispatchEvent callback_outcome mapPayload_outcome fuel reg in
  let* assigned :=
    try_catch
      (let* results := dispatchEvent EVENT_TYPE_SOUND_PLAYBACK_REQUESTED [payload] in
       ret (Some (some_false results)))
      (fun error => ret None) in
  let* isCancelled :=
    match assigned with
    | None => ret false
    | Some isCancelled =>
        let* _ :=
          try_catch
            (if negb isCancelled
             then dispatchEvent EVENT_TYPE_SOUND_PLAYBACK_CONFIRMED [payload]
             else dispatchEvent EVENT_TYPE_SOUND_PLAYBACK_CANCELLED [payload])
            (fun error => ret None) in
        ret isCancelled
    end in
  if isCancelled then ret VNull else play.

End Callers.

End Events.

(** * Vocabulary of the properties *)

(** ** The mutex registry *)

(** An object without [pendingHolders], seen as a mutex. *)
Definition bare_mutex (current : option MutexHolder) : Mutex :=
  {| currentHolder := current; pendingHolders := [] |}.

(** The mutex registered under a code other than "__proto__", as a function
    of the properties of [mutexes] and of the mutex objects. *)
Definition mutex_at (ms : gmap string Slot) (hp : list Mutex) (c : string) : Mutex :=
  match ms !! c with
  | Some (SObject r) => default fresh_mutex (hp !! r)
  | Some (SHolderWith own) => bare_mutex own
  | _ => fresh_mutex
  end.

(** References held by [mutexes] are allocated, and no object is shared
    between two codes; what [mutexes] holds as a property of its own is
    [undefined], a mutex object, or, under the code "currentHolder", a
    holder object with a [currentHolder] of its own. *)
Definition wf_store (ms : gmap string Slot) (hp : list Mutex) : Prop :=
  (forall c r, ms !! c = Some (SObject r) ->
     (r < length hp)%nat /\ forall c', ms !! c' = Some (SObject r) -> c' = c) /\
  (forall c s, ms !! c = Some s ->
     s = SUndefined \/ (exists r, s = SObject r) \/
     (exists own, s = SHolderWith own /\ c = "currentHolder")).

(** The store of a world is well formed. *)
Definition WF (w : World) : Prop := wf_store (mutexes w) (heap w).

(** The code finds an object without [pendingHolders]: [Object.prototype],
    or a holder object. *)
Definition lacks_pendingHolders (w : World) (c : string) : bool :=
  match lookup_mutex w c with
  | SPrototype | SHolder _ | SHolderWith _ => true
  | _ => false
  end.

(** A request on the code throws: it finds an object without
    [pendingHolders] whose [currentHolder] is set. *)
Definition request_throws (w : World) (c : string) : bool :=
  lacks_pendingHolders w c
  && bool_decide (is_Some (currentHolder_of w (lookup_mutex w c))).

(** An effective release: the next holder is promoted, or the mutex is
    freed. *)
Definition promote (m : Mutex) : Mutex :=
  match maxBy (pendingHolders m) priority with
  | Some nextHolder =>
      {| currentHolder := Some nextHolder;
         pendingHolders :=
           filter (fun it => uniqueId it ≠ uniqueId nextHolder) (pendingHolders m) |}
  | None => {| currentHolder := None; pendingHolders := pendingHolders m |}
  end.

(** The mutex found by the next [updateMutex] after [releaseMutex]. *)
Definition released (m : Mutex) (holderId : nat) : Mutex :=
  if not_held_by (currentHolder m) holderId then fresh_mutex else promote m.

(** The mutex after a request by [h]: granted at once when free, else
    queued. *)
Definition enqueued (h : MutexHolder) (m : Mutex) : Mutex :=
  match currentHolder m with
  | None => {| currentHolder := Some h; pendingHolders := pendingHolders m |}
  | Some current =>
      {| currentHolder := Some current; pendingHolders := pendingHolders m ++ [h] |}
  end.

(** The mutex after the timeout of request [id]. *)
Definition expired (id : nat) (m : Mutex) : Mutex :=
  {| currentHolder := currentHolder m;
     pendingHolders := filter (fun it => id ≠ uniqueId it) (pendingHolders m) |}.

(** The mutex of a code after a request by [h]: when the request throws,
    the mutex is as it was. *)
Definition requested (h : MutexHolder) (w : World) (c : string) : Mutex :=
  if request_throws w c then mutex_of w c else enqueued h (mutex_of w c).

(** The mutex of a code after [releaseMutex]: a release by a holder that
    does not hold the mutex stores [undefined] under the code, which under
    "__proto__" stores nothing. *)
Definition released_at (w : World) (c : string) (holderId : nat) : Mutex :=
  if bool_decide (c = "__proto__")
     && not_held_by (currentHolder (mutex_of w c)) holderId
  then mutex_of w c
  else released (mutex_of w c) holderId.

(** The timers armed by a release. *)
Definition release_timers (w : World) (m : Mutex) (holderId : nat) : list Timer :=
  if not_held_by (currentHolder m) holderId then []
  else
    match maxBy (pendingHolders m) priority with
    | Some nextHolder =>
        [{| timerId := next_timer_id w; due := (now w + 0)%nat;
            task := RunOnAcquired nextHolder |}]
    | None => []
    end.

(** The fields that [updateMutex] itself leaves alone. *)
Definition frame (w : World) :=
  (last_mutex_holder_id w, promises w, now w, timers w, next_timer_id w, log w,
   prototype_currentHolder w).

(** The holder record that [requestMutex] builds in world [w]. *)
Definition request_holder (w : World) (c : string) (config : Config) : MutexHolder :=
  {| uniqueId := S (last_mutex_holder_id w);
     priority := default PRIORITY_AVERAGE (cfg_priority config);
     onAcquired :=
       {| cancelTimeoutId :=
            match positive_delay (cfg_timeoutDelay config) with
            | Some _ => Some (next_timer_id w)
            | None => None
            end;
          acquiredCode := c |};
     onSupersessionRequest := default noop (cfg_onSupersessionRequest config) |}.

(** The timeout timer that [requestMutex] arms, if any. *)
Definition timeout_timers (w : World) (c : string) (config : Config) : list Timer :=
  match positive_delay (cfg_timeoutDelay config) with
  | Some d =>
      [{| timerId := next_timer_id w; due := (now w + Z.to_nat d)%nat;
          task := TimeoutExpired c (S (last_mutex_holder_id w)) |}]
  | None => []
  end.

(** The notification that [requestMutex] defers: [onAcquired] when the mutex
    is free, [onSupersessionRequest] when it is held with a lower priority. *)
Definition notify_timers (w : World) (c : string) (config : Config) (r : nat) : list Timer :=
  let holder := request_holder w c config in
  let id := (next_timer_id w + length (timeout_timers w c config))%nat in
  match currentHolder (mutex_of w c) with
  | None => [{| timerId := id; due := (now w + 0)%nat; task := RunOnAcquired holder |}]
  | Some current =>
      if gt (priority holder) (priority current)
      then [{| timerId := id; due := (now w + 0)%nat; task := NotifySupersession r |}]
      else []
  end.

(** The current holder, if any, followed by the pending holders. *)
Definition holders (m : Mutex) : list MutexHolder :=
  option_list (currentHolder m) ++ pendingHolders m.

(** What a timer task may rely on when it finally runs. *)
Definition task_ok (w : World) (t : Task) : Prop :=
  match t with
  | RunOnAcquired h =>
      (uniqueId h <= last_mutex_holder_id w)%nat /\
      forall c x, x ∈ pendingHolders (mutex_of w c) -> uniqueId x ≠ uniqueId h
  | NotifySupersession _ => True
  | TimeoutExpired c id =>
      (id <= last_mutex_holder_id w)%nat /\
      forall c' x, x ∈ pendingHolders (mutex_of w c') -> uniqueId x = id -> c' = c
  end.

(** The invariant of the worlds reached by running operations. *)
Record Inv (w : World) : Prop := {
  inv_wf : WF w;
  (* holder ids come from the counter *)
  inv_ids : forall c h, h ∈ holders (mutex_of w c) ->
    (uniqueId h <= last_mutex_holder_id w)%nat;
  (* a mutex never lists a holder twice, as current or as pending *)
  inv_nodup : forall c, NoDup (uniqueId <$> holders (mutex_of w c));
  (* a holder belongs to one mutex *)
  inv_codes : forall c1 c2 h1 h2,
    h1 ∈ holders (mutex_of w c1) -> h2 ∈ holders (mutex_of w c2) ->
    uniqueId h1 = uniqueId h2 -> c1 = c2;
  (* the promise of a pending holder is not settled *)
  inv_pending : forall c h, h ∈ pendingHolders (mutex_of w c) ->
    promises w !! uniqueId h = Some Pending;
  inv_timers : forall t, t ∈ timers w -> task_ok w (task t);
}.

(** The options [{ priority, timeoutDelay, onSupersessionRequest }]. *)
Definition request_with (p : Z) (delay : option Z) (cb : string) : Config :=
  {| cfg_priority := Some p; cfg_timeoutDelay := delay;
     cfg_onSupersessionRequest := Some (UserCallback cb) |}.

(** A (priority 1) acquires the free mutex and receives its release
    function; B (priority 5) and C (priority 3) queue up; A releases, which
    promotes B and leaves C pending. *)
Definition scenario_released : list Op :=
  [ Request "m" (request_with 1 None "a"); RunNextTimer;
    Request "m" (request_with 5 None "b");
    Request "m" (request_with 3 None "c");
    CallRelease 1 ].

(** A (priority 1) holds the mutex; in one turn B (priority 5) requests it
    and A releases it; then the deferred callbacks run. *)
Definition scenario_late_notice : list Op :=
  [ Request "m" (request_with 1 None "a"); RunNextTimer;
    Request "m" (request_with 5 None "b"); CallRelease 1;
    RunNextTimer; RunNextTimer ].

(** A holds the mutex; B requests it with a timeout of 50 ms; the timeout
    elapses while B is still pending. *)
Definition scenario_timeout : list Op :=
  [ Request "m" (request_with 1 None "a"); RunNextTimer;
    Request "m" (request_with 5 (Some 50) "b"); RunNextTimer;
    Elapse 50; RunNextTimer ].

(** A holds the mutex; B requests it with a timeout of 50 ms; A releases
    at 60 ms, in a turn that runs before the overdue timer of B does. *)
Definition scenario_timeout_race : list Op :=
  [ Request "m" (request_with 1 None "a"); RunNextTimer;
    Request "m" (request_with 5 (Some 50) "b"); RunNextTimer;
    Elapse 60; CallRelease 1; RunNextTimer; RunNextTimer ].

(** The ids of the current and of the pending holders. *)
Definition holder_ids (m : Mutex) : option nat * list nat :=
  (uniqueId <$> currentHolder m, uniqueId <$> pendingHolders m).

(** Request [id] has no timeout timer and its promise is not rejected. *)
Definition untimed (id : nat) (w : World) : Prop :=
  (forall t c, t ∈ timers w -> task t ≠ TimeoutExpired c id) /\
  (promises w !! id = Some Pending \/
   exists c, promises w !! id = Some (Fulfilled c id)).

(** In [scenario_timeout]: the timeout timer of B, and the holder B. *)
Definition timeout_timer_of_b : Timer :=
  {| timerId := 2; due := 50; task := TimeoutExpired "m" 2 |}.

Definition holder_b : MutexHolder :=
  {| uniqueId := 2; priority := 5;
     onAcquired := {| cancelTimeoutId := Some 2%nat; acquiredCode := "m" |};
     onSupersessionRequest := UserCallback "b" |}.

(** The holder A, requesting with priority 4. *)
Definition holder_a : MutexHolder :=
  {| uniqueId := 1; priority := 4;
     onAcquired := {| cancelTimeoutId := None; acquiredCode := "m" |};
     onSupersessionRequest := UserCallback "a" |}.

(** The promises whose release function is called in a run. *)
Definition release_calls (ops : list Op) : list nat :=
  omap (fun op => match op with CallRelease p => Some p | _ => None end) ops.

(** What holds as long as no release function is called twice: the
    requests that were granted a mutex and have not released it
    ([called] lists the release functions called so far) are its current
    holder. *)
Record Excl (called : list nat) (w : World) : Prop := {
  (* a holder is listed by the mutex it requested *)
  excl_codes : forall c h, h ∈ holders (mutex_of w c) ->
    acquiredCode (onAcquired h) = c;
  (* a promise is fulfilled with the release function of its own request *)
  excl_key : forall p c id, promises w !! p = Some (Fulfilled c id) -> id = p;
  (* a granted request that has not released is the current holder *)
  excl_granted : forall id c,
    promises w !! id = Some (Fulfilled c id) -> id ∉ called ->
    exists h, currentHolder (mutex_of w c) = Some h /\ uniqueId h = id;
  (* a request about to be told that it acquired the mutex holds it *)
  excl_timers : forall t h,
    t ∈ timers w -> task t = RunOnAcquired h ->
    (forall c, promises w !! uniqueId h ≠ Some (Fulfilled c (uniqueId h))) ->
    exists h', currentHolder (mutex_of w (acquiredCode (onAcquired h))) = Some h' /\
               uniqueId h' = uniqueId h;
}.

(** ** The listener registry *)

(** Three listeners on one event; the second one throws. *)
Definition three_listeners : Registry :=
  let reg := (registerEventListener "e" (UserListener "f") None empty_registry).2 in
  let reg := (registerEventListener "e" (UserListener "g") None reg).2 in
  (registerEventListener "e" (UserListener "h") None reg).2.

(** Callbacks that return their own name, except "g", which throws. *)
Definition g_throws (callback : string) (payload : list Value) : Outcome :=
  if bool_decide (callback = "g") then Throws (VError "Error")
  else Returns (VString callback).

(** A [mapPayload] that returns the payload as it is. *)
Definition identity_map (mapPayload : string) (payload : list Value) : Outcome :=
  Returns (VArray payload).

(** One call of [registerDerivedEventListener]. *)
Record Subscription := {
  sub_callback : Listener;
  sub_mapPayload : string;
  sub_listenerId : option string;
}.

(** Successive calls of [registerDerivedEventListener] for one pair of
    events; the closures they return are collected. *)
Fixpoint register_all
    (registerBaseListener : string -> Listener -> string -> Registry -> Registry)
    (derivedEvent baseEvent : string) (subs : list Subscription)
    (reg : Registry) : list UnregisterDerived * Registry :=
  match subs with
  | [] => ([], reg)
  | s :: rest =>
      let '(u, reg) :=
        registerDerivedEventListener derivedEvent baseEvent (sub_callback s)
          (sub_mapPayload s) registerBaseListener (sub_listenerId s) reg in
      let '(us, reg) := register_all registerBaseListener derivedEvent baseEvent rest reg in
      (u :: us, reg)
  end.

(** What [registerDerivedEventListener] expects of [registerBaseListener]:
    it registers the callback on the base event under the id of the hidden
    listener, as [registerEventListener] does, and leaves the listeners of
    the derived event alone. *)
Definition installs_base_listener
    (registerBaseListener : string -> Listener -> string -> Registry -> Registry)
    (baseEvent derivedEvent : string) : Prop :=
  forall callback reg,
    let id := baseListenerId baseEvent derivedEvent in
    getEventListeners (registerBaseListener baseEvent callback id reg) baseEvent =
      obj_set id callback (getEventListeners reg baseEvent) /\
    getEventListeners (registerBaseListener baseEvent callback id reg) derivedEvent =
      getEventListeners reg derivedEvent.

(** The string has a colon in it. *)
Fixpoint has_colon (s : string) : bool :=
  match s with
  | EmptyString => false
  | String a rest => bool_decide (String a EmptyString = ":") || has_colon rest
  end.

(** The given closures are called one after the other. *)
Definition unregister_all (closures : list UnregisterDerived) (reg : Registry) : Registry :=
  foldl (fun reg u => call_unregisterDerived u reg) reg closures.

(** The closure returned for the listener [id] of the pair. *)
Definition closure_for (derivedEvent baseEvent id : string) : UnregisterDerived :=
  {| unregisterDerived := {| unregister_event := derivedEvent; unregister_id := id |};
     derived_event := derivedEvent; base_event := baseEvent;
     base_listener_id := baseListenerId baseEvent derivedEvent |}.

(** The listener id that a closure of a pair removes. *)
Definition closure_id (u : UnregisterDerived) : string :=
  unregister_id (unregisterDerived u).

(** Two listeners derived from "raw", unregistered in reverse order. *)
Definition two_subscriptions : list Subscription :=
  [ {| sub_callback := UserListener "cb1"; sub_mapPayload := "map";
       sub_listenerId := None |};
    {| sub_callback := UserListener "cb2"; sub_mapPayload := "map";
       sub_listenerId := None |} ].

(** ** The helpers of utils/functions.js *)

(** No two neighbours of the list have the same key. *)
Fixpoint adjacent_distinct {A K : Type} (map : A -> K) (l : list A) : Prop :=
  match l with
  | x :: (y :: _) as rest => map x ≠ map y /\ adjacent_distinct map rest
  | _ => True
  end.


(** The string that a regular expression pattern matches, when the
    pattern is a sequence of characters that stand for themselves: a
    character that is not a syntax character, or a syntax character after
    a backslash. *)
Fixpoint literal_pattern (pattern : string) : option string :=
  match pattern with
  | EmptyString => Some EmptyString
  | String a rest =>
      if decide (String a EmptyString = "\")
      then
        match rest with
        | String b rest' =>
            if Functions.is_syntax_character b
            then String b <$> literal_pattern rest'
            else None
        | EmptyString => None
        end
      else if Functions.is_syntax_character a then None
      else String a <$> literal_pattern rest
  end.

(** ** The shared global variables and the overrides *)

(** Successive calls of [bumpGlobalCounter], one for each key of the list;
    the values they return are collected. *)
Fixpoint bumpGlobalCounters (keys : list string) (globals : Internal.Globals)
    : list Z * Internal.Globals :=
  match keys with
  | [] => ([], globals)
  | key :: rest =>
      let '(n, globals) := Internal.bumpGlobalCounter key globals in
      let '(ns, globals) := bumpGlobalCounters rest globals in
      (n :: ns, globals)
  end.

(** The value of a counter: 0 if it was not used yet. *)
Definition counter_value (key : string) (globals : Internal.Globals) : Z :=
  (Internal.getSharedGlobalVariable ("__counter::" +:+ key +:+ "__") 0 globals).1.

(** Successive calls of [overrideFunction] on the same function of a host,
    each with its [applyOverride] and its version. *)
Definition apply_overrides (overrides : list (string * Z)) (host : Internal.Host)
    : Internal.Host :=
  foldl (fun host override => Internal.overrideFunction host override.1 override.2)
        host overrides.

(** ** The callers of the registry *)

(** A listener of playback requests returns [false] for the payload. *)
Definition vetoes (callback_outcome mapPayload_outcome : string -> list Value -> Outcome)
    (payload : Value) (listener : Listener) : bool :=
  match listener_outcome callback_outcome mapPayload_outcome listener [payload] with
  | Returns (VBoolean false) => true
  | _ => false
  end.

(** Callbacks: "veto" returns [false], "fail" throws, the others return
    [undefined]. *)
Definition veto_callbacks (callback : string) (payload : list Value) : Outcome :=
  if bool_decide (callback = "veto") then Returns (VBoolean false)
  else if bool_decide (callback = "fail") then Throws (VError "Error")
  else Returns VUndefined.

(** The listeners "fail" and "veto" of the playback requests, and the
    listener "log" of the cancellations. *)
Definition playback_listeners : Registry :=
  let reg := (registerEventListener Events.EVENT_TYPE_SOUND_PLAYBACK_REQUESTED
                (UserListener "fail") None empty_registry).2 in
  let reg := (registerEventListener Events.EVENT_TYPE_SOUND_PLAYBACK_REQUESTED
                (UserListener "veto") None reg).2 in
  (registerEventListener Events.EVENT_TYPE_SOUND_PLAYBACK_CANCELLED
     (UserListener "log") None reg).2.

(** ** The mutex registry and the listener registry *)

(** An operation other than the call of a release function. *)
Definition not_a_release (op : Op) : Prop :=
  match op with
  | CallRelease _ => False
  | _ => True
  end.

(** Successive calls of [registerEventListener(event, callback)], without a
    listener id. *)
Definition register_each (event : string) (callbacks : list Listener)
    (reg : Registry) : Registry :=
  foldl (fun reg callback => (registerEventListener event callback None reg).2)
        reg callbacks.

(** The listener id that [getUniqueEventListenerId] builds from the value
    [n] of the counter. *)
Definition unique_listener_id (n : nat) : string :=
  "__listener::" +:+ pretty n +:+ "__".

(** * Properties *)

(** ** [maxBy] selects the first element with the largest calculated value *)

Section MaxBy.
Context {A : Type} (f : A -> Z).

Lemma extremumBy_loop_max (l : list A) (s h : A) :
  extremumBy_loop f gt l (Some s) (Some (f s)) = Some h ->
  (h = s /\ Forall (fun x => f x <= f s) l) \/
  (exists l1 l2, l = l1 ++ h :: l2 /\ f s < f h /\
     Forall (fun x => f x < f h) l1 /\ Forall (fun x => f x <= f h) l2).
Proof.
  revert s. induction l as [|x l IH]; intros s; simpl.
  - intros [= <-]. left. split; [done | constructor].
  - unfold gt at 1. destruct (Z.ltb_spec (f s) (f x)) as [Hlt|Hge]; intros Hloop.
    + apply IH in Hloop as [[-> Hall] | (l1 & l2 & -> & Hlt' & H1 & H2)].
      * right. exists [], l. repeat split; [done | constructor | done].
      * right. exists (x :: l1), l2. repeat split; [lia | | done].
        constructor; [lia | done].
    + apply IH in Hloop as [[-> Hall] | (l1 & l2 & -> & Hlt' & H1 & H2)].
      * left. split; [done |]. constructor; done.
      * right. exists (x :: l1), l2. repeat split; [done | | done].
        constructor; [lia | done].
Qed.

Lemma maxBy_None (l : list A) : maxBy l f = None -> l = [].
Proof.
  destruct l as [|x l]; [done |]. unfold maxBy, extremumBy. simpl.
  intros Hloop. exfalso. revert x Hloop.
  induction l as [|y l IH]; intros s; simpl; [done |].
  destruct (gt (f y) (f s)); apply IH.
Qed.

(** The selected element splits the list: strictly smaller values before
    it, no larger value after it. *)
Lemma maxBy_Some (l : list A) (h : A) :
  maxBy l f = Some h ->
  exists l1 l2, l = l1 ++ h :: l2 /\
    Forall (fun x => f x < f h) l1 /\ Forall (fun x => f x <= f h) l2.
Proof.
  destruct l as [|x l]; [done |]. unfold maxBy, extremumBy. simpl.
  intros Hloop. apply extremumBy_loop_max in Hloop
    as [[-> Hall] | (l1 & l2 & -> & Hlt & H1 & H2)].
  - exists [], l. repeat split; [constructor | done].
  - exists (x :: l1), l2. repeat split; [| done]. constructor; done.
Qed.

End MaxBy.

(** ** The store of mutex objects *)

Lemma mutex_of_eq (w : World) (c : string) :
  mutex_of w c =
    if decide (c = "__proto__") then bare_mutex (prototype_currentHolder w)
    else mutex_at (mutexes w) (heap w) c.
Proof.
  unfold mutex_of, mutex_at, bare_mutex, deref. case_decide; [done |].
  by destruct (mutexes w !! c) as [[]|].
Qed.

Lemma mutex_of_prototype (w : World) :
  mutex_of w "__proto__" = bare_mutex (prototype_currentHolder w).
Proof. by rewrite mutex_of_eq, decide_True. Qed.

Lemma mutex_of_ext (w w' : World) (c : string) :
  mutexes w' = mutexes w -> heap w' = heap w ->
  prototype_currentHolder w' = prototype_currentHolder w ->
  mutex_of w' c = mutex_of w c.
Proof. intros Hm Hh Hp. unfold mutex_of, deref. by rewrite Hm, Hh, Hp. Qed.

Section Store.
Context (ms : gmap string Slot) (hp : list Mutex).
Hypothesis Hwf : wf_store ms hp.

(** [mutex.field = ...] on the object stored under [c], stored back. *)
Lemma store_in_place (c : string) (r : nat) (m : Mutex) :
  ms !! c = Some (SObject r) ->
  wf_store (<[c := SObject r]> ms) (<[r := m]> hp) /\
  forall c', mutex_at (<[c := SObject r]> ms) (<[r := m]> hp) c' =
             if decide (c' = c) then m else mutex_at ms hp c'.
Proof.
  intros Hc. destruct Hwf as [Hrefs Hkinds].
  destruct (Hrefs c r Hc) as [Hr Hinj].
  rewrite (insert_id ms c (SObject r) Hc). split; [split; [| done] |].
  - intros c1 r1 H1. rewrite length_insert. by apply Hrefs.
  - intros c'. unfold mutex_at. destruct (decide (c' = c)) as [->|E].
    + rewrite Hc. by rewrite list_lookup_insert_eq.
    + destruct (ms !! c') as [[|r'| | | |]|] eqn:E'; try done.
      rewrite list_lookup_insert_ne; [done |].
      intros ->. by apply E, Hinj.
Qed.

(** A newly allocated object stored under [c]. *)
Lemma store_fresh (c : string) (m : Mutex) :
  wf_store (<[c := SObject (length hp)]> ms) (hp ++ [m]) /\
  forall c', mutex_at (<[c := SObject (length hp)]> ms) (hp ++ [m]) c' =
             if decide (c' = c) then m else mutex_at ms hp c'.
Proof.
  destruct Hwf as [Hrefs Hkinds]. split; [split |].
  - intros c1 r1. rewrite length_app. simpl.
    destruct (decide (c1 = c)) as [->|E1].
    + rewrite lookup_insert_eq. intros [= <-]. split; [lia |]. intros c2.
      destruct (decide (c2 = c)) as [->|E2]; [done |].
      rewrite lookup_insert_ne by done. intros H2.
      destruct (Hrefs c2 _ H2). lia.
    + rewrite lookup_insert_ne by done. intros H1.
      destruct (Hrefs c1 r1 H1) as [Hr1 Hinj1]. split; [lia |].
      intros c2. destruct (decide (c2 = c)) as [->|E2].
      * rewrite lookup_insert_eq. intros [= <-]. lia.
      * rewrite lookup_insert_ne by done. apply Hinj1.
  - intros c1 s. destruct (decide (c1 = c)) as [->|E1].
    + rewrite lookup_insert_eq. intros [= <-]. eauto.
    + rewrite lookup_insert_ne by done. apply Hkinds.
  - intros c'. unfold mutex_at. destruct (decide (c' = c)) as [->|E].
    + rewrite lookup_insert_eq. by rewrite list_lookup_middle.
    + rewrite lookup_insert_ne by done.
      destruct (ms !! c') as [[|r'| | | |]|] eqn:E'; try done.
      destruct (Hrefs c' r' E'). by rewrite lookup_app_l.
Qed.

(** A value that is not a mutex object stored under [c]. *)
Lemma store_other (c : string) (s : Slot) :
  s = SUndefined \/ (exists own, s = SHolderWith own /\ c = "currentHolder") ->
  wf_store (<[c := s]> ms) hp /\
  forall c', mutex_at (<[c := s]> ms) hp c' =
             if decide (c' = c)
             then match s with SHolderWith own => bare_mutex own | _ => fresh_mutex end
             else mutex_at ms hp c'.
Proof.
  intros Hs. destruct Hwf as [Hrefs Hkinds]. split; [split |].
  - intros c1 r1. destruct (decide (c1 = c)) as [->|E1].
    + rewrite lookup_insert_eq. intros [= ->]. by destruct Hs as [? | [? [? ?]]].
    + rewrite lookup_insert_ne by done. intros H1.
      destruct (Hrefs c1 r1 H1) as [Hr1 Hinj1]. split; [done |].
      intros c2. destruct (decide (c2 = c)) as [->|E2].
      * rewrite lookup_insert_eq. intros [= ->]. by destruct Hs as [? | [? [? ?]]].
      * rewrite lookup_insert_ne by done. apply Hinj1.
  - intros c1 s1. destruct (decide (c1 = c)) as [->|E1].
    + rewrite lookup_insert_eq. intros [= <-].
      destruct Hs as [-> | [own [-> Hc]]]; eauto.
    + rewrite lookup_insert_ne by done. apply Hkinds.
  - intros c'. unfold mutex_at. destruct (decide (c' = c)) as [->|E].
    + rewrite lookup_insert_eq. by destruct Hs as [-> | [own [-> _]]].
    + by rewrite lookup_insert_ne by done.
Qed.
End Store.

(** ** What a code finds in [mutexes] *)

Lemma lookup_cases (w : World) (c : string) :
  WF w ->
  match lookup_mutex w c with
  | SObject r => c ≠ "__proto__" /\ mutexes w !! c = Some (SObject r)
  | SHolderWith own => c ≠ "__proto__" /\ mutexes w !! c = Some (SHolderWith own)
  | SPrototype => c = "__proto__"
  | SHolder h =>
      c ≠ "__proto__" /\ mutexes w !! c = None /\ prototype_currentHolder w = Some h
  | SUndefined | SFunction =>
      c ≠ "__proto__" /\ (mutexes w !! c = None \/ mutexes w !! c = Some SUndefined)
  end.
Proof.
  intros [Hrefs Hkinds]. unfold lookup_mutex. case_decide as Ec; [done |].
  destruct (mutexes w !! c) as [s|] eqn:E.
  - destruct (Hkinds c s E) as [-> | [[r ->] | [own [-> _]]]]; eauto.
  - case_decide.
    + destruct (prototype_currentHolder w); eauto.
    + case_bool_decide; eauto.
Qed.

(** The codes that find an object without [pendingHolders]. *)
Lemma lookup_holder_code (w : World) (c : string) :
  WF w -> lacks_pendingHolders w c = true ->
  c = "__proto__" \/ c = "currentHolder".
Proof.
  intros [Hrefs Hkinds]. unfold lacks_pendingHolders, lookup_mutex.
  case_decide as Ec; [by left |].
  destruct (mutexes w !! c) as [s|] eqn:E.
  - destruct (Hkinds c s E) as [-> | [[r ->] | [own [-> Hc]]]]; try done. by right.
  - case_decide; [by right |]. by case_bool_decide.
Qed.

(** On any other code a request finds, or creates, a mutex object. *)
Lemma plain_code_has_pendingHolders (w : World) (c : string) :
  WF w -> c ≠ "__proto__" -> c ≠ "currentHolder" ->
  lacks_pendingHolders w c = false /\ request_throws w c = false.
Proof.
  intros Hwf H1 H2. pose proof (lookup_holder_code w c Hwf) as H.
  unfold request_throws.
  destruct (lacks_pendingHolders w c); [| done]. by destruct (H eq_refl).
Qed.

(** The mutex registered under a code, from what the code finds. *)
Lemma mutex_of_lookup (w : World) (c : string) :
  WF w ->
  mutex_of w c =
    match lookup_mutex w c with
    | SObject r => deref w r
    | SHolderWith own => bare_mutex own
    | SPrototype => bare_mutex (prototype_currentHolder w)
    | _ => fresh_mutex
    end.
Proof.
  intros Hwf. pose proof (lookup_cases w c Hwf) as H. unfold mutex_of, bare_mutex.
  destruct (lookup_mutex w c) as [|r| | |h|own].
  - destruct H as [Hc [-> | ->]]; by rewrite decide_False.
  - destruct H as [Hc ->]. by rewrite decide_False.
  - destruct H as [Hc [-> | ->]]; by rewrite decide_False.
  - by rewrite decide_True.
  - destruct H as (Hc & -> & _). by rewrite decide_False.
  - destruct H as [Hc ->]. by rewrite decide_False.
Qed.

(** Somebody is pending on mutex objects only. *)
Lemma pending_has_pendingHolders (w : World) (c : string) (x : MutexHolder) :
  WF w -> x ∈ pendingHolders (mutex_of w c) ->
  lacks_pendingHolders w c = false /\ request_throws w c = false.
Proof.
  intros Hwf. rewrite (mutex_of_lookup w c Hwf).
  unfold request_throws, lacks_pendingHolders.
  destruct (lookup_mutex w c); simpl; try done; by intros ?%elem_of_nil.
Qed.

(** A code that finds a mutex object is not one that throws. *)
Lemma request_throws_false (w : World) (c : string) :
  lacks_pendingHolders w c = false -> request_throws w c = false.
Proof. unfold request_throws. by intros ->. Qed.

(** The codes that read the [currentHolder] of [Object.prototype] although
    they are not "__proto__": those that find one of its properties. *)
Lemma currentHolder_of_lookup (w : World) (c : string) :
  WF w ->
  currentHolder_of w (lookup_mutex w c) =
    match mutexes w !! c with
    | None =>
        if decide (c = "__proto__") then prototype_currentHolder w
        else if decide (c = "currentHolder") then prototype_currentHolder w
        else if bool_decide (c ∈ Object_prototype_methods)
             then prototype_currentHolder w
        else None
    | Some _ => currentHolder (mutex_of w c)
    end.
Proof.
  intros Hwf. pose proof (lookup_cases w c Hwf) as H.
  rewrite (mutex_of_lookup w c Hwf). unfold lookup_mutex in *.
  case_decide as Ec.
  - subst c. by destruct (mutexes w !! "__proto__").
  - destruct (mutexes w !! c) as [s|] eqn:E.
    + destruct s; simpl; try done.
      * destruct H as [_ [? | ?]]; congruence.
      * destruct H as (_ & ? & _). congruence.
    + case_decide; [destruct (prototype_currentHolder w) eqn:Ep; simpl; congruence |].
      by case_bool_decide.
Qed.

(** ** What each operation does to the mutex of a code *)

Lemma ensureMutex_cases (c : string) (w : World) :
  WF w ->
  let mutex := (ensureMutex c w).1 in
  let w1 := (ensureMutex c w).2 in
  WF w1 /\ frame w1 = frame w /\
  (forall c', mutex_of w1 c' = mutex_of w c') /\
  (forall c', c' ≠ c -> mutexes w1 !! c' = mutexes w !! c') /\
  lacks_pendingHolders w1 c = lacks_pendingHolders w c /\
  match mutex with
  | SObject r =>
      c ≠ "__proto__" /\ mutexes w1 !! c = Some (SObject r) /\
      lacks_pendingHolders w c = false
  | SPrototype =>
      c = "__proto__" /\ w1 = w /\ lookup_mutex w c = SPrototype
  | SHolderWith own =>
      c ≠ "__proto__" /\ w1 = w /\ lookup_mutex w c = SHolderWith own /\
      mutexes w !! c = Some (SHolderWith own)
  | SHolder h =>
      c ≠ "__proto__" /\ w1 = w /\ lookup_mutex w c = SHolder h /\
      mutexes w !! c = None /\ prototype_currentHolder w = Some h
  | SUndefined | SFunction => False
  end.
Proof.
  intros Hwf. pose proof (lookup_cases w c Hwf) as H.
  assert (Hinit : isObject (lookup_mutex w c) = false ->
    c ≠ "__proto__" ->
    (mutexes w !! c = None \/ mutexes w !! c = Some SUndefined) ->
    let w1 := set_mutexes (<[c:=SObject (length (heap w))]> (mutexes w))
                (set_heap (heap w ++ [fresh_mutex]) w) in
    ensureMutex c w = (SObject (length (heap w)), w1) /\
    WF w1 /\ (forall c', mutex_of w1 c' = mutex_of w c') /\
    lacks_pendingHolders w1 c = false).
  { intros Hobj Hc Hnone w1. unfold ensureMutex. rewrite Hobj. simpl.
    unfold store_mutex. rewrite decide_False by done. simpl. fold w1.
    destruct (store_fresh _ _ Hwf c fresh_mutex) as [Hwf' Hview].
    assert (Hlook : lookup_mutex w1 c = SObject (length (heap w))).
    { unfold lookup_mutex. rewrite decide_False by done. simpl.
      by rewrite lookup_insert_eq. }
    rewrite Hlook. split; [done |]. split; [exact Hwf' |]. split.
    - intros c'. rewrite !mutex_of_eq. simpl. case_decide; [done |].
      rewrite Hview. case_decide as Ec; [| done]. subst c'.
      unfold mutex_at. by destruct Hnone as [-> | ->].
    - unfold lacks_pendingHolders. by rewrite Hlook. }
  unfold lacks_pendingHolders in *.
  destruct (lookup_mutex w c) as [|r| | |h|own] eqn:E.
  - destruct H as [Hc Hnone].
    destruct (Hinit eq_refl Hc Hnone) as (-> & Hwf' & Hview & Hlacks). simpl.
    split; [exact Hwf' |]. split; [done |]. split; [exact Hview |].
    split; [intros c' Hc'; by rewrite lookup_insert_ne |].
    split; [exact Hlacks |]. split; [done |]. split; [apply lookup_insert_eq | done].
  - unfold ensureMutex. rewrite E. simpl. rewrite E. by destruct H.
  - destruct H as [Hc Hnone].
    destruct (Hinit eq_refl Hc Hnone) as (-> & Hwf' & Hview & Hlacks). simpl.
    split; [exact Hwf' |]. split; [done |]. split; [exact Hview |].
    split; [intros c' Hc'; by rewrite lookup_insert_ne |].
    split; [exact Hlacks |]. split; [done |]. split; [apply lookup_insert_eq | done].
  - unfold ensureMutex. rewrite E. simpl. by rewrite E.
  - unfold ensureMutex. rewrite E. simpl. rewrite E. by destruct H as (? & ? & ?).
  - unfold ensureMutex. rewrite E. simpl. rewrite E. by destruct H.
Qed.

Lemma store_mutex_ne (c : string) (value : Slot) (w : World) :
  c ≠ "__proto__" ->
  store_mutex c value w = set_mutexes (<[c := value]> (mutexes w)) w.
Proof. intros Hc. unfold store_mutex. by rewrite decide_False. Qed.

Lemma store_mutex_prototype (value : Slot) (w : World) :
  store_mutex "__proto__" value w = w.
Proof. reflexivity. Qed.

#[local] Arguments store_mutex : simpl never.

Lemma request_throws_ext (w w' : World) (c : string) :
  mutexes w' = mutexes w -> heap w' = heap w ->
  prototype_currentHolder w' = prototype_currentHolder w ->
  request_throws w' c = request_throws w c /\
  lacks_pendingHolders w' c = lacks_pendingHolders w c.
Proof.
  intros Hm Hh Hp.
  unfold request_throws, lacks_pendingHolders, lookup_mutex, currentHolder_of, deref.
  by rewrite Hm, Hh, Hp.
Qed.

Lemma bare_mutex_None : bare_mutex None = fresh_mutex.
Proof. reflexivity. Qed.

Lemma promote_bare (current : option MutexHolder) :
  promote (bare_mutex current) = fresh_mutex.
Proof. reflexivity. Qed.

Lemma releaseMutex_spec (c : string) (holderId : nat) (w : World) :
  WF w ->
  let w' := releaseMutex c holderId w in
  WF w' /\
  (forall c', mutex_of w' c' =
     if decide (c' = c) then released_at w c holderId else mutex_of w c') /\
  timers w' = timers w ++ release_timers w (mutex_of w c) holderId /\
  promises w' = promises w /\ log w' = log w /\
  last_mutex_holder_id w' = last_mutex_holder_id w /\ now w' = now w /\
  (forall c', c' ≠ c -> mutexes w' !! c' = mutexes w !! c') /\
  (c ≠ "__proto__" -> is_Some (mutexes w' !! c)).
Proof.
  intros Hwf. unfold releaseMutex, updateMutex.
  pose proof (ensureMutex_cases c w Hwf) as H.
  destruct (ensureMutex c w) as [mutex w1]. simpl in H.
  destruct H as (Hwf1 & Hframe & Hview & Hother & _ & Hcase).
  injection Hframe as Hcnt Hprom Hnow Htim Hnext Hlog Hproto.
  unfold released_at, release_timers.
  destruct mutex as [|r| | |h|own]; try done.
  - (* a mutex object *)
    destruct Hcase as (Hc & Hr & _).
    rewrite bool_decide_eq_false_2 by done. simpl.
    assert (Hderef : deref w1 r = mutex_of w c).
    { rewrite <- Hview. unfold mutex_of. by rewrite decide_False, Hr. }
    rewrite Hderef. unfold released.
    destruct (not_held_by (currentHolder (mutex_of w c)) holderId) eqn:Hheld.
    + simpl. rewrite store_mutex_ne by done.
      destruct (store_other _ _ Hwf1 c SUndefined) as [Hwf' Hv]; [by left |].
      split; [exact Hwf' |]. split.
      { intros c'. rewrite !mutex_of_eq. simpl. rewrite Hproto.
        case_decide as E1; [by rewrite decide_False by congruence |].
        rewrite Hv. case_decide; [done |].
        specialize (Hview c'). rewrite !mutex_of_eq, !decide_False in Hview by done.
        exact Hview. }
      rewrite app_nil_r. simpl. repeat split; try done.
      * intros c' Hc'. rewrite lookup_insert_ne by done. by apply Hother.
      * intros _. rewrite lookup_insert_eq. eauto.
    + unfold promote.
      destruct (maxBy (pendingHolders (mutex_of w c)) priority) as [n|] eqn:Hmax; simpl;
        rewrite store_mutex_ne by done.
      * match goal with |- context [assign r ?m _] =>
          destruct (store_in_place _ _ Hwf1 c r m Hr) as [Hwf' Hv] end.
        split; [exact Hwf' |]. split.
        { intros c'. rewrite !mutex_of_eq. simpl. rewrite Hproto.
          case_decide as E1; [by rewrite decide_False by congruence |].
          rewrite Hv. case_decide; [done |].
          specialize (Hview c'). rewrite !mutex_of_eq, !decide_False in Hview by done.
          exact Hview. }
        simpl. rewrite Htim, Hnext, Hnow. repeat split; try done.
        -- intros c' Hc'. rewrite lookup_insert_ne by done. by apply Hother.
        -- intros _. rewrite lookup_insert_eq. eauto.
      * match goal with |- context [assign r ?m _] =>
          destruct (store_in_place _ _ Hwf1 c r m Hr) as [Hwf' Hv] end.
        split; [exact Hwf' |]. split.
        { intros c'. rewrite !mutex_of_eq. simpl. rewrite Hproto.
          case_decide as E1; [by rewrite decide_False by congruence |].
          rewrite Hv. case_decide; [done |].
          specialize (Hview c'). rewrite !mutex_of_eq, !decide_False in Hview by done.
          exact Hview. }
        rewrite app_nil_r. simpl. repeat split; try done.
        -- intros c' Hc'. rewrite lookup_insert_ne by done. by apply Hother.
        -- intros _. rewrite lookup_insert_eq. eauto.
  - (* Object.prototype *)
    destruct Hcase as (-> & -> & _).
    rewrite bool_decide_eq_true_2 by done. simpl.
    rewrite mutex_of_prototype. simpl.
    destruct (not_held_by (prototype_currentHolder w) holderId) eqn:Hheld; simpl;
      rewrite store_mutex_prototype.
    + rewrite app_nil_r. split; [exact Hwf |]. split.
      { intros c'. case_decide; [subst c'; by rewrite mutex_of_prototype | done]. }
      done.
    + rewrite app_nil_r. split; [exact Hwf |]. split.
      { intros c'. unfold released. simpl. rewrite Hheld.
        rewrite !mutex_of_eq. simpl. by case_decide. }
      done.
  - (* a holder object, inherited *)
    destruct Hcase as (Hc & -> & Hlook & Hnone & Hp).
    pose proof (lookup_holder_code w c Hwf) as Hcode.
    unfold lacks_pendingHolders in Hcode. rewrite Hlook in Hcode.
    destruct (Hcode eq_refl) as [? | Hcode']; [done |]. clear Hcode.
    assert (Hfresh : mutex_of w c = fresh_mutex).
    { unfold mutex_of. by rewrite decide_False, Hnone. }
    rewrite Hfresh. rewrite bool_decide_eq_false_2 by done. simpl.
    rewrite Hp.
    assert (Hgoal : forall s,
      s = SUndefined \/ (exists own, s = SHolderWith own /\ c = "currentHolder") ->
      (s = SUndefined \/ s = SHolderWith None) ->
      let w' := set_mutexes (<[c := s]> (mutexes w)) w in
      WF w' /\
      (forall c', mutex_of w' c' =
         if decide (c' = c) then fresh_mutex else mutex_of w c') /\
      (forall c', c' ≠ c -> mutexes w' !! c' = mutexes w !! c') /\
      (c ≠ "__proto__" -> is_Some (mutexes w' !! c))).
    { intros s Hs Hs' w'. destruct (store_other _ _ Hwf c s Hs) as [Hwf' Hv].
      split; [exact Hwf' |]. split.
      - intros c'. rewrite !mutex_of_eq. simpl.
        case_decide as E1; [by rewrite decide_False by congruence |].
        rewrite Hv. case_decide; [| done]. by destruct Hs' as [-> | ->].
      - split.
        + intros c' Hc'. simpl. by rewrite lookup_insert_ne.
        + intros _. simpl. rewrite lookup_insert_eq. eauto. }
    destruct (not_held_by (Some h) holderId) eqn:Hheld; simpl;
      rewrite store_mutex_ne by done.
    + destruct (Hgoal SUndefined) as (? & ? & ? & ?); [by left | by left |].
      rewrite app_nil_r. done.
    + destruct (Hgoal (SHolderWith None)) as (? & ? & ? & ?); [by eauto | by right |].
      rewrite app_nil_r. done.
  - (* a holder object with a [currentHolder] of its own *)
    destruct Hcase as (Hc & -> & Hlook & Hown).
    pose proof (lookup_holder_code w c Hwf) as Hcode.
    unfold lacks_pendingHolders in Hcode. rewrite Hlook in Hcode.
    destruct (Hcode eq_refl) as [? | Hcode']; [done |]. clear Hcode.
    assert (Hbare : mutex_of w c = bare_mutex own).
    { unfold mutex_of. by rewrite decide_False, Hown. }
    rewrite Hbare. rewrite bool_decide_eq_false_2 by done. simpl.
    assert (Hgoal : forall s,
      s = SUndefined \/ (exists own, s = SHolderWith own /\ c = "currentHolder") ->
      (s = SUndefined \/ s = SHolderWith None) ->
      let w' := set_mutexes (<[c := s]> (mutexes w)) w in
      WF w' /\
      (forall c', mutex_of w' c' =
         if decide (c' = c) then fresh_mutex else mutex_of w c') /\
      (forall c', c' ≠ c -> mutexes w' !! c' = mutexes w !! c') /\
      (c ≠ "__proto__" -> is_Some (mutexes w' !! c))).
    { intros s Hs Hs' w'. destruct (store_other _ _ Hwf c s Hs) as [Hwf' Hv].
      split; [exact Hwf' |]. split.
      - intros c'. rewrite !mutex_of_eq. simpl.
        case_decide as E1; [by rewrite decide_False by congruence |].
        rewrite Hv. case_decide; [| done]. by destruct Hs' as [-> | ->].
      - split.
        + intros c' Hc'. simpl. by rewrite lookup_insert_ne.
        + intros _. simpl. rewrite lookup_insert_eq. eauto. }
    unfold released. simpl.
    destruct (not_held_by own holderId) eqn:Hheld; simpl;
      rewrite store_mutex_ne by done.
    + destruct (Hgoal SUndefined) as (? & ? & ? & ?); [by left | by left |].
      rewrite app_nil_r. done.
    + destruct (Hgoal (SHolderWith None)) as (? & ? & ? & ?); [by eauto | by right |].
      rewrite app_nil_r. done.
Qed.

(** The callback that [requestMutex] passes to [updateMutex]. *)
Local Abbreviation request_update holder :=
  (fun (mutex : Slot) (w : World) =>
     match currentHolder_of w mutex with
     | None =>
         let '(mutex', w1) :=
           match mutex with
           | SObject r =>
               (SObject r,
                assign r {| currentHolder := Some holder;
                            pendingHolders := pendingHolders (deref w r) |} w)
           | other => assign_currentHolder other (Some holder) w
           end in
         let '(_, w2) := setTimeout (RunOnAcquired holder) 0 w1 in
         (Some mutex', w2)
     | Some current =>
         match mutex with
         | SObject r =>
             let w1 := assign r {| currentHolder := Some current;
                                   pendingHolders :=
                                     pendingHolders (deref w r) ++ [holder] |} w in
             if gt (priority holder) (priority current)
             then let '(_, w2) := setTimeout (NotifySupersession r) 0 w1 in
                  (Some (SObject r), w2)
             else (Some (SObject r), w1)
         | _ => (None, w)
         end
     end).

(** The timer that the callback arms. *)
Local Abbreviation request_notice holder w c r :=
  (match currentHolder (mutex_of w c) with
   | None =>
       [{| timerId := next_timer_id w; due := Nat.add (now w) 0;
           task := RunOnAcquired holder |}]
   | Some current =>
       if gt (priority holder) (priority current)
       then [{| timerId := next_timer_id w; due := Nat.add (now w) 0;
                task := NotifySupersession r |}]
       else []
   end).

Lemma request_update_spec (c : string) (holder : MutexHolder) (w : World) :
  WF w ->
  let result := updateMutex c (request_update holder) w in
  let w' := result.2 in
  result.1 = (if request_throws w c then ThrewTypeError else Returned) /\
  WF w' /\
  (forall c', mutex_of w' c' =
     if decide (c' = c) then requested holder w c else mutex_of w c') /\
  (exists r,
     (request_throws w c = false -> is_Some (currentHolder (mutex_of w c)) ->
      mutexes w' !! c = Some (SObject r)) /\
     timers w' = timers w ++
       if request_throws w c then [] else request_notice holder w c r) /\
  promises w' = promises w /\ log w' = log w /\
  last_mutex_holder_id w' = last_mutex_holder_id w /\ now w' = now w /\
  (forall c', c' ≠ c -> mutexes w' !! c' = mutexes w !! c') /\
  (request_throws w c = true -> mutexes w' = mutexes w) /\
  (request_throws w c = false -> c ≠ "__proto__" -> is_Some (mutexes w' !! c)).
Proof.
  intros Hwf. unfold updateMutex, requested.
  pose proof (ensureMutex_cases c w Hwf) as H.
  destruct (ensureMutex c w) as [mutex w1]. simpl in H.
  destruct H as (Hwf1 & Hframe & Hview & Hother & _ & Hcase).
  injection Hframe as Hcnt Hprom Hnow Htim Hnext Hlog Hproto.
  destruct mutex as [|r| | |h|own]; try done.
  - (* a mutex object *)
    destruct Hcase as (Hc & Hr & Hlacks).
    rewrite (request_throws_false _ _ Hlacks).
    assert (Hderef : deref w1 r = mutex_of w c).
    { rewrite <- Hview. unfold mutex_of. by rewrite decide_False, Hr. }
    unfold currentHolder_of. rewrite Hderef. unfold enqueued.
    destruct (currentHolder (mutex_of w c)) as [cur|] eqn:Hcur; simpl;
      [destruct (gt _ (priority cur)) eqn:Hgt; simpl |];
      rewrite store_mutex_ne by done;
      match goal with |- context [assign r ?m _] =>
        destruct (store_in_place _ _ Hwf1 c r m Hr) as [Hwf' Hv] end;
      (split; [done |]); (split; [exact Hwf' |]);
      (split;
        [intros c'; rewrite !mutex_of_eq; simpl; rewrite Hproto;
         case_decide as E1; [by rewrite decide_False by congruence |];
         rewrite Hv; case_decide; [done |];
         specialize (Hview c');
         rewrite !mutex_of_eq, !decide_False in Hview by done; exact Hview |]);
      (split;
        [exists r; simpl; split; [intros _ _; apply lookup_insert_eq |];
         by rewrite ?Htim, ?Hnext, ?Hnow, ?app_nil_r |]);
      simpl; repeat split; try done;
      try (intros c' Hc'; rewrite lookup_insert_ne by done; by apply Hother);
      try (intros _ _; rewrite lookup_insert_eq; eauto).
  - (* Object.prototype *)
    destruct Hcase as (-> & -> & Hlook).
    unfold request_throws, lacks_pendingHolders. rewrite Hlook. simpl.
    rewrite mutex_of_prototype. simpl.
    destruct (prototype_currentHolder w) as [cur|] eqn:Hcur; simpl.
    + try rewrite bool_decide_eq_true_2 by eauto. simpl.
      split; [done |]. split; [exact Hwf |]. split.
      { intros c'. case_decide; [subst c'; by rewrite mutex_of_prototype, Hcur | done]. }
      split; [exists 0%nat; split; [done | by rewrite app_nil_r] |]. done.
    + try rewrite bool_decide_eq_false_2 by (by intros [? ?]). simpl.
      rewrite store_mutex_prototype.
      split; [done |]. split; [exact Hwf |]. split.
      { intros c'. rewrite !mutex_of_eq. simpl. rewrite Hcur. by case_decide. }
      split; [exists 0%nat; split; [by intros _ [? ?] | done] |].
      simpl. repeat split; try done.
  - (* a holder object, inherited *)
    destruct Hcase as (Hc & -> & Hlook & Hnone & Hp).
    unfold request_throws, lacks_pendingHolders. rewrite Hlook. simpl. rewrite Hp.
    try rewrite bool_decide_eq_true_2 by eauto. simpl.
    split; [done |]. split; [exact Hwf |]. split.
    { intros c'. by case_decide; subst. }
    split; [exists 0%nat; split; [done | by rewrite app_nil_r] |]. done.
  - (* a holder object with a [currentHolder] of its own *)
    destruct Hcase as (Hc & -> & Hlook & Hown).
    assert (Hbare : mutex_of w c = bare_mutex own).
    { unfold mutex_of. by rewrite decide_False, Hown. }
    unfold request_throws, lacks_pendingHolders. rewrite Hlook, Hbare. simpl.
    destruct own as [cur|]; simpl.
    + try rewrite bool_decide_eq_true_2 by eauto. simpl.
      split; [done |]. split; [exact Hwf |]. split.
      { intros c'. by case_decide; subst. }
      split; [exists 0%nat; split; [done | by rewrite app_nil_r] |]. done.
    + try rewrite bool_decide_eq_false_2 by (by intros [? ?]). simpl.
      rewrite store_mutex_ne by done.
      pose proof (lookup_holder_code w c Hwf) as Hcode.
      unfold lacks_pendingHolders in Hcode. rewrite Hlook in Hcode.
      destruct (Hcode eq_refl) as [? | Hcode']; [done |]. clear Hcode.
      destruct (store_other _ _ Hwf c (SHolderWith (Some holder))) as [Hwf' Hv];
        [by eauto |].
      split; [done |]. split; [exact Hwf' |]. split.
      { intros c'. rewrite !mutex_of_eq. simpl.
        case_decide as E1; [by rewrite decide_False by congruence |].
        rewrite Hv. by case_decide. }
      split; [exists 0%nat; split; [by intros _ [? ?] | done] |].
      simpl. repeat split; try done.
      * intros c' Hc'. by rewrite lookup_insert_ne.
      * intros _ _. rewrite lookup_insert_eq. eauto.
Qed.

Lemma requestMutex_spec (c : string) (config : Config) (w : World) :
  WF w ->
  let w' := (requestMutex c config w).2 in
  let holder := request_holder w c config in
  (requestMutex c config w).1 = uniqueId holder /\
  WF w' /\
  (forall c', mutex_of w' c' =
     if decide (c' = c) then requested holder w c else mutex_of w c') /\
  (exists r,
     (request_throws w c = false -> is_Some (currentHolder (mutex_of w c)) ->
      mutexes w' !! c = Some (SObject r)) /\
     timers w' = timers w ++ timeout_timers w c config ++
       if request_throws w c then [] else notify_timers w c config r) /\
  promises w' =
    <[uniqueId holder :=
        if request_throws w c then Rejected (VError "TypeError") else Pending]>
      (promises w) /\
  log w' = log w /\
  last_mutex_holder_id w' = uniqueId holder /\ now w' = now w /\
  (forall c', c' ≠ c -> mutexes w' !! c' = mutexes w !! c') /\
  (request_throws w c = true -> mutexes w' = mutexes w) /\
  (request_throws w c = false -> c ≠ "__proto__" -> is_Some (mutexes w' !! c)).
Proof.
  intros Hwf. unfold requestMutex, notify_timers, timeout_timers, request_holder.
  simpl.
  set (id := S (last_mutex_holder_id w)).
  set (w0 := set_promises _ _).
  assert (Hwf0 : WF w0) by exact Hwf.
  assert (Hfinish : forall (wp : World) (h : MutexHolder) (extra : list Timer),
    WF wp -> uniqueId h = id ->
    mutexes wp = mutexes w -> heap wp = heap w ->
    prototype_currentHolder wp = prototype_currentHolder w ->
    promises wp = <[id := Pending]> (promises w) ->
    log wp = log w -> last_mutex_holder_id wp = id -> now wp = now w ->
    timers wp = timers w ++ extra ->
    next_timer_id wp = (next_timer_id w + length extra)%nat ->
    let result := updateMutex c (request_update h) wp in
    let w' := match result.1 with
              | Returned => result.2
              | ThrewTypeError => reject id (VError "TypeError") result.2
              end in
    WF w' /\
    (forall c', mutex_of w' c' =
       if decide (c' = c) then requested h w c else mutex_of w c') /\
    (exists r,
       (request_throws w c = false -> is_Some (currentHolder (mutex_of w c)) ->
        mutexes w' !! c = Some (SObject r)) /\
       timers w' = timers w ++ extra ++
         if request_throws w c then []
         else match currentHolder (mutex_of w c) with
              | None =>
                  [{| timerId := (next_timer_id w + length extra)%nat;
                      due := (now w + 0)%nat; task := RunOnAcquired h |}]
              | Some current =>
                  if gt (priority h) (priority current)
                  then [{| timerId := (next_timer_id w + length extra)%nat;
                           due := (now w + 0)%nat; task := NotifySupersession r |}]
                  else []
              end) /\
    promises w' =
      <[id := if request_throws w c then Rejected (VError "TypeError") else Pending]>
        (promises w) /\
    log w' = log w /\
    last_mutex_holder_id w' = id /\ now w' = now w /\
    (forall c', c' ≠ c -> mutexes w' !! c' = mutexes w !! c') /\
    (request_throws w c = true -> mutexes w' = mutexes w) /\
    (request_throws w c = false -> c ≠ "__proto__" -> is_Some (mutexes w' !! c))).
  { intros wp h extra Hwfp Hh Hm Hhp Hpp Hprom Hlog Hcnt Hnow Htim Hnext result w'.
    destruct (request_update_spec c h wp Hwfp)
      as (Hres & Hwf' & Hview & (r & Hr & Htim') & Hprom' & Hlog' & Hcnt' & Hnow'
          & Hother & Hsame & Hsome).
    fold result in Hres, Hwf', Hview, Hr, Htim', Hprom', Hlog', Hcnt', Hnow',
      Hother, Hsame, Hsome.
    destruct (request_throws_ext w wp c Hm Hhp Hpp) as [Hthrows _].
    rewrite Hthrows in *.
    assert (Hviewp : forall c', mutex_of wp c' = mutex_of w c').
    { intros c'. by apply mutex_of_ext. }
    assert (Hreq : requested h wp c = requested h w c).
    { unfold requested. by rewrite Hthrows, Hviewp. }
    subst w'. rewrite Hres.
    destruct (request_throws w c) eqn:Hthr.
    - (* the request throws *)
      assert (Hrej : forall w2 : World,
        promises w2 !! id = Some Pending ->
        mutexes (reject id (VError "TypeError") w2) = mutexes w2 /\
        heap (reject id (VError "TypeError") w2) = heap w2 /\
        prototype_currentHolder (reject id (VError "TypeError") w2)
          = prototype_currentHolder w2 /\
        timers (reject id (VError "TypeError") w2) = timers w2 /\
        log (reject id (VError "TypeError") w2) = log w2 /\
        last_mutex_holder_id (reject id (VError "TypeError") w2)
          = last_mutex_holder_id w2 /\
        now (reject id (VError "TypeError") w2) = now w2 /\
        promises (reject id (VError "TypeError") w2) =
          <[id := Rejected (VError "TypeError")]> (promises w2)).
      { intros w2 Hp. unfold reject. by rewrite Hp. }
      destruct (Hrej result.2) as (Hm2 & Hh2 & Hp2 & Ht2 & Hl2 & Hc2 & Hn2 & Hpr2).
      { rewrite Hprom', Hprom. apply lookup_insert_eq. }
      split; [unfold WF; rewrite Hm2, Hh2; exact Hwf' |]. split.
      { intros c'. rewrite (mutex_of_ext result.2) by done.
        rewrite Hview, Hreq. case_decide; [done | apply Hviewp]. }
      split.
      { exists r. split; [done |]. rewrite Ht2, Htim', Htim. by rewrite !app_nil_r. }
      rewrite Hpr2, Hprom', Hprom, insert_insert_eq, Hl2, Hlog', Hlog, Hc2, Hcnt', Hcnt,
        Hn2, Hnow', Hnow, Hm2.
      repeat split; try done;
        try (intros c' Hc'; rewrite Hother by done; by rewrite Hm);
        try (intros _; by rewrite Hsame).
    - (* the request is registered *)
      split; [exact Hwf' |]. split.
      { intros c'. rewrite Hview, Hreq. case_decide; [done | apply Hviewp]. }
      split.
      { exists r. split.
        - intros _ Hcur. apply Hr; [done |]. by rewrite Hviewp.
        - rewrite Htim', Htim, Hviewp, Hnext, Hnow, <- app_assoc. done. }
      rewrite Hprom', Hprom, Hlog', Hlog, Hcnt', Hcnt, Hnow', Hnow.
      repeat split; try done;
        try (intros c' Hc'; rewrite Hother by done; by rewrite Hm);
        try (intros _ Hc; by apply Hsome). }
  destruct (positive_delay (cfg_timeoutDelay config)) as [d|] eqn:Hd; simpl.
  - set (w1 := set_next_timer_id _ _).
    match goal with |- context [updateMutex c ?f w1] =>
      destruct (Hfinish w1
        {| uniqueId := id;
           priority := default PRIORITY_AVERAGE (cfg_priority config);
           onAcquired := {| cancelTimeoutId := Some (next_timer_id w);
                            acquiredCode := c |};
           onSupersessionRequest := default noop (cfg_onSupersessionRequest config) |}
        [{| timerId := next_timer_id w; due := (now w + Z.to_nat d)%nat;
            task := TimeoutExpired c id |}])
        as (Hwf' & Hview & Hr & Hrest); try done end.
    { simpl. lia. }
    simpl in *.
    destruct (updateMutex c _ w1) as [[] w2]; simpl in *; done.
  - match goal with |- context [updateMutex c ?f w0] =>
      destruct (Hfinish w0
        {| uniqueId := id;
           priority := default PRIORITY_AVERAGE (cfg_priority config);
           onAcquired := {| cancelTimeoutId := None; acquiredCode := c |};
           onSupersessionRequest := default noop (cfg_onSupersessionRequest config) |}
        [])
        as (Hwf' & Hview & Hr & Hrest); try done end.
    { simpl. by rewrite app_nil_r. }
    simpl in *. clear Hfinish. rewrite ?Nat.add_0_r in *.
    destruct (updateMutex c _ w0) as [[] w2]; simpl in *; done.
Qed.

(** The callback that the timeout handler passes to [updateMutex]. *)
Local Abbreviation timeout_update id :=
  (fun (mutex : Slot) (w : World) =>
     match mutex with
     | SObject r =>
         let '(r', w') :=
           alloc {| currentHolder := currentHolder (deref w r);
                    pendingHolders :=
                      filter (fun it => id ≠ uniqueId it)
                             (pendingHolders (deref w r)) |} w in
         (Some (SObject r'), w')
     | _ => (None, w)
     end).

Lemma timeoutHandler_spec (c : string) (id : nat) (w : World) :
  WF w ->
  let w' := timeoutHandler c id w in
  WF w' /\
  (forall c', mutex_of w' c' =
     if decide (c' = c) then expired id (mutex_of w c) else mutex_of w c') /\
  timers w' = timers w /\
  promises w' =
    (if lacks_pendingHolders w c then promises w
     else match promises w !! id with
          | Some Pending => <[id := Rejected VUndefined]> (promises w)
          | _ => promises w
          end) /\
  log w' = (if lacks_pendingHolders w c then log w ++ [UncaughtTypeError] else log w) /\
  last_mutex_holder_id w' = last_mutex_holder_id w /\ now w' = now w /\
  (forall c', c' ≠ c -> mutexes w' !! c' = mutexes w !! c') /\
  (lacks_pendingHolders w c = true -> mutexes w' = mutexes w).
Proof.
  intros Hwf. unfold timeoutHandler, updateMutex.
  pose proof (ensureMutex_cases c w Hwf) as H.
  destruct (ensureMutex c w) as [mutex w1]. simpl in H.
  destruct H as (Hwf1 & Hframe & Hview & Hother & _ & Hcase).
  injection Hframe as Hcnt Hprom Hnow Htim Hnext Hlog Hproto.
  assert (Hpending : forall m : Mutex, pendingHolders m = [] -> expired id m = m).
  { intros [cur pend]. simpl. intros ->. reflexivity. }
  destruct mutex as [|r| | |h|own]; try done.
  - (* a mutex object *)
    destruct Hcase as (Hc & Hr & ->).
    assert (Hderef : deref w1 r = mutex_of w c).
    { rewrite <- Hview. unfold mutex_of. by rewrite decide_False, Hr. }
    rewrite Hderef. simpl. rewrite store_mutex_ne by done. simpl.
    destruct (store_fresh _ _ Hwf1 c (expired id (mutex_of w c))) as [Hwf' Hv].
    assert (Hrej : forall w2 : World,
      mutexes (reject id VUndefined w2) = mutexes w2 /\
      heap (reject id VUndefined w2) = heap w2 /\
      prototype_currentHolder (reject id VUndefined w2) = prototype_currentHolder w2 /\
      timers (reject id VUndefined w2) = timers w2 /\
      log (reject id VUndefined w2) = log w2 /\
      last_mutex_holder_id (reject id VUndefined w2) = last_mutex_holder_id w2 /\
      now (reject id VUndefined w2) = now w2 /\
      promises (reject id VUndefined w2) =
        match promises w2 !! id with
        | Some Pending => <[id := Rejected VUndefined]> (promises w2)
        | _ => promises w2
        end).
    { intros w2. unfold reject. by destruct (promises w2 !! id) as [[]|]. }
    match goal with |- context [reject id VUndefined ?w2] =>
      set (w3 := w2) in *;
      destruct (Hrej w3) as (Hm & Hh & Hp & Ht & Hl & Hn & Hno & Hpr) end.
    unfold WF. rewrite Hm, Hh, Ht, Hl, Hn, Hno, Hpr.
    split; [exact Hwf' |]. split.
    { intros c'. rewrite (mutex_of_ext w3) by done.
      rewrite (mutex_of_eq w3), (mutex_of_eq w c'). subst w3. simpl. rewrite Hproto.
      case_decide as E1; [by rewrite decide_False by congruence |].
      unfold expired in Hv. rewrite Hv. case_decide; [done |].
      specialize (Hview c'). rewrite !mutex_of_eq, !decide_False in Hview by done.
      exact Hview. }
    subst w3. simpl. rewrite Hprom. repeat split; try done.
    intros c' Hc'. rewrite lookup_insert_ne by done. by apply Hother.
  - (* Object.prototype *)
    destruct Hcase as (-> & -> & Hlook).
    unfold lacks_pendingHolders. rewrite Hlook. simpl.
    split; [exact Hwf |]. split; [| done].
    intros c'. case_decide; [subst c' | done].
    by rewrite Hpending by (by rewrite mutex_of_prototype).
  - (* a holder object, inherited *)
    destruct Hcase as (Hc & -> & Hlook & Hnone & Hp).
    unfold lacks_pendingHolders. rewrite Hlook. simpl.
    split; [exact Hwf |]. split; [| done].
    intros c'. case_decide; [subst c' | done].
    rewrite Hpending; [done |]. unfold mutex_of. by rewrite decide_False, Hnone.
  - (* a holder object with a [currentHolder] of its own *)
    destruct Hcase as (Hc & -> & Hlook & Hown).
    unfold lacks_pendingHolders. rewrite Hlook. simpl.
    split; [exact Hwf |]. split; [| done].
    intros c'. case_decide; [subst c' | done].
    rewrite Hpending; [done |]. unfold mutex_of. by rewrite decide_False, Hown.
Qed.

Lemma callOnAcquired_spec (h : MutexHolder) (w : World) :
  let w' := callOnAcquired h w in
  mutexes w' = mutexes w /\ heap w' = heap w /\
  prototype_currentHolder w' = prototype_currentHolder w /\ log w' = log w /\
  last_mutex_holder_id w' = last_mutex_holder_id w /\
  timers w' ⊆ timers w /\
  promises w' =
    match promises w !! uniqueId h with
    | Some Pending =>
        <[uniqueId h := Fulfilled (acquiredCode (onAcquired h)) (uniqueId h)]> (promises w)
    | _ => promises w
    end.
Proof.
  unfold callOnAcquired, resolve.
  destruct (cancelTimeoutId (onAcquired h)) as [t|]; simpl.
  - destruct (promises w !! uniqueId h) as [[]|]; simpl;
      repeat split; try done; intros x Hx; by apply list_elem_of_filter in Hx as [_ ?].
  - destruct (promises w !! uniqueId h) as [[]|]; simpl; repeat split; done.
Qed.

(** ** Holders of a mutex *)

Lemma pending_in_holders (m : Mutex) (h : MutexHolder) :
  h ∈ pendingHolders m -> h ∈ holders m.
Proof. intros H. apply elem_of_app. by right. Qed.

Lemma ids_filter_NoDup (P : MutexHolder -> Prop) `{!forall x, Decision (P x)}
    (l : list MutexHolder) :
  NoDup (uniqueId <$> l) -> NoDup (uniqueId <$> filter P l).
Proof.
  intros Hnd. eapply sublist_NoDup; [exact Hnd |].
  apply fmap_sublist, sublist_filter.
Qed.

Lemma maxBy_elem_of (l : list MutexHolder) (n : MutexHolder) :
  maxBy l priority = Some n -> n ∈ l.
Proof.
  intros (l1 & l2 & -> & _)%maxBy_Some.
  apply elem_of_app. right. apply elem_of_cons. by left.
Qed.

Lemma promote_pending (m : Mutex) (x : MutexHolder) :
  x ∈ pendingHolders (promote m) -> x ∈ pendingHolders m.
Proof.
  unfold promote. destruct (maxBy _ _) as [n|]; simpl; [| done].
  by intros [_ ?]%list_elem_of_filter.
Qed.

Lemma promote_holders (m : Mutex) (x : MutexHolder) :
  x ∈ holders (promote m) -> x ∈ pendingHolders m.
Proof.
  unfold holders. intros [Hx | Hx]%elem_of_app; [| by apply promote_pending].
  unfold promote in Hx. destruct (maxBy _ _) as [n|] eqn:E; simpl in Hx.
  - apply list_elem_of_singleton in Hx as ->. by apply maxBy_elem_of.
  - by apply elem_of_nil in Hx.
Qed.

Lemma promote_NoDup (m : Mutex) :
  NoDup (uniqueId <$> pendingHolders m) ->
  NoDup (uniqueId <$> holders (promote m)).
Proof.
  intros Hnd. unfold promote, holders.
  destruct (maxBy _ _) as [n|] eqn:E; simpl; [| done].
  apply NoDup_cons. split; [| by apply ids_filter_NoDup].
  intros (x & Hid & [Hne _]%list_elem_of_filter)%list_elem_of_fmap. congruence.
Qed.

Lemma promote_next (m : Mutex) (n x : MutexHolder) :
  maxBy (pendingHolders m) priority = Some n ->
  x ∈ pendingHolders (promote m) -> uniqueId x ≠ uniqueId n.
Proof.
  intros E. unfold promote. rewrite E. simpl.
  by intros [? _]%list_elem_of_filter.
Qed.

Lemma enqueued_holders (h : MutexHolder) (m : Mutex) (x : MutexHolder) :
  x ∈ holders (enqueued h m) <-> x = h \/ x ∈ holders m.
Proof.
  unfold enqueued, holders. destruct (currentHolder m) as [cur|]; simpl.
  - rewrite !elem_of_cons, elem_of_app, list_elem_of_singleton. tauto.
  - rewrite elem_of_cons. tauto.
Qed.

Lemma enqueued_pending (h : MutexHolder) (m : Mutex) (x : MutexHolder) :
  x ∈ pendingHolders (enqueued h m) ->
  (x = h /\ is_Some (currentHolder m)) \/ x ∈ pendingHolders m.
Proof.
  unfold enqueued. destruct (currentHolder m) as [cur|]; simpl; [| by right].
  rewrite elem_of_app, list_elem_of_singleton. intros [? | ->]; [by right |].
  left. eauto.
Qed.

Lemma enqueued_NoDup (h : MutexHolder) (m : Mutex) :
  NoDup (uniqueId <$> holders m) ->
  (forall x, x ∈ holders m -> uniqueId x ≠ uniqueId h) ->
  NoDup (uniqueId <$> holders (enqueued h m)).
Proof.
  intros Hnd Hfresh.
  assert (Hnotin : uniqueId h ∉ uniqueId <$> holders m).
  { intros (x & Hid & Hx)%list_elem_of_fmap. by apply (Hfresh x). }
  unfold enqueued, holders in *. destruct (currentHolder m) as [cur|]; simpl in *.
  - rewrite fmap_app. simpl.
    apply NoDup_cons in Hnd as [Hcur Hnd]. apply NoDup_cons. split.
    + rewrite elem_of_app, list_elem_of_singleton. intros [?|Heq]; [done |].
      apply Hnotin. rewrite Heq. apply elem_of_cons. by left.
    + apply NoDup_app. split; [done |]. split; [| apply NoDup_singleton].
      intros y Hy ->%list_elem_of_singleton. apply Hnotin.
      apply elem_of_cons. by right.
  - apply NoDup_cons. done.
Qed.

Lemma expired_pending (id : nat) (m : Mutex) (x : MutexHolder) :
  x ∈ pendingHolders (expired id m) <-> id ≠ uniqueId x /\ x ∈ pendingHolders m.
Proof. unfold expired. simpl. by rewrite list_elem_of_filter. Qed.

Lemma expired_holders (id : nat) (m : Mutex) (x : MutexHolder) :
  x ∈ holders (expired id m) -> x ∈ holders m.
Proof.
  unfold holders, expired. simpl. rewrite !elem_of_app.
  intros [?|[_ ?]%list_elem_of_filter]; tauto.
Qed.

Lemma expired_NoDup (id : nat) (m : Mutex) :
  NoDup (uniqueId <$> holders m) -> NoDup (uniqueId <$> holders (expired id m)).
Proof.
  intros Hnd. eapply sublist_NoDup; [exact Hnd |]. apply fmap_sublist.
  unfold holders, expired. simpl. apply sublist_app; [done | apply sublist_filter].
Qed.

Lemma released_holders (m : Mutex) (id : nat) (x : MutexHolder) :
  x ∈ holders (released m id) -> x ∈ pendingHolders m.
Proof.
  unfold released. destruct (not_held_by _ id); [| apply promote_holders].
  by intros ?%elem_of_nil.
Qed.

Lemma released_pending (m : Mutex) (id : nat) (x : MutexHolder) :
  x ∈ pendingHolders (released m id) -> x ∈ pendingHolders m.
Proof. intros H. by eapply released_holders, pending_in_holders. Qed.

Lemma released_NoDup (m : Mutex) (id : nat) :
  NoDup (uniqueId <$> holders m) -> NoDup (uniqueId <$> holders (released m id)).
Proof.
  intros Hnd. unfold released. destruct (not_held_by _ id); [constructor |].
  apply promote_NoDup. unfold holders in Hnd. rewrite fmap_app in Hnd.
  by apply NoDup_app in Hnd as (_ & _ & ?).
Qed.

Lemma requested_holders (h : MutexHolder) (w : World) (c : string) (x : MutexHolder) :
  x ∈ holders (requested h w c) -> x = h \/ x ∈ holders (mutex_of w c).
Proof.
  unfold requested. destruct (request_throws w c); [by right |].
  by intros ?%enqueued_holders.
Qed.

Lemma requested_pending (h : MutexHolder) (w : World) (c : string) (x : MutexHolder) :
  x ∈ pendingHolders (requested h w c) ->
  (x = h /\ request_throws w c = false /\ is_Some (currentHolder (mutex_of w c))) \/
  x ∈ pendingHolders (mutex_of w c).
Proof.
  unfold requested. destruct (request_throws w c); [by right |].
  intros [[-> ?] | ?]%enqueued_pending; [by left | by right].
Qed.

Lemma requested_NoDup (h : MutexHolder) (w : World) (c : string) :
  NoDup (uniqueId <$> holders (mutex_of w c)) ->
  (forall x, x ∈ holders (mutex_of w c) -> uniqueId x ≠ uniqueId h) ->
  NoDup (uniqueId <$> holders (requested h w c)).
Proof.
  unfold requested. destruct (request_throws w c); [done |]. apply enqueued_NoDup.
Qed.

Lemma released_at_holders (w : World) (c : string) (id : nat) (x : MutexHolder) :
  x ∈ holders (released_at w c id) -> x ∈ holders (mutex_of w c).
Proof.
  unfold released_at. destruct (_ && _); [done |].
  intros Hx. by eapply pending_in_holders, released_holders.
Qed.

Lemma released_at_pending (w : World) (c : string) (id : nat) (x : MutexHolder) :
  x ∈ pendingHolders (released_at w c id) -> x ∈ pendingHolders (mutex_of w c).
Proof.
  unfold released_at. destruct (_ && _); [done |]. apply released_pending.
Qed.

Lemma released_at_NoDup (w : World) (c : string) (id : nat) :
  NoDup (uniqueId <$> holders (mutex_of w c)) ->
  NoDup (uniqueId <$> holders (released_at w c id)).
Proof.
  unfold released_at. destruct (_ && _); [done |]. apply released_NoDup.
Qed.

(** A release by the current holder is an effective one, under any code. *)
Lemma released_at_current (w : World) (c : string) (cur : MutexHolder) :
  currentHolder (mutex_of w c) = Some cur ->
  released_at w c (uniqueId cur) = promote (mutex_of w c).
Proof.
  intros Hcur. unfold released_at, released, not_held_by. rewrite Hcur.
  rewrite Nat.eqb_refl. simpl. by rewrite andb_false_r.
Qed.

(** ** The invariant of the mutex registry *)

Lemma mutex_of_initial (c : string) : mutex_of initial_world c = fresh_mutex.
Proof. unfold mutex_of. simpl. rewrite lookup_empty. by case_decide. Qed.

Lemma Inv_initial : Inv initial_world.
Proof.
  split.
  - split; [intros c r | intros c r0]; simpl; by rewrite lookup_empty.
  - intros c h. rewrite mutex_of_initial. by intros ?%elem_of_nil.
  - intros c. rewrite mutex_of_initial. constructor.
  - intros c1 c2 h1 h2. rewrite mutex_of_initial. by intros ?%elem_of_nil.
  - intros c h. rewrite mutex_of_initial. by intros ?%elem_of_nil.
  - intros t. simpl. by intros ?%elem_of_nil.
Qed.

Lemma task_ok_shrink (w w' : World) (t : Task) :
  (last_mutex_holder_id w <= last_mutex_holder_id w')%nat ->
  (forall c x, x ∈ pendingHolders (mutex_of w' c) -> x ∈ pendingHolders (mutex_of w c)) ->
  task_ok w t -> task_ok w' t.
Proof.
  intros Hcnt Hpend. destruct t as [h|r|c id]; simpl; [| done |].
  - intros [Hle Hne]. split; [lia |]. intros c x Hx. eapply Hne, Hpend, Hx.
  - intros [Hle Hc]. split; [lia |]. intros c' x Hx. eapply Hc, Hpend, Hx.
Qed.

(** Steps that only remove holders (or move one from pending to current)
    keep the invariant, provided the timers they arm are sound. *)
Lemma Inv_shrink (w w' : World) :
  Inv w -> WF w' ->
  last_mutex_holder_id w' = last_mutex_holder_id w ->
  (forall c x, x ∈ holders (mutex_of w' c) -> x ∈ holders (mutex_of w c)) ->
  (forall c x, x ∈ pendingHolders (mutex_of w' c) -> x ∈ pendingHolders (mutex_of w c)) ->
  (forall c, NoDup (uniqueId <$> holders (mutex_of w' c))) ->
  (forall c x, x ∈ pendingHolders (mutex_of w' c) ->
     promises w' !! uniqueId x = Some Pending) ->
  (forall t, t ∈ timers w' -> t ∈ timers w \/ task_ok w' (task t)) ->
  Inv w'.
Proof.
  intros [Hwf Hids Hnd Hcodes Hpend Htim] Hwf' Hcnt Hh Hp Hnd' Hprom Htim'.
  split; try done.
  - intros c h Hin. rewrite Hcnt. eapply Hids, Hh, Hin.
  - intros c1 c2 h1 h2 H1 H2. eapply Hcodes; eauto.
  - intros t Ht. destruct (Htim' t Ht) as [Hold | Hok]; [| done].
    eapply task_ok_shrink; [| exact Hp | by apply Htim]. lia.
Qed.

Lemma Inv_releaseMutex (c : string) (holderId : nat) (w : World) :
  Inv w -> Inv (releaseMutex c holderId w).
Proof.
  intros HI.
  destruct (releaseMutex_spec c holderId w (inv_wf _ HI))
    as (Hwf' & Hview & Htim & Hprom & Hlog & Hcnt & Hnow & _).
  apply (Inv_shrink w); try done.
  - intros c' x. rewrite Hview. case_decide as E; [subst c' | done].
    apply released_at_holders.
  - intros c' x. rewrite Hview. case_decide as E; [subst c' | done].
    apply released_at_pending.
  - intros c'. rewrite Hview. case_decide as E; [subst c' | apply (inv_nodup _ HI)].
    apply released_at_NoDup, (inv_nodup _ HI).
  - intros c' x. rewrite Hview, Hprom. case_decide as E; [subst c' |].
    + intros Hx. eapply (inv_pending _ HI), released_at_pending, Hx.
    + apply (inv_pending _ HI).
  - intros t. rewrite Htim. intros [Ht | Ht]%elem_of_app; [by left | right].
    unfold release_timers in Ht.
    destruct (not_held_by (currentHolder (mutex_of w c)) holderId) eqn:Hheld;
      [by apply elem_of_nil in Ht |].
    destruct (maxBy _ _) as [n|] eqn:Hmax; [| by apply elem_of_nil in Ht].
    apply list_elem_of_singleton in Ht as ->. simpl.
    pose proof (maxBy_elem_of _ _ Hmax) as Hn. split.
    + rewrite Hcnt. by eapply (inv_ids _ HI), pending_in_holders.
    + intros c' x. rewrite Hview. unfold released_at, released. rewrite Hheld.
      rewrite andb_false_r.
      case_decide as E; [subst c' |].
      * by apply promote_next.
      * intros Hx Heq. apply E.
        eapply (inv_codes _ HI); [| | exact Heq]; by apply pending_in_holders.
Qed.

Lemma Inv_timeoutHandler (c : string) (id : nat) (w : World) :
  Inv w -> task_ok w (TimeoutExpired c id) -> Inv (timeoutHandler c id w).
Proof.
  intros HI [Hle Hcode].
  destruct (timeoutHandler_spec c id w (inv_wf _ HI))
    as (Hwf' & Hview & Htim & Hprom & Hlog & Hcnt & Hnow & _).
  apply (Inv_shrink w); try done.
  - intros c' x. rewrite Hview. case_decide as E; [subst c' | done].
    apply expired_holders.
  - intros c' x. rewrite Hview. case_decide as E; [subst c' | done].
    by intros [_ ?]%expired_pending.
  - intros c'. rewrite Hview. case_decide as E; [subst c' | apply (inv_nodup _ HI)].
    apply expired_NoDup, (inv_nodup _ HI).
  - intros c' x Hx.
    assert (Hne : uniqueId x ≠ id /\ x ∈ pendingHolders (mutex_of w c')).
    { rewrite Hview in Hx. case_decide as E; [subst c' |].
      - apply expired_pending in Hx as [? ?]. split; [congruence | done].
      - split; [| done]. intros Heq. by apply E, (Hcode c' x). }
    destruct Hne as [Hne Hx']. rewrite Hprom.
    pose proof (inv_pending _ HI _ _ Hx') as Hp.
    destruct (lacks_pendingHolders w c); [done |].
    destruct (promises w !! id) as [[]|]; try done.
    by rewrite lookup_insert_ne.
  - intros t. rewrite Htim. by left.
Qed.

Lemma Inv_clearTimeout (id : nat) (w : World) : Inv w -> Inv (clearTimeout id w).
Proof.
  intros HI. apply (Inv_shrink w); try done.
  - apply HI.
  - apply HI.
  - apply HI.
  - intros t [_ ?]%list_elem_of_filter. by left.
Qed.

Lemma Inv_run_task (t : Task) (w : World) :
  Inv w -> task_ok w t -> Inv (run_task t w).
Proof.
  intros HI Hok. destruct t as [h|r|c id]; simpl.
  - destruct Hok as [Hle Hne].
    destruct (callOnAcquired_spec h (add_log (OnAcquiredCalled (uniqueId h)) w))
      as (Hm & Hh & Hpr & Hl & Hcnt & Htim & Hprom). simpl in *.
    assert (Hview : forall c, mutex_of (callOnAcquired h (add_log (OnAcquiredCalled (uniqueId h)) w)) c = mutex_of w c).
    { intros c. by apply mutex_of_ext. }
    apply (Inv_shrink w); try done.
    + unfold WF. rewrite Hm, Hh. apply HI.
    + intros c x. by rewrite Hview.
    + intros c x. by rewrite Hview.
    + intros c. rewrite Hview. apply HI.
    + intros c x. rewrite Hview, Hprom. intros Hx.
      pose proof (inv_pending _ HI _ _ Hx) as Hp.
      destruct (promises w !! uniqueId h) as [[]|]; try done.
      rewrite lookup_insert_ne; [done |]. intros Heq. by apply (Hne c x).
    + intros t Ht. left. by apply Htim.
  - destruct (currentHolder (deref w r)); apply (Inv_shrink w); try done;
      try apply HI; by left.
  - by apply Inv_timeoutHandler.
Qed.

Lemma Inv_fire (t : Timer) (w : World) : Inv w -> t ∈ timers w -> Inv (fire t w).
Proof.
  intros HI Ht. apply Inv_run_task; [by apply Inv_clearTimeout |].
  eapply task_ok_shrink; [| | by apply (inv_timers _ HI)]; done.
Qed.

Lemma Inv_fireTimer (id : nat) (w : World) : Inv w -> Inv (fireTimer id w).
Proof.
  intros HI. unfold fireTimer.
  destruct (list_find _ _) as [[i t]|] eqn:E; [| done].
  destruct (due t <=? now w)%nat; [| done].
  apply list_find_Some in E as (Hi & _ & _).
  apply Inv_fire; [done |]. apply list_elem_of_lookup. eauto.
Qed.

Lemma Inv_requestMutex (c : string) (config : Config) (w : World) :
  Inv w -> Inv (requestMutex c config w).2.
Proof.
  intros HI.
  destruct (requestMutex_spec c config w (inv_wf _ HI))
    as (Hid & Hwf' & Hview & (r & Hr & Htim) & Hprom & Hlog & Hcnt & Hnow & _).
  set (h := request_holder w c config) in *.
  set (w' := (requestMutex c config w).2) in *.
  assert (Hnew : uniqueId h = S (last_mutex_holder_id w)) by done.
  assert (Hfresh : forall c' x, x ∈ holders (mutex_of w c') -> uniqueId x ≠ uniqueId h).
  { intros c' x Hx. pose proof (inv_ids _ HI _ _ Hx). lia. }
  assert (Hhold : forall c' x, x ∈ holders (mutex_of w' c') ->
            (x = h /\ c' = c) \/ x ∈ holders (mutex_of w c')).
  { intros c' x. rewrite Hview. case_decide as E; [subst c' | by right].
    intros [-> | ?]%requested_holders; [by left | by right]. }
  assert (Hpend : forall c' x, x ∈ pendingHolders (mutex_of w' c') ->
            (x = h /\ c' = c /\ request_throws w c = false /\
             is_Some (currentHolder (mutex_of w c))) \/
            x ∈ pendingHolders (mutex_of w c')).
  { intros c' x. rewrite Hview. case_decide as E; [subst c' | by right].
    intros [(-> & ? & ?) | ?]%requested_pending; [by left | by right]. }
  split.
  - exact Hwf'.
  - intros c' x [[-> _] | Hx]%Hhold; rewrite Hcnt; [lia |].
    pose proof (inv_ids _ HI _ _ Hx). lia.
  - intros c'. rewrite Hview. case_decide as E; [subst c' | apply HI].
    apply requested_NoDup; [apply HI | apply Hfresh].
  - intros c1 c2 h1 h2 [[-> ->] | H1]%Hhold [[-> ->] | H2]%Hhold Heq; try done.
    + exfalso. symmetry in Heq. by eapply Hfresh.
    + exfalso. by eapply Hfresh.
    + by eapply (inv_codes _ HI).
  - intros c' x [(-> & _ & Hthr & _) | Hx]%Hpend; rewrite Hprom.
    + rewrite Hthr. apply lookup_insert_eq.
    + rewrite lookup_insert_ne.
      * by eapply (inv_pending _ HI).
      * intros Heq. symmetry in Heq. revert Heq.
        by eapply Hfresh, pending_in_holders.
  - intros t. rewrite Htim. rewrite !elem_of_app. intros [Ht | [Ht | Ht]].
    + pose proof (inv_timers _ HI t Ht) as Hok.
      destruct (task t) as [h0|r0|c0 id0]; simpl in Hok |- *; [| done |].
      * destruct Hok as [Hle Hne]. split; [lia |].
        intros c' x [(-> & _ & _ & _) | Hx]%Hpend; [lia | by eapply Hne].
      * destruct Hok as [Hle Hc]. split; [lia |].
        intros c' x [(-> & _ & _ & _) | Hx]%Hpend; [lia | by eapply Hc].
    + unfold timeout_timers in Ht.
      destruct (positive_delay _); [| by apply elem_of_nil in Ht].
      apply list_elem_of_singleton in Ht as ->. simpl. split; [lia |].
      intros c' x [(-> & -> & _ & _) | Hx]%Hpend; [done |].
      intros Heq. pose proof (inv_ids _ HI _ _ (pending_in_holders _ _ Hx)). lia.
    + destruct (request_throws w c) eqn:Hthr; [by apply elem_of_nil in Ht |].
      unfold notify_timers in Ht.
      destruct (currentHolder (mutex_of w c)) as [cur|] eqn:Hcur.
      * destruct (gt _ _); [| by apply elem_of_nil in Ht].
        by apply list_elem_of_singleton in Ht as ->.
      * apply list_elem_of_singleton in Ht as ->. simpl. split; [lia |].
        intros c' x [(_ & _ & _ & [? ?]) | Hx]%Hpend; [done |].
        by eapply Hfresh, pending_in_holders.
Qed.

Lemma Inv_step (op : Op) (w : World) : Inv w -> Inv (step op w).
Proof.
  intros HI. destruct op as [c config|p|ms|id|]; simpl.
  - by apply Inv_requestMutex.
  - destruct (promises w !! p) as [[|c id|]|]; try done.
    by apply Inv_releaseMutex.
  - apply (Inv_shrink w); try done; try apply HI. by left.
  - by apply Inv_fireTimer.
  - unfold runNextTimer. destruct (earliest (timers w)); [| done].
    by apply Inv_fireTimer.
Qed.

Lemma run_snoc (ops : list Op) (op : Op) (w : World) :
  run (ops ++ [op]) w = step op (run ops w).
Proof. unfold run. by rewrite foldl_app. Qed.

Lemma Inv_run (ops : list Op) (w : World) : Inv w -> Inv (run ops w).
Proof.
  revert w. induction ops as [|op ops IH]; intros w HI; [done |].
  simpl. by apply IH, Inv_step.
Qed.

(** Every world reached from the initial one satisfies the invariant. *)
Lemma Inv_reachable (ops : list Op) : Inv (run ops initial_world).
Proof. apply Inv_run, Inv_initial. Qed.

(** ** Releasing and requesting, seen from the holders *)

Lemma filter_out_unique (l1 l2 : list MutexHolder) (n : MutexHolder) :
  NoDup (uniqueId <$> (l1 ++ n :: l2)) ->
  filter (fun it => uniqueId it ≠ uniqueId n) (l1 ++ n :: l2) = l1 ++ l2.
Proof.
  intros Hnd. rewrite fmap_app, fmap_cons in Hnd.
  apply NoDup_app in Hnd as (_ & Hl1 & [Hl2 _]%NoDup_cons).
  assert (Hkeep : forall l : list MutexHolder, uniqueId n ∉ uniqueId <$> l ->
            filter (fun it => uniqueId it ≠ uniqueId n) l = l).
  { induction l as [|x l IH]; [done |]. rewrite fmap_cons, not_elem_of_cons.
    intros [Hx Hl]. rewrite filter_cons_True by congruence. by rewrite IH. }
  rewrite filter_app, filter_cons_False by (intros H; by apply H).
  rewrite !Hkeep; [done | done |].
  intros Hin. apply (Hl1 _ Hin). apply elem_of_cons. by left.
Qed.

Lemma not_held_by_current (m : Mutex) (cur : MutexHolder) :
  currentHolder m = Some cur ->
  not_held_by (currentHolder m) (uniqueId cur) = false.
Proof. intros H. unfold not_held_by. rewrite H. by rewrite Nat.eqb_refl. Qed.

(** An effective release, on any well-formed mutex. *)
Lemma promote_stable (m : Mutex) :
  NoDup (uniqueId <$> pendingHolders m) ->
  match currentHolder (promote m) with
  | Some next =>
      exists l1 l2,
        pendingHolders m = l1 ++ next :: l2 /\
        Forall (fun x => priority x < priority next) l1 /\
        Forall (fun x => priority x <= priority next) l2 /\
        pendingHolders (promote m) = l1 ++ l2
  | None => pendingHolders m = [] /\ pendingHolders (promote m) = []
  end.
Proof.
  intros Hnd. unfold promote.
  destruct (maxBy (pendingHolders m) priority) as [n|] eqn:Hmax; simpl.
  - destruct (maxBy_Some _ _ _ Hmax) as (l1 & l2 & Hsplit & H1 & H2).
    exists l1, l2. repeat split; try done.
    rewrite Hsplit in Hnd |- *. by apply filter_out_unique.
  - apply maxBy_None in Hmax. done.
Qed.

(** ** Timers, seen from the holders and the promises *)

Lemma fire_spec (t : Timer) (w : World) :
  WF w ->
  let w' := fire t w in
  WF w' /\
  (forall c', mutex_of w' c' =
     match task t with
     | TimeoutExpired c id =>
         if decide (c' = c) then expired id (mutex_of w c) else mutex_of w c'
     | _ => mutex_of w c'
     end) /\
  timers w' ⊆ timers w /\
  last_mutex_holder_id w' = last_mutex_holder_id w /\
  promises w' =
    match task t with
    | RunOnAcquired h =>
        match promises w !! uniqueId h with
        | Some Pending =>
            <[uniqueId h := Fulfilled (acquiredCode (onAcquired h)) (uniqueId h)]>
              (promises w)
        | _ => promises w
        end
    | NotifySupersession _ => promises w
    | TimeoutExpired c id =>
        if lacks_pendingHolders w c then promises w
        else
          match promises w !! id with
          | Some Pending => <[id := Rejected VUndefined]> (promises w)
          | _ => promises w
          end
    end.
Proof.
  intros Hwf. unfold fire.
  set (w0 := clearTimeout (timerId t) w).
  assert (Hsub : timers w0 ⊆ timers w).
  { intros x Hx. by apply list_elem_of_filter in Hx as [_ ?]. }
  assert (Hwf0 : WF w0) by exact Hwf.
  destruct (task t) as [h|r|c id]; simpl.
  - destruct (callOnAcquired_spec h (add_log (OnAcquiredCalled (uniqueId h)) w0))
      as (Hm & Hh & Hpr & Hl & Hcnt & Htim & Hprom). simpl in *.
    split; [unfold WF; by rewrite Hm, Hh |].
    split; [intros c'; by apply mutex_of_ext |].
    split; [by etrans |]. done.
  - by destruct (currentHolder (deref w0 r)).
  - destruct (timeoutHandler_spec c id w0 Hwf0)
      as (Hwf' & Hview & Htim & Hprom & Hlog & Hcnt & Hnow & _).
    split; [done |]. split; [done |]. split; [by rewrite Htim |]. done.
Qed.

(** A step adds no holder other than the one of a new request. *)
Lemma step_holders (op : Op) (w : World) (c : string) (x : MutexHolder) :
  Inv w -> x ∈ holders (mutex_of (step op w) c) ->
  x ∈ holders (mutex_of w c) \/ uniqueId x = S (last_mutex_holder_id w).
Proof.
  intros HI.
  assert (Hfire : forall t, x ∈ holders (mutex_of (fire t w) c) ->
            x ∈ holders (mutex_of w c)).
  { intros t. destruct (fire_spec t w (inv_wf _ HI)) as (_ & Hview & _).
    rewrite Hview. destruct (task t) as [h|r|c0 id]; try done.
    case_decide; [subst c | done]. apply expired_holders. }
  destruct op as [c0 config|p|ms|id|]; simpl.
  - destruct (requestMutex_spec c0 config w (inv_wf _ HI)) as (_ & _ & Hview & _).
    rewrite Hview. case_decide; [subst c0 | by left].
    intros [-> | ?]%requested_holders; [by right | by left].
  - destruct (promises w !! p) as [[|c0 id|]|]; try by left.
    destruct (releaseMutex_spec c0 id w (inv_wf _ HI)) as (_ & Hview & _).
    rewrite Hview. case_decide; [subst c0 | by left].
    intros Hx. left. by eapply released_at_holders.
  - by left.
  - unfold fireTimer. destruct (list_find _ _) as [[i t]|]; [| by left].
    destruct (due t <=? now w)%nat; [| by left]. intros Hx. left. by eapply Hfire.
  - unfold runNextTimer. destruct (earliest _) as [t0|]; [| by left].
    unfold fireTimer. destruct (list_find _ _) as [[i t]|]; [| by left].
    destruct (due t <=? now w)%nat; [| by left]. intros Hx. left. by eapply Hfire.
Qed.

Lemma step_counter (op : Op) (w : World) :
  Inv w -> (last_mutex_holder_id w <= last_mutex_holder_id (step op w))%nat.
Proof.
  intros HI.
  assert (Hfire : forall id, last_mutex_holder_id (fireTimer id w) = last_mutex_holder_id w).
  { intros id. unfold fireTimer. destruct (list_find _ _) as [[i t]|]; [| done].
    destruct (due t <=? now w)%nat; [| done].
    by destruct (fire_spec t w (inv_wf _ HI)) as (_ & _ & _ & -> & _). }
  destruct op as [c0 config|p|ms|id|]; simpl.
  - destruct (requestMutex_spec c0 config w (inv_wf _ HI))
      as (_ & _ & _ & _ & _ & _ & -> & _). simpl. lia.
  - destruct (promises w !! p) as [[|c0 id|]|]; try done.
    by destruct (releaseMutex_spec c0 id w (inv_wf _ HI))
      as (_ & _ & _ & _ & _ & -> & _).
  - done.
  - by rewrite Hfire.
  - unfold runNextTimer. destruct (earliest _); [by rewrite Hfire | done].
Qed.

(** A request that is no longer a holder never becomes one again. *)
Lemma never_holder_again (id : nat) (ops : list Op) (w : World) :
  Inv w -> (id <= last_mutex_holder_id w)%nat ->
  (forall c x, x ∈ holders (mutex_of w c) -> uniqueId x ≠ id) ->
  forall c x, x ∈ holders (mutex_of (run ops w) c) -> uniqueId x ≠ id.
Proof.
  revert w. induction ops as [|op ops IH]; intros w HI Hle Habs; [done |].
  simpl. apply IH.
  - by apply Inv_step.
  - pose proof (step_counter op w HI). lia.
  - intros c x [Hx | Hx]%step_holders; [by eapply Habs | lia | done].
Qed.

(** ** Mutual exclusion *)

Lemma enqueued_current (h : MutexHolder) (m : Mutex) (cur : MutexHolder) :
  currentHolder m = Some cur -> currentHolder (enqueued h m) = Some cur.
Proof. intros H. unfold enqueued. by rewrite H. Qed.

Lemma Excl_initial : Excl [] initial_world.
Proof.
  split.
  - intros c h. rewrite mutex_of_initial. by intros ?%elem_of_nil.
  - intros p c id. simpl. by rewrite lookup_empty.
  - intros id c. simpl. by rewrite lookup_empty.
  - intros t h. simpl. by intros ?%elem_of_nil.
Qed.

Lemma requested_current (h : MutexHolder) (w : World) (c : string) (cur : MutexHolder) :
  currentHolder (mutex_of w c) = Some cur ->
  currentHolder (requested h w c) = Some cur.
Proof.
  intros H. unfold requested. destruct (request_throws w c); [done |].
  by apply enqueued_current.
Qed.

Lemma Excl_requestMutex (called : list nat) (c : string) (config : Config) (w : World) :
  Inv w -> Excl called w -> Excl called (requestMutex c config w).2.
Proof.
  intros HI [Hcodes Hkey Hgranted Htimers].
  destruct (requestMutex_spec c config w (inv_wf _ HI))
    as (_ & _ & Hview & (r & _ & Ht) & Hp & _).
  set (w' := (requestMutex c config w).2) in *.
  set (h0 := request_holder w c config) in *.
  assert (Hkeep : forall c0 cur, currentHolder (mutex_of w c0) = Some cur ->
            currentHolder (mutex_of w' c0) = Some cur).
  { intros c0 cur Hcur. rewrite Hview. case_decide; [subst c0 | done].
    by apply requested_current. }
  assert (Hold : forall id, (id <= last_mutex_holder_id w)%nat ->
            promises w' !! id = promises w !! id).
  { intros id Hle. rewrite Hp, lookup_insert_ne; [done |]. simpl. lia. }
  assert (Hnew : forall c0 id id', promises w' !! id = Some (Fulfilled c0 id') ->
            promises w !! id = Some (Fulfilled c0 id')).
  { intros c0 id id'. rewrite Hp.
    destruct (decide (uniqueId h0 = id)) as [<-|Hne].
    - rewrite lookup_insert_eq. by destruct (request_throws w c).
    - by rewrite lookup_insert_ne. }
  split.
  - intros c0 h. rewrite Hview. case_decide; [subst c0 | apply Hcodes].
    intros [-> | Hin]%requested_holders; [done | by apply Hcodes].
  - intros p c0 id Hf%Hnew. by eapply Hkey.
  - intros id c0 Hf%Hnew Hrel.
    destruct (Hgranted id c0 Hf Hrel) as (h & Hcur & Hid).
    exists h. split; [by apply Hkeep | done].
  - intros t h. rewrite Ht, !elem_of_app. intros [Hin | [Hin | Hin]] Htask Hnot.
    + pose proof (inv_timers _ HI t Hin) as Hok. rewrite Htask in Hok.
      destruct Hok as [Hle _].
      destruct (Htimers t h Hin Htask) as (h' & Hcur & Hid).
      { intros c0. rewrite <- (Hold _ Hle). apply Hnot. }
      exists h'. split; [by apply Hkeep | done].
    + unfold timeout_timers in Hin.
      destruct (positive_delay _); [| by apply elem_of_nil in Hin].
      apply list_elem_of_singleton in Hin as ->. done.
    + destruct (request_throws w c) eqn:Hthrows; [by apply elem_of_nil in Hin |].
      unfold notify_timers in Hin.
      destruct (currentHolder (mutex_of w c)) as [cur|] eqn:Hcur.
      * destruct (gt _ _); [| by apply elem_of_nil in Hin].
        apply list_elem_of_singleton in Hin as ->. done.
      * apply list_elem_of_singleton in Hin as ->. simpl in Htask.
        injection Htask as <-. exists h0. split; [| done].
        simpl. rewrite Hview, decide_True by done.
        unfold requested, enqueued. by rewrite Hthrows, Hcur.
Qed.

(** The release function of a granted request, called for the first time. *)
Lemma Excl_releaseMutex (called : list nat) (c : string) (p : nat) (w : World) :
  Inv w -> Excl called w ->
  promises w !! p = Some (Fulfilled c p) -> p ∉ called ->
  Excl (called ++ [p]) (releaseMutex c p w).
Proof.
  intros HI [Hcodes Hkey Hgranted Htimers] Hp Hfirst.
  destruct (Hgranted p c Hp Hfirst) as (cur & Hcur & Hid).
  destruct (releaseMutex_spec c p w (inv_wf _ HI))
    as (_ & Hview & Ht & Hprom & _).
  assert (Hheld : not_held_by (currentHolder (mutex_of w c)) p = false).
  { rewrite <- Hid. by apply not_held_by_current. }
  assert (Hpromote : released_at w c p = promote (mutex_of w c)).
  { rewrite <- Hid. by apply released_at_current. }
  rewrite Hpromote in Hview. unfold release_timers in *. rewrite Hheld in *.
  split.
  - intros c0 h. rewrite Hview. case_decide; [subst c0 | apply Hcodes].
    intros Hin%promote_holders. by apply Hcodes, pending_in_holders.
  - intros p0 c0 id. rewrite Hprom. apply Hkey.
  - intros id c0. rewrite Hprom. intros Hf [Hrel Hne]%not_elem_of_app.
    destruct (Hgranted id c0 Hf Hrel) as (h & Hcur0 & Hid0).
    rewrite Hview. case_decide as E; [subst c0 | by exists h].
    exfalso. apply Hne, list_elem_of_singleton. congruence.
  - intros t h. rewrite Ht, Hprom. intros [Hin | Hin]%elem_of_app Htask Hnot.
    + destruct (Htimers t h Hin Htask Hnot) as (h' & Hcur' & Hid').
      rewrite Hview. case_decide as E; [| by exists h'].
      exfalso. rewrite E in Hcur'. apply (Hnot c).
      assert (uniqueId h = p) as -> by congruence. done.
    + destruct (maxBy _ _) as [next|] eqn:Hmax; [| by apply elem_of_nil in Hin].
      apply list_elem_of_singleton in Hin as ->. simpl in Htask.
      injection Htask as <-. exists next. split; [| done].
      rewrite (Hcodes c next) by by apply pending_in_holders, maxBy_elem_of.
      rewrite Hview, decide_True by done. unfold promote. by rewrite Hmax.
Qed.

Lemma Excl_weaken (called called' : list nat) (w : World) :
  (forall id, id ∉ called' -> id ∉ called) ->
  Excl called w -> Excl called' w.
Proof.
  intros Hsub [Hcodes Hkey Hgranted Htimers]. split; try done.
  intros id c Hf Hrel. apply Hgranted; [done | by apply Hsub].
Qed.

Lemma Excl_fire (called : list nat) (t : Timer) (w : World) :
  Inv w -> t ∈ timers w -> Excl called w -> Excl called (fire t w).
Proof.
  intros HI Hin [Hcodes Hkey Hgranted Htimers].
  destruct (fire_spec t w (inv_wf _ HI)) as (_ & Hview & Hsub & _ & Hp).
  set (w' := fire t w) in *.
  assert (Hcur : forall c, currentHolder (mutex_of w' c) = currentHolder (mutex_of w c)).
  { intros c. rewrite Hview. destruct (task t); try done.
    case_decide; [by subst c | done]. }
  assert (Hhold : forall c h, h ∈ holders (mutex_of w' c) -> h ∈ holders (mutex_of w c)).
  { intros c h. rewrite Hview. destruct (task t); try done.
    case_decide; [subst c | done]. apply expired_holders. }
  assert (Hfulfilled : forall id c, promises w !! id = Some (Fulfilled c id) ->
            promises w' !! id = Some (Fulfilled c id)).
  { intros id c Hf. rewrite Hp. destruct (task t) as [h|r|c0 id0]; [| done |].
    - destruct (promises w !! uniqueId h) as [[]|] eqn:E; try done.
      rewrite lookup_insert_ne; [done |]. congruence.
    - destruct (lacks_pendingHolders w c0); [done |].
      destruct (promises w !! id0) as [[]|] eqn:E; try done.
      rewrite lookup_insert_ne; [done |]. congruence. }
  assert (Hcases : forall p c id, promises w' !! p = Some (Fulfilled c id) ->
            promises w !! p = Some (Fulfilled c id) \/
            (exists h, task t = RunOnAcquired h /\ p = uniqueId h /\ id = uniqueId h /\
                       c = acquiredCode (onAcquired h) /\
                       promises w !! uniqueId h = Some Pending)).
  { intros p c id. rewrite Hp. destruct (task t) as [h|r|c0 id0]; [| by left |].
    - destruct (promises w !! uniqueId h) as [[]|] eqn:E; try by left.
      destruct (decide (uniqueId h = p)) as [<-|Hne].
      + rewrite lookup_insert_eq. intros [= <- <-]. right. by exists h.
      + rewrite lookup_insert_ne by done. by left.
    - destruct (lacks_pendingHolders w c0); [by left |].
      destruct (promises w !! id0) as [[]|] eqn:E; try by left.
      destruct (decide (id0 = p)) as [<-|Hne].
      + by rewrite lookup_insert_eq.
      + rewrite lookup_insert_ne by done. by left. }
  split.
  - intros c h Hh. by apply Hcodes, Hhold.
  - intros p c id [Hold | (h & _ & -> & -> & _)]%Hcases; [by eapply Hkey | done].
  - intros id c [Hold | (h & Htask & -> & _ & -> & Hpend)]%Hcases Hrel; rewrite Hcur.
    + by apply Hgranted.
    + apply (Htimers t h Hin Htask). intros c. by rewrite Hpend.
  - intros t' h Hin' Htask Hnot. rewrite Hcur.
    apply (Htimers t' h); [by apply Hsub | done |].
    intros c Hf. by apply (Hnot c), Hfulfilled.
Qed.

Lemma Excl_step (called : list nat) (op : Op) (w : World) :
  Inv w -> Excl called w ->
  (forall p, op = CallRelease p -> p ∉ called) ->
  Excl (called ++ release_calls [op]) (step op w).
Proof.
  intros HI HE Hfirst.
  assert (Hfire : forall id, Excl called (fireTimer id w)).
  { intros id. unfold fireTimer.
    destruct (list_find _ _) as [[i t]|] eqn:E; [| done].
    destruct (due t <=? now w)%nat; [| done].
    apply list_find_Some in E as (Hi & _ & _).
    apply Excl_fire; [done | | done]. apply list_elem_of_lookup. eauto. }
  destruct op as [c config|p|ms|id|]; simpl; rewrite ?app_nil_r.
  - by apply Excl_requestMutex.
  - destruct (promises w !! p) as [[|c id|]|] eqn:Hp;
      try (eapply Excl_weaken; [| exact HE]; by intros id' [? _]%not_elem_of_app).
    assert (id = p) as -> by by eapply (excl_key _ _ HE).
    apply Excl_releaseMutex; auto.
  - destruct HE as [Hcodes Hkey Hgranted Htimers]. by split.
  - apply Hfire.
  - unfold runNextTimer. destruct (earliest _); [apply Hfire | done].
Qed.

Lemma release_calls_snoc (ops : list Op) (op : Op) :
  release_calls (ops ++ [op]) = release_calls ops ++ release_calls [op].
Proof. apply omap_app. Qed.

(** As long as no release function is called twice, the granted requests
    that have not released are current holders. *)
Lemma Excl_run (ops : list Op) :
  NoDup (release_calls ops) -> Excl (release_calls ops) (run ops initial_world).
Proof.
  induction ops as [|op ops IH] using rev_ind; intros Hnd.
  - apply Excl_initial.
  - rewrite release_calls_snoc in Hnd |- *. rewrite run_snoc.
    apply NoDup_app in Hnd as (Hnd & Hdisj & _).
    apply Excl_step; [apply Inv_reachable | by apply IH |].
    intros p -> Hin. apply (Hdisj p Hin). simpl. apply list_elem_of_here.
Qed.

(** X27: on a mutex code other than "__proto__" and "currentHolder", for
    every sequence of requests, release calls and timer runs on the
    registry, (1) a mutex has one [currentHolder] slot and never lists a
    holder twice, be it as current or as pending holder; (2) a request made
    while the mutex is held leaves the current holder in place and only
    appends the requester to [pendingHolders]; (3) a release by the current
    holder promotes the pending holder with the highest priority, the first
    enqueued among equals, and removes it from [pendingHolders], or frees the
    mutex when nobody is pending; (4) as long as no release function is
    called twice, two requests that were granted the mutex and have not
    released it are the same request. *)
Theorem one_holder_stable_promotion (ops : list Op) (c : string) :
  c ≠ "__proto__" -> c ≠ "currentHolder" ->
  let w := run ops initial_world in
  NoDup (uniqueId <$> (option_list (currentHolder (mutex_of w c))
                        ++ pendingHolders (mutex_of w c))) /\
  (forall config cur,
     currentHolder (mutex_of w c) = Some cur ->
     let w' := (requestMutex c config w).2 in
     currentHolder (mutex_of w' c) = Some cur /\
     exists h,
       pendingHolders (mutex_of w' c) = pendingHolders (mutex_of w c) ++ [h] /\
       uniqueId h = (requestMutex c config w).1) /\
  (forall cur,
     currentHolder (mutex_of w c) = Some cur ->
     let w' := releaseMutex c (uniqueId cur) w in
     match currentHolder (mutex_of w' c) with
     | Some next =>
         exists l1 l2,
           pendingHolders (mutex_of w c) = l1 ++ next :: l2 /\
           Forall (fun x => priority x < priority next) l1 /\
           Forall (fun x => priority x <= priority next) l2 /\
           pendingHolders (mutex_of w' c) = l1 ++ l2
     | None =>
         pendingHolders (mutex_of w c) = [] /\ pendingHolders (mutex_of w' c) = []
     end) /\
  (NoDup (release_calls ops) ->
   forall id1 id2,
     promises w !! id1 = Some (Fulfilled c id1) -> id1 ∉ release_calls ops ->
     promises w !! id2 = Some (Fulfilled c id2) -> id2 ∉ release_calls ops ->
     id1 = id2).
Proof.
  intros Hc1 Hc2 w. pose proof (Inv_reachable ops) as HI. fold w in HI.
  split; [apply (inv_nodup _ HI) |]. split; [| split].
  - intros config cur Hcur w'.
    destruct (requestMutex_spec c config w (inv_wf _ HI))
      as (Hid & _ & Hview & _).
    destruct (plain_code_has_pendingHolders w c (inv_wf _ HI) Hc1 Hc2)
      as [_ Hthrows].
    subst w'. rewrite (Hview c), decide_True by done.
    unfold requested, enqueued. rewrite Hthrows, Hcur. simpl. split; [done |].
    exists (request_holder w c config). by rewrite Hid.
  - intros cur Hcur w'.
    destruct (releaseMutex_spec c (uniqueId cur) w (inv_wf _ HI)) as (_ & Hview & _).
    subst w'. rewrite (Hview c), decide_True by done.
    rewrite (released_at_current _ _ _ Hcur).
    apply promote_stable.
    pose proof (inv_nodup _ HI c) as Hnd. unfold holders in Hnd.
    rewrite fmap_app in Hnd. by apply NoDup_app in Hnd as (_ & _ & ?).
  - intros Hnd id1 id2 Hf1 Hr1 Hf2 Hr2.
    pose proof (Excl_run ops Hnd) as HE. fold w in HE.
    destruct (excl_granted _ _ HE id1 c Hf1 Hr1) as (h1 & Hcur1 & <-).
    destruct (excl_granted _ _ HE id2 c Hf2 Hr2) as (h2 & Hcur2 & <-).
    congruence.
Qed.

(** A (priority 4) holds the mutex; D (priority 3), B (priority 5) and C
    (priority 5) queue up in this order.  A further request leaves A in
    place, and a release by A promotes one of the pending holders as the
    theorem says. *)
Lemma one_holder_stable_promotion_witness :
  let w := run [ Request "m" (request_with 4 None "a"); RunNextTimer;
                 Request "m" (request_with 3 None "d");
                 Request "m" (request_with 5 None "b");
                 Request "m" (request_with 5 None "c") ] initial_world in
  (let w' := (requestMutex "m" (request_with 9 None "e") w).2 in
   currentHolder (mutex_of w' "m") = Some holder_a /\
   exists h,
     pendingHolders (mutex_of w' "m") = pendingHolders (mutex_of w "m") ++ [h] /\
     uniqueId h = (requestMutex "m" (request_with 9 None "e") w).1) /\
  (let w' := releaseMutex "m" 1 w in
   match currentHolder (mutex_of w' "m") with
   | Some next =>
       exists l1 l2,
         pendingHolders (mutex_of w "m") = l1 ++ next :: l2 /\
         Forall (fun x => priority x < priority next) l1 /\
         Forall (fun x => priority x <= priority next) l2 /\
         pendingHolders (mutex_of w' "m") = l1 ++ l2
   | None =>
       pendingHolders (mutex_of w "m") = [] /\ pendingHolders (mutex_of w' "m") = []
   end) /\
  (forall id1 id2,
     promises w !! id1 = Some (Fulfilled "m" id1) ->
     promises w !! id2 = Some (Fulfilled "m" id2) -> id1 = id2).
Proof.
  intros w.
  destruct (one_holder_stable_promotion
              [ Request "m" (request_with 4 None "a"); RunNextTimer;
                Request "m" (request_with 3 None "d");
                Request "m" (request_with 5 None "b");
                Request "m" (request_with 5 None "c") ] "m")
    as (_ & Hrequest & Hrelease & Hexcl); [done | done |].
  split; [| split].
  - apply Hrequest. reflexivity.
  - apply (Hrelease holder_a). reflexivity.
  - intros id1 id2 H1 H2.
    apply Hexcl; [apply NoDup_nil_2 | done | apply not_elem_of_nil
                 | done | apply not_elem_of_nil].
Defined.

(** C1 (defect of the code): the claim holds of every sequence in which no
    release function is called twice and the code is an ordinary key (the
    theorem above), and the code breaks it otherwise.  After A calls its
    release function a second time (see the theorem on C2 below), D is
    granted the mutex that B holds: the promises of B and D are both
    fulfilled and neither has called its release function, so two requests
    hold the mutex "m" at the same instant.  And on the code "__proto__",
    which finds [Object.prototype] in [mutexes], a request made while the
    mutex is held is not appended to any [pendingHolders]: the request
    throws, and its promise is rejected although it has no timeout. *)
Theorem C1_two_granted_requests_at_once :
  let ops := scenario_released ++
             [ CallRelease 1; Request "m" (request_with 3 None "d");
               RunNextTimer; RunNextTimer; RunNextTimer; RunNextTimer ] in
  let w := run ops initial_world in
  release_calls ops = [1%nat; 1%nat] /\
  promises w !! 2%nat = Some (Fulfilled "m" 2) /\
  promises w !! 4%nat = Some (Fulfilled "m" 4) /\
  holder_ids (mutex_of w "m") = (Some 4%nat, []) /\
  timers w = [] /\
  let held := run [ Request "__proto__" (request_with 4 None "a");
                    RunNextTimer ] initial_world in
  let w' := (requestMutex "__proto__" (request_with 9 None "e") held).2 in
  promises held !! 1%nat = Some (Fulfilled "__proto__" 1) /\
  isMutexLocked held "__proto__" = true /\
  holder_ids (mutex_of held "__proto__") = (Some 1%nat, []) /\
  holder_ids (mutex_of w' "__proto__") = (Some 1%nat, []) /\
  promises w' !! 2%nat = Some (Rejected (VError "TypeError")) /\
  timers w' = [].
Proof. vm_compute. repeat split. Qed.

(** In that scenario the release promotes B, the first of the two pending
    holders with priority 5. *)
Example stable_promotion_example :
  let w := run [ Request "m" (request_with 4 None "a"); RunNextTimer;
                 Request "m" (request_with 3 None "d");
                 Request "m" (request_with 5 None "b");
                 Request "m" (request_with 5 None "c") ] initial_world in
  holder_ids (mutex_of w "m") = (Some 1%nat, [2%nat; 3%nat; 4%nat]) /\
  holder_ids (mutex_of (releaseMutex "m" 1 w) "m") = (Some 3%nat, [2%nat; 4%nat]).
Proof. vm_compute. split; reflexivity. Qed.

(** ** A request without a timeout timer *)

Lemma untimed_fire (id : nat) (t : Timer) (w : World) :
  Inv w -> t ∈ timers w -> untimed id w -> untimed id (fire t w).
Proof.
  intros HI Ht [Htim Hprom].
  destruct (fire_spec t w (inv_wf _ HI)) as (_ & _ & Hsub & _ & Hp).
  split; [intros t' c Ht'; by apply Htim, Hsub |].
  rewrite Hp. pose proof (Htim t) as Hmine.
  destruct (task t) as [h|r|c0 id0]; [| done |].
  - destruct (promises w !! uniqueId h) as [[]|] eqn:E; try done.
    destruct (decide (uniqueId h = id)) as [<-|Hne].
    + right. eexists. apply lookup_insert_eq.
    + by rewrite lookup_insert_ne.
  - destruct (lacks_pendingHolders w c0); [done |].
    destruct (promises w !! id0) as [[]|] eqn:E; try done.
    rewrite lookup_insert_ne; [done |]. intros ->. by eapply Hmine.
Qed.

Lemma untimed_step (id : nat) (op : Op) (w : World) :
  Inv w -> (id <= last_mutex_holder_id w)%nat ->
  untimed id w -> untimed id (step op w).
Proof.
  intros HI Hle HU.
  assert (Hfire : forall n, untimed id (fireTimer n w)).
  { intros n. unfold fireTimer.
    destruct (list_find _ _) as [[i t]|] eqn:E; [| done].
    destruct (due t <=? now w)%nat; [| done].
    apply list_find_Some in E as (Hi & _ & _).
    apply untimed_fire; [done | | done]. apply list_elem_of_lookup. eauto. }
  destruct op as [c0 config|p|ms|n|]; simpl.
  - destruct HU as [Htim Hprom].
    destruct (requestMutex_spec c0 config w (inv_wf _ HI))
      as (_ & _ & _ & (r & _ & Ht) & Hp & _).
    split.
    + intros t c. rewrite Ht, !elem_of_app. intros [Hin | [Hin | Hin]].
      * by apply Htim.
      * unfold timeout_timers in Hin.
        destruct (positive_delay _); [| by apply elem_of_nil in Hin].
        apply list_elem_of_singleton in Hin as ->. simpl. intros [= _ Heq]. lia.
      * destruct (request_throws w c0); [by apply elem_of_nil in Hin |].
        unfold notify_timers in Hin.
        destruct (currentHolder (mutex_of w c0)); [destruct (gt _ _) |];
          try (by apply elem_of_nil in Hin);
          by apply list_elem_of_singleton in Hin as ->.
    + rewrite Hp, lookup_insert_ne; [done |]. simpl. lia.
  - destruct (promises w !! p) as [[|c0 n|]|]; try done.
    destruct HU as [Htim Hprom].
    destruct (releaseMutex_spec c0 n w (inv_wf _ HI))
      as (_ & _ & Ht & Hp & _).
    split; [| by rewrite Hp].
    intros t c. rewrite Ht. intros [Hin | Hin]%elem_of_app; [by apply Htim |].
    unfold release_timers in Hin.
    destruct (not_held_by _ _); [by apply elem_of_nil in Hin |].
    destruct (maxBy _ _); [| by apply elem_of_nil in Hin].
    by apply list_elem_of_singleton in Hin as ->.
  - done.
  - apply Hfire.
  - unfold runNextTimer. destruct (earliest _); [apply Hfire | done].
Qed.

Lemma untimed_run (id : nat) (ops : list Op) (w : World) :
  Inv w -> (id <= last_mutex_holder_id w)%nat ->
  untimed id w -> untimed id (run ops w).
Proof.
  revert w. induction ops as [|op ops IH]; intros w HI Hle HU; [done |].
  simpl. apply IH.
  - by apply Inv_step.
  - pose proof (step_counter op w HI). lia.
  - by apply untimed_step.
Qed.

(** X28: on a mutex code other than "__proto__" and "currentHolder", a
    request whose [timeoutDelay] is null, zero or negative arms no timeout
    timer; whatever happens later, its promise is never rejected: it stays
    pending until it is fulfilled. *)
Theorem no_timeout_no_rejection
    (ops later : list Op) (c : string) (config : Config) :
  c ≠ "__proto__" -> c ≠ "currentHolder" ->
  match cfg_timeoutDelay config with Some d => d <= 0 | None => True end ->
  let w := run ops initial_world in
  let id := (requestMutex c config w).1 in
  let w' := run later (requestMutex c config w).2 in
  (forall t c0, t ∈ timers w' -> task t ≠ TimeoutExpired c0 id) /\
  (promises w' !! id = Some Pending \/
   exists c0, promises w' !! id = Some (Fulfilled c0 id)) /\
  forall reason, promises w' !! id ≠ Some (Rejected reason).
Proof.
  intros Hc1 Hc2 Hdelay w id w'.
  pose proof (Inv_reachable ops) as HI. fold w in HI.
  destruct (requestMutex_spec c config w (inv_wf _ HI))
    as (Hid & _ & _ & (r & _ & Ht) & Hp & _ & Hcnt & _).
  destruct (plain_code_has_pendingHolders w c (inv_wf _ HI) Hc1 Hc2)
    as [_ Hthrows].
  rewrite Hthrows in Ht, Hp.
  assert (Hnone : positive_delay (cfg_timeoutDelay config) = None).
  { unfold positive_delay. destruct (cfg_timeoutDelay config) as [d|]; [| done].
    destruct (Z.ltb_spec 0 d); [lia | done]. }
  assert (HU : untimed id w').
  { apply untimed_run.
    - by apply Inv_requestMutex.
    - subst id. rewrite Hid, Hcnt. done.
    - subst id. rewrite Hid. split.
      + intros t c0. rewrite Ht. unfold timeout_timers. rewrite Hnone. simpl.
        intros [Hin | Hin]%elem_of_app.
        * pose proof (inv_timers _ HI t Hin) as Hok. intros Htask.
          rewrite Htask in Hok. destruct Hok as [Hle _]. simpl in Hle. lia.
        * unfold notify_timers in Hin.
          destruct (currentHolder (mutex_of w c)); [destruct (gt _ _) |];
            try (by apply elem_of_nil in Hin);
            by apply list_elem_of_singleton in Hin as ->.
      + left. rewrite Hp. apply lookup_insert_eq. }
  destruct HU as [Htim Hprom]. split; [done |]. split; [done |].
  intros reason Hrej. destruct Hprom as [Hprom | [c0 Hprom]]; congruence.
Qed.

(** A request with [timeoutDelay = 0] on a held mutex: no timer is armed
    for it and it stays pending. *)
Lemma no_timeout_no_rejection_witness :
  let w := run [Request "m" (request_with 1 None "a")] initial_world in
  let id := (requestMutex "m" (request_with 5 (Some 0) "b") w).1 in
  let w' := run [Elapse 100; RunNextTimer; RunNextTimer]
                (requestMutex "m" (request_with 5 (Some 0) "b") w).2 in
  (forall t c0, t ∈ timers w' -> task t ≠ TimeoutExpired c0 id) /\
  (promises w' !! id = Some Pending \/
   exists c0, promises w' !! id = Some (Fulfilled c0 id)) /\
  forall reason, promises w' !! id ≠ Some (Rejected reason).
Proof.
  apply (no_timeout_no_rejection
           [Request "m" (request_with 1 None "a")]
           [Elapse 100; RunNextTimer; RunNextTimer]
           "m" (request_with 5 (Some 0) "b")); [done | done |].
  simpl. lia.
Defined.

(** C10 (defect of the code): [requestMutex] is documented to wait as long
    as necessary and to reject its promise if the request times out.  The
    code "__proto__" finds [Object.prototype] in [mutexes], which has no
    [pendingHolders]: a request made without any [timeoutDelay] while the
    mutex is held throws inside the executor of its promise.  No timer is
    armed, nothing is appended to a queue, and the promise is rejected at
    once, with the [TypeError]. *)
Theorem C10_rejected_without_timeout :
  let w := run [Request "__proto__" (request_with 1 None "a")] initial_world in
  let config := {| cfg_priority := None; cfg_timeoutDelay := None;
                   cfg_onSupersessionRequest := None |} in
  let id := (requestMutex "__proto__" config w).1 in
  let w' := (requestMutex "__proto__" config w).2 in
  id = 2%nat /\
  isMutexLocked w "__proto__" = true /\
  timers w' = timers w /\
  holder_ids (mutex_of w' "__proto__") = (Some 1%nat, []) /\
  promises w' !! id = Some (Rejected (VError "TypeError")).
Proof. vm_compute. repeat split. Qed.

(** ** Timeouts *)

(** C3, as stated, fails: when the timeout of a pending request elapses,
    its promise is rejected by a bare [reject()], so the rejection reason is
    [undefined], not a [TimeoutError]. *)
Lemma C3_counterexample :
  let w := run scenario_timeout initial_world in
  promises w !! 2%nat = Some (Rejected VUndefined) /\
  promises w !! 2%nat ≠ Some (Rejected (VError "TimeoutError")).
Proof. vm_compute. split; [reflexivity | discriminate]. Qed.

(** The timer of a request is disarmed by its [onAcquired] only, which
    itself runs in a later turn than the promotion: a timer that comes due
    in between rejects the promise of the holder. *)
Lemma timeout_can_reject_promoted_holder :
  let w := run scenario_timeout_race initial_world in
  holder_ids (mutex_of w "m") = (Some 2%nat, []) /\
  promises w !! 2%nat = Some (Rejected VUndefined).
Proof. vm_compute. split; reflexivity. Qed.

(** C3 (amended): when the host runs the timeout timer of a request that is
    still among the pending holders, the promise of the request is rejected
    (without a reason), and the request is removed: in no later world is it
    a pending or current holder of any mutex, so no release promotes it. *)
Theorem C3_timeout_of_pending_request
    (ops : list Op) (t : Timer) (c c' : string) (id : nat) (h : MutexHolder) :
  let w := run ops initial_world in
  t ∈ timers w -> task t = TimeoutExpired c id ->
  h ∈ pendingHolders (mutex_of w c') -> uniqueId h = id ->
  let w' := fire t w in
  promises w' !! id = Some (Rejected VUndefined) /\
  forall later c'' x,
    x ∈ holders (mutex_of (run later w') c'') -> uniqueId x ≠ id.
Proof.
  intros w Ht Htask Hh Hid w'.
  pose proof (Inv_reachable ops) as HI. fold w in HI.
  pose proof (inv_timers _ HI t Ht) as Hok. rewrite Htask in Hok.
  destruct Hok as [Hle Hcode]. assert (c' = c) as -> by by eapply Hcode.
  destruct (fire_spec t w (inv_wf _ HI)) as (_ & Hview & _ & Hcnt & Hp).
  fold w' in Hview, Hcnt, Hp. rewrite Htask in Hview, Hp.
  split.
  - pose proof (inv_pending _ HI _ _ Hh) as Hpend. rewrite Hid in Hpend.
    destruct (pending_has_pendingHolders w c h (inv_wf _ HI) Hh) as [Hobject _].
    rewrite Hp, Hobject, Hpend. apply lookup_insert_eq.
  - intros later. apply never_holder_again.
    + by apply Inv_fire.
    + by rewrite Hcnt.
    + intros c'' x. rewrite Hview. case_decide as E; [subst c'' |].
      * unfold holders, expired. simpl.
        intros [Hx | [Hne _]%list_elem_of_filter]%elem_of_app; [| congruence].
        pose proof (inv_nodup _ HI c) as Hnd. unfold holders in Hnd.
        rewrite fmap_app in Hnd. apply NoDup_app in Hnd as (_ & Hdisj & _).
        intros Heq. apply (Hdisj (uniqueId x)).
        -- by apply list_elem_of_fmap_2.
        -- rewrite Heq, <- Hid. by apply list_elem_of_fmap_2.
      * intros Hx Heq. apply E. eapply (inv_codes _ HI); [exact Hx | |].
        -- by apply pending_in_holders.
        -- congruence.
Qed.

(** B waits for A with a timeout of 50 ms, which elapses. *)
Lemma C3_witness :
  let w := run [ Request "m" (request_with 1 None "a"); RunNextTimer;
                 Request "m" (request_with 5 (Some 50) "b"); RunNextTimer;
                 Elapse 50 ] initial_world in
  let w' := fire timeout_timer_of_b w in
  promises w' !! 2%nat = Some (Rejected VUndefined) /\
  forall later c'' x,
    x ∈ holders (mutex_of (run later w') c'') -> uniqueId x ≠ 2%nat.
Proof.
  apply (C3_timeout_of_pending_request
           [ Request "m" (request_with 1 None "a"); RunNextTimer;
             Request "m" (request_with 5 (Some 50) "b"); RunNextTimer;
             Elapse 50 ]
           timeout_timer_of_b "m" "m" 2%nat holder_b).
  - vm_compute. apply list_elem_of_here.
  - reflexivity.
  - vm_compute. apply list_elem_of_here.
  - reflexivity.
Defined.

(** ** Priorities *)

(** C9, as stated, fails: [requestMutex] stores the priority it is given; a
    priority of 0, below [PRIORITY_LOWEST], is kept as it is. *)
Lemma C9_counterexample :
  let config := {| cfg_priority := Some 0; cfg_timeoutDelay := None;
                   cfg_onSupersessionRequest := None |} in
  let w := (requestMutex "m" config initial_world).2 in
  (priority <$> currentHolder (mutex_of w "m")) = Some 0 /\
  ~ (PRIORITY_LOWEST <= 0 <= PRIORITY_HIGHEST).
Proof. split; [reflexivity | unfold PRIORITY_LOWEST; lia]. Qed.

(** C9 (amended): [requestMutex] neither clamps nor rejects a priority.
    Whatever the code, a holder that the mutex lists for the request carries
    the priority of the request as given, or [PRIORITY_AVERAGE] when none is
    given; and on a code other than "__proto__" and "currentHolder" the
    request does register such a holder, its promise pending.  The levels
    are [PRIORITY_LOWEST = 1] and [PRIORITY_HIGHEST = 2^53 - 1], with
    [PRIORITY_LOW], [PRIORITY_AVERAGE] and [PRIORITY_HIGH] at a quarter, a
    half and three quarters of [PRIORITY_HIGHEST + 1]. *)
Theorem C9_priority_stored_as_given (ops : list Op) (c : string) (config : Config) :
  let w := run ops initial_world in
  let id := (requestMutex c config w).1 in
  let w' := (requestMutex c config w).2 in
  (forall h, h ∈ holders (mutex_of w' c) -> uniqueId h = id ->
     priority h = default PRIORITY_AVERAGE (cfg_priority config)) /\
  (c ≠ "__proto__" -> c ≠ "currentHolder" ->
   promises w' !! id = Some Pending /\
   exists h, h ∈ holders (mutex_of w' c) /\ uniqueId h = id) /\
  PRIORITY_LOWEST = 1 /\ PRIORITY_HIGHEST = 2 ^ 53 - 1 /\
  4 * PRIORITY_LOW = PRIORITY_HIGHEST + 1 /\
  2 * PRIORITY_AVERAGE = PRIORITY_HIGHEST + 1 /\
  4 * PRIORITY_HIGH = 3 * (PRIORITY_HIGHEST + 1).
Proof.
  intros w id w'. pose proof (Inv_reachable ops) as HI. fold w in HI.
  destruct (requestMutex_spec c config w (inv_wf _ HI))
    as (Hid & _ & Hview & _ & Hp & _).
  split; [| split; [| by vm_compute]].
  - intros h. subst w' id. rewrite (Hview c), decide_True, Hid by done.
    intros [-> | Hold]%requested_holders; [done |].
    pose proof (inv_ids _ HI c h Hold). simpl. lia.
  - intros Hc1 Hc2.
    destruct (plain_code_has_pendingHolders w c (inv_wf _ HI) Hc1 Hc2)
      as [_ Hthrows].
    subst w' id. rewrite Hp, Hthrows, Hid. split; [apply lookup_insert_eq |].
    exists (request_holder w c config). split; [| done].
    rewrite (Hview c), decide_True by done. unfold requested. rewrite Hthrows.
    apply enqueued_holders. by left.
Qed.

(** A request with priority 0 on a free mutex, and one without a priority
    on the mutex it then holds. *)
Lemma C9_witness :
  let config := {| cfg_priority := None; cfg_timeoutDelay := None;
                   cfg_onSupersessionRequest := None |} in
  let w := run [Request "m" (request_with 0 None "a")] initial_world in
  let id := (requestMutex "m" config w).1 in
  let w' := (requestMutex "m" config w).2 in
  promises w' !! id = Some Pending /\
  exists h, h ∈ holders (mutex_of w' "m") /\ uniqueId h = id /\
            priority h = PRIORITY_AVERAGE.
Proof.
  intros config w id w'.
  destruct (C9_priority_stored_as_given
              [Request "m" (request_with 0 None "a")] "m" config)
    as (Hgiven & Hregistered & _).
  destruct Hregistered as (Hpending & h & Hh & Hid); [done | done |].
  split; [exact Hpending |].
  exists h. split; [exact Hh |]. split; [exact Hid |].
  by apply Hgiven.
Defined.

(** ** Releases by a holder that does not hold the mutex *)

(** C2 (defect of the code): [releaseMutex] is documented to have an effect
    only if the mutex is locked by the given holder, but its callback then
    returns nothing and [updateMutex] stores that [undefined] under the
    code.  Here A calls its release function a second time while B holds
    the mutex and C is pending: the mutex is forgotten, B is no longer its
    current holder and C is no longer pending; a request by D is then
    granted at once, while B has not released, and C is never served. *)
Theorem C2_stale_release_forgets_mutex :
  let before := run scenario_released initial_world in
  let after := step (CallRelease 1) before in
  let later :=
    run [ Request "m" (request_with 3 None "d");
          RunNextTimer; RunNextTimer; RunNextTimer; RunNextTimer ] after in
  promises before !! 1%nat = Some (Fulfilled "m" 1) /\
  holder_ids (mutex_of before "m") = (Some 2%nat, [3%nat]) /\
  isMutexLocked before "m" = true /\
  mutexes after !! "m" = Some SUndefined /\
  holder_ids (mutex_of after "m") = (None, []) /\
  isMutexLocked after "m" = false /\
  holder_ids (mutex_of later "m") = (Some 4%nat, []) /\
  promises later !! 2%nat = Some (Fulfilled "m" 2) /\
  promises later !! 4%nat = Some (Fulfilled "m" 4) /\
  promises later !! 3%nat = Some Pending /\
  timers later = [].
Proof. vm_compute. repeat split. Qed.

(** ** Supersession notices *)

(** What [requestMutex] does at once on a held mutex, the code being
    neither "__proto__" nor "currentHolder": the current holder stays, the
    requester is appended, no callback is invoked, and one deferred notice
    is armed exactly when the priority of the requester is strictly
    higher. *)
Lemma request_on_held_mutex (ops : list Op) (c : string) (config : Config)
    (cur : MutexHolder) :
  c ≠ "__proto__" -> c ≠ "currentHolder" ->
  let w := run ops initial_world in
  currentHolder (mutex_of w c) = Some cur ->
  let w' := (requestMutex c config w).2 in
  currentHolder (mutex_of w' c) = Some cur /\
  pendingHolders (mutex_of w' c) =
    pendingHolders (mutex_of w c) ++ [request_holder w c config] /\
  log w' = log w /\
  exists r, mutexes w' !! c = Some (SObject r) /\
    timers w' = timers w ++ timeout_timers w c config ++
      if gt (default PRIORITY_AVERAGE (cfg_priority config)) (priority cur)
      then [{| timerId := (next_timer_id w + length (timeout_timers w c config))%nat;
               due := (now w + 0)%nat; task := NotifySupersession r |}]
      else [].
Proof.
  intros Hc1 Hc2 w Hcur w'. pose proof (Inv_reachable ops) as HI. fold w in HI.
  destruct (requestMutex_spec c config w (inv_wf _ HI))
    as (_ & _ & Hview & (r & Hr & Ht) & _ & Hlog & _).
  destruct (plain_code_has_pendingHolders w c (inv_wf _ HI) Hc1 Hc2)
    as [_ Hthrows].
  rewrite Hthrows in Ht.
  subst w'. rewrite (Hview c), decide_True by done.
  unfold requested, enqueued. rewrite Hthrows, Hcur. simpl.
  repeat split; try done.
  exists r. split; [by apply Hr |]. rewrite Ht. unfold notify_timers.
  by rewrite Hcur.
Qed.

(** C8 (defect of the code): the deferred notice is the closure
    [() => mutex.currentHolder.onSupersessionRequest()], which looks the
    holder up when it runs, not when the request is made.  Here A
    (priority 1) holds the mutex, B (priority 5) requests it and A releases
    it in the same turn: when the notice runs, B is the current holder, so
    the callback of B is invoked for the request of B itself, and the
    callback of A, the holder that was superseded, is never invoked. *)
Theorem C8_notice_reaches_the_wrong_holder :
  let held := run [ Request "m" (request_with 1 None "a"); RunNextTimer ]
                  initial_world in
  let requested := step (Request "m" (request_with 5 None "b")) held in
  let final := run scenario_late_notice initial_world in
  holder_ids (mutex_of held "m") = (Some 1%nat, []) /\
  promises held !! 1%nat = Some (Fulfilled "m" 1) /\
  holder_ids (mutex_of requested "m") = (Some 1%nat, [2%nat]) /\
  task <$> timers requested = [NotifySupersession 0] /\
  log final =
    [ OnAcquiredCalled 1;
      OnSupersessionRequestCalled 2 (UserCallback "b");
      OnAcquiredCalled 2 ] /\
  timers final = [].
Proof. vm_compute. repeat split. Qed.

(** * Properties of the listener registry *)

(** ** Objects *)

Lemma Object_values_Permutation {A} (o : JSObject A) : Object_values o ≡ₚ o.*2.
Proof.
  unfold Object_values. apply fmap_Permutation.
  rewrite merge_sort_Permutation. apply filter_app_complement.
Qed.

Lemma obj_get_elem_of {A} (key : string) (o : JSObject A) (v : A) :
  obj_get key o = Some v -> (key, v) ∈ o.
Proof.
  induction o as [|[k x] o IH]; simpl; [done |].
  case_decide as E.
  - intros [= ->]. subst k. apply list_elem_of_here.
  - intros H. apply list_elem_of_further. by apply IH.
Qed.

Lemma obj_get_Object_values {A} (key : string) (o : JSObject A) (v : A) :
  obj_get key o = Some v -> v ∈ Object_values o.
Proof.
  intros H%obj_get_elem_of. rewrite Object_values_Permutation.
  apply list_elem_of_fmap. by exists (key, v).
Qed.

(** ** Dispatching *)

Section DispatchFacts.
Variable callback_outcome : string -> list Value -> Outcome.
Variable mapPayload_outcome : string -> list Value -> Outcome.

Local Abbreviation dispatch := (dispatchEvent callback_outcome mapPayload_outcome).
Local Abbreviation call := (callListener callback_outcome mapPayload_outcome).
Local Abbreviation outcome := (listener_outcome callback_outcome mapPayload_outcome).
Local Abbreviation successes := (listener_successes callback_outcome mapPayload_outcome).
Local Abbreviation deliver := (deliver_to callback_outcome mapPayload_outcome).

Lemma dispatch_unfold (fuel : nat) (reg : Registry) (event : string)
    (payload : list Value) :
  dispatch (S fuel) reg event payload =
  (let* _ := tell (Dispatched event payload) in
   withEventListeners reg event (flatMapM (deliver fuel reg payload))).
Proof. reflexivity. Qed.

Lemma dispatch_log_head (fuel : nat) (reg : Registry) (event : string)
    (payload : list Value) :
  exists rest, (dispatch fuel reg event payload).2 = Dispatched event payload :: rest.
Proof.
  destruct fuel as [|fuel]; [by eexists |].
  rewrite dispatch_unfold. unfold bind, tell.
  destruct (withEventListeners _ _ _) as [r calls]. by eexists.
Qed.

(** The [try]/[catch] around each listener: delivery never throws. *)
Lemma deliver_never_throws (fuel : nat) (reg : Registry) (payload : list Value)
    (listener : Listener) (e : Value) :
  (deliver fuel reg payload listener).1 ≠ Thrown e.
Proof.
  unfold deliver, try_catch, bind, tell, ret.
  destruct (call _ listener payload) as [[v|e'|] calls]; done.
Qed.

Lemma flatMapM_never_throws {A B} (f : A -> M (list B)) (l : list A) (e : Value) :
  (forall x, (f x).1 ≠ Thrown e) -> (flatMapM f l).1 ≠ Thrown e.
Proof.
  intros Hf. induction l as [|x l IH]; simpl; [done |].
  unfold bind. pose proof (Hf x) as Hx.
  destruct (f x) as [[ys|e'|] calls]; simpl in *; try done.
  destruct (flatMapM f l) as [[zs|e'|] calls']; simpl in *; done.
Qed.

Lemma dispatch_never_throws (fuel : nat) (reg : Registry) (event : string)
    (payload : list Value) (e : Value) :
  (dispatch fuel reg event payload).1 ≠ Thrown e.
Proof.
  destruct fuel as [|fuel]; [done |].
  rewrite dispatch_unfold. unfold bind, tell, withEventListeners.
  destruct (isEmptyObject _); [done |]. unfold bind.
  pose proof (flatMapM_never_throws (deliver fuel reg payload)
                (Object_values (getEventListeners reg event)) e
                (fun x => deliver_never_throws fuel reg payload x e)) as H.
  destruct (flatMapM _ _) as [[zs|e'|] calls]; simpl in *;
    [done | intros [= ->]; by apply H | done].
Qed.

Lemma flatMapM_deliver (fuel : nat) (reg : Registry) (payload : list Value)
    (listeners : list Listener) :
  (forall l, l ∈ listeners ->
     exists calls, deliver fuel reg payload l =
                   (Done (successes l payload), Invoked l payload :: calls)) ->
  exists calls,
    flatMapM (deliver fuel reg payload) listeners =
      (Done (concat ((fun l => successes l payload) <$> listeners)), calls) /\
    forall l, l ∈ listeners -> Invoked l payload ∈ calls.
Proof.
  induction listeners as [|x ls IH]; intros Hall; simpl.
  - exists []. split; [done |]. by intros l ?%elem_of_nil.
  - destruct (Hall x) as [cx Hx]; [apply list_elem_of_here |].
    destruct IH as (cs & Hls & Hin).
    { intros l Hl. apply Hall. by apply list_elem_of_further. }
    rewrite Hx, Hls. simpl. eexists. split; [reflexivity |].
    intros l [-> | Hl]%elem_of_cons.
    + apply list_elem_of_here.
    + apply list_elem_of_further. rewrite app_nil_r, elem_of_app.
      right. by apply Hin.
Qed.

(** With enough fuel for the nested dispatches, [dispatchEvent] returns:
    [null] without listeners, else the results of the listeners that
    returned, each listener having been invoked. *)
Lemma dispatch_returns (n : nat) :
  forall fuel reg event payload,
    depth_ok n reg event = true -> (n <= fuel)%nat ->
    exists calls,
      dispatch fuel reg event payload =
        (Done (if isEmptyObject (getEventListeners reg event) then None
               else Some (concat ((fun l => successes l payload)
                                    <$> Object_values (getEventListeners reg event)))),
         Dispatched event payload :: calls) /\
      forall l, l ∈ Object_values (getEventListeners reg event) ->
                Invoked l payload ∈ calls.
Proof.
  induction n as [|n IH]; intros fuel reg event payload Hdepth Hfuel; [done |].
  destruct fuel as [|fuel]; [lia |].
  rewrite dispatch_unfold. unfold withEventListeners.
  destruct (getEventListeners reg event) as [|p o] eqn:Ho.
  { simpl. exists []. split; [done |]. intros l.
    unfold Object_values. simpl. by intros ?%elem_of_nil. }
  simpl isEmptyObject. cbv iota.
  simpl in Hdepth. rewrite Ho in Hdepth.
  destruct (flatMapM_deliver fuel reg payload (Object_values (p :: o)))
    as (calls & Hflat & Hin).
  { intros l Hl.
    assert (Hok : match l with
                  | UserListener _ => true
                  | BaseListener d _ => depth_ok n reg d
                  end = true).
    { pose proof (proj1 (forallb_forall _ _) Hdepth l) as H.
      apply H. by apply list_elem_of_In. }
    unfold deliver, successes. destruct l as [f|d m]; simpl.
    - destruct (callback_outcome f payload); simpl; by eexists.
    - destruct (mapPayload_outcome m payload) as [v|e]; simpl; [| by eexists].
      destruct v; simpl; try by eexists.
      destruct (IH fuel reg d elements Hok) as (cs & -> & _); [lia |].
      simpl. by eexists. }
  rewrite Hflat. simpl. exists (calls ++ []). split; [done |].
  intros l Hl. rewrite app_nil_r. by apply Hin.
Qed.

(** Without a listener for the event, [dispatchEvent] returns [null] and
    invokes nothing. *)
Lemma dispatch_without_listener (n fuel : nat) (reg : Registry) (event : string)
    (payload : list Value) :
  depth_ok n reg event = true -> (n <= fuel)%nat ->
  (forall id, obj_get id (getEventListeners reg event) = None) ->
  dispatch fuel reg event payload = (Done None, [Dispatched event payload]).
Proof.
  intros Hdepth Hfuel Hnone.
  destruct n as [|n]; [done |]. destruct fuel as [|fuel]; [lia |].
  rewrite dispatch_unfold. unfold withEventListeners.
  destruct (getEventListeners reg event) as [|[k l] o]; [done |].
  specialize (Hnone k). simpl in Hnone. by rewrite decide_True in Hnone.
Qed.

(** With a listener for the event, [dispatchEvent] returns the array of
    the results of the listeners that returned, all the listeners having
    been invoked. *)
Lemma dispatch_with_listeners (n fuel : nat) (reg : Registry) (event : string)
    (payload : list Value) (id0 : string) (l0 : Listener) :
  depth_ok n reg event = true -> (n <= fuel)%nat ->
  obj_get id0 (getEventListeners reg event) = Some l0 ->
  exists calls,
    dispatch fuel reg event payload =
      (Done (Some (concat ((fun l => successes l payload)
                             <$> Object_values (getEventListeners reg event)))),
       Dispatched event payload :: calls) /\
    forall id l, obj_get id (getEventListeners reg event) = Some l ->
                 Invoked l payload ∈ calls.
Proof.
  intros Hdepth Hfuel Hsome.
  destruct (dispatch_returns n fuel reg event payload Hdepth Hfuel)
    as (calls & Hres & Hin).
  exists calls. split.
  - rewrite Hres. by destruct (getEventListeners reg event).
  - intros id l Hl. eapply Hin, obj_get_Object_values, Hl.
Qed.
End DispatchFacts.

(** C6: [dispatchEvent] never throws, whatever the listeners do.  With
    enough fuel for the nested dispatches it returns.  When no listener is
    registered for the event type, under any id, it returns [null] and
    invokes nothing.  When a listener is registered, it has invoked every
    registered listener with the payload, an exception thrown by one of
    them having been caught and dropped, and its result is the array of the
    results of the listeners that returned. *)
Theorem C6_dispatch_isolates_listeners
    (callback_outcome mapPayload_outcome : string -> list Value -> Outcome)
    (n fuel : nat) (reg : Registry) (event : string) (payload : list Value) :
  let result := dispatchEvent callback_outcome mapPayload_outcome fuel reg event payload in
  let listeners := getEventListeners reg event in
  (forall e, result.1 ≠ Thrown e) /\
  (depth_ok n reg event = true -> (n <= fuel)%nat ->
   ((forall id, obj_get id listeners = None) ->
    result = (Done None, [Dispatched event payload])) /\
   (forall id0 l0, obj_get id0 listeners = Some l0 ->
    exists calls,
      result =
        (Done (Some (concat ((fun l =>
                 match listener_outcome callback_outcome mapPayload_outcome l payload with
                 | Returns v => [v]
                 | Throws _ => []
                 end) <$> Object_values listeners))),
         Dispatched event payload :: calls) /\
      forall id l, obj_get id listeners = Some l -> Invoked l payload ∈ calls)).
Proof.
  intros result listeners. split.
  - intros e. apply dispatch_never_throws.
  - intros Hdepth Hfuel. split.
    + intros Hnone. by eapply dispatch_without_listener.
    + intros id0 l0 Hsome. by eapply dispatch_with_listeners.
Qed.

(** On the three listeners of "e", the second of which throws, and on an
    event type without listeners. *)
Lemma C6_witness :
  dispatchEvent g_throws identity_map 1 three_listeners "other" [VNumber 7] =
    (Done None, [Dispatched "other" [VNumber 7]]) /\
  exists calls,
    dispatchEvent g_throws identity_map 1 three_listeners "e" [VNumber 7] =
      (Done (Some [VString "f"; VString "h"]),
       Dispatched "e" [VNumber 7] :: calls) /\
    forall id l,
      obj_get id (getEventListeners three_listeners "e") = Some l ->
      Invoked l [VNumber 7] ∈ calls.
Proof.
  split.
  - apply (proj2 (C6_dispatch_isolates_listeners g_throws identity_map 1 1
                    three_listeners "other" [VNumber 7])); [reflexivity | lia |].
    intros id. reflexivity.
  - apply (proj2 (C6_dispatch_isolates_listeners g_throws identity_map 1 1
                    three_listeners "e" [VNumber 7]) eq_refl (le_n 1))
      with (id0 := "__listener::1__") (l0 := UserListener "f").
    reflexivity.
Defined.

(** [emitEvent] on an event type without listeners returns [null]. *)
Example dispatch_without_listeners :
  dispatchEvent g_throws identity_map 1 three_listeners "other" [] =
    (Done None, [Dispatched "other" []]).
Proof. reflexivity. Qed.

(** C5: when the hidden listener of a derived event receives a base
    payload, it applies [mapPayload] to it; if the result is an array, the
    derived event is dispatched with the elements of that array as payload;
    if the result is anything else, nothing is dispatched and no listener is
    invoked (and if [mapPayload] throws, nothing is dispatched either). *)
Theorem C5_hidden_listener_maps_payload
    (callback_outcome mapPayload_outcome : string -> list Value -> Outcome)
    (fuel : nat) (reg : Registry) (derivedEvent mapPayload : string)
    (payload : list Value) :
  let dispatch := dispatchEvent callback_outcome mapPayload_outcome fuel reg in
  let run := callListener callback_outcome mapPayload_outcome dispatch
               (BaseListener derivedEvent mapPayload) payload in
  match mapPayload_outcome mapPayload payload with
  | Returns (VArray elements) =>
      run.2 = (dispatch derivedEvent elements).2 /\
      exists rest, run.2 = Dispatched derivedEvent elements :: rest
  | Returns _ => run = (Done VUndefined, [])
  | Throws e => run = (Thrown e, [])
  end.
Proof.
  intros dispatch run. subst run. unfold callListener.
  destruct (mapPayload_outcome mapPayload payload) as [v|e]; simpl; [| done].
  destruct v; simpl; try done.
  set (inner := let* _ := dispatch derivedEvent elements in ret VUndefined).
  assert (Hlog : inner.2 = (dispatch derivedEvent elements).2).
  { subst inner. unfold bind.
    destruct (dispatch derivedEvent elements) as [[r|e|] calls];
      simpl; by rewrite ?app_nil_r. }
  destruct inner as [r calls]. simpl in *.
  split; [exact Hlog |]. rewrite Hlog. apply dispatch_log_head.
Qed.

(** ** Derived events *)

Lemma getEventListeners_set (event event' : string) (l : JSObject Listener)
    (reg : Registry) :
  getEventListeners (setEventListeners event l reg) event' =
  if decide (event' = event) then l else getEventListeners reg event'.
Proof.
  unfold getEventListeners, setEventListeners. simpl.
  case_decide as E; [subst; by rewrite lookup_insert_eq |].
  by rewrite lookup_insert_ne.
Qed.

Lemma obj_get_delete {A} (key : string) (o : JSObject A) :
  obj_get key (obj_delete key o) = None.
Proof.
  unfold obj_delete. induction o as [|[k v] o IH]; [done |].
  rewrite filter_cons. simpl. case_decide as E; [| done].
  simpl. by rewrite decide_False.
Qed.

Lemma obj_delete_idemp {A} (key : string) (o : JSObject A) :
  obj_delete key (obj_delete key o) = obj_delete key o.
Proof.
  unfold obj_delete. rewrite list_filter_filter. apply list_filter_iff. tauto.
Qed.

Lemma obj_delete_absent {A} (key : string) (o : JSObject A) :
  obj_get key o = None -> obj_delete key o = o.
Proof.
  unfold obj_delete. induction o as [|[k v] o IH]; simpl; [done |].
  case_decide as E; [done |]. intros H.
  rewrite filter_cons_True by done. by rewrite IH.
Qed.

Lemma obj_set_absent {A} (key : string) (v : A) (o : JSObject A) :
  obj_get key o = None -> obj_set key v o = o ++ [(key, v)].
Proof.
  induction o as [|[k x] o IH]; simpl; [done |].
  case_decide as E; [done |]. intros H. by rewrite IH.
Qed.

Lemma obj_get_app_new {A} (key : string) (v : A) (o : JSObject A) :
  obj_get key o = None -> obj_get key (o ++ [(key, v)]) = Some v.
Proof.
  induction o as [|[k x] o IH]; simpl.
  - by rewrite decide_True.
  - case_decide as E; [done | exact IH].
Qed.

Lemma obj_set_keys {A} (key : string) (v : A) (o : JSObject A) (k : string) :
  k ∈ obj_keys (obj_set key v o) -> k = key \/ k ∈ obj_keys o.
Proof.
  unfold obj_keys. induction o as [|[k' x] o IH]; simpl.
  - intros ->%list_elem_of_singleton. by left.
  - case_decide as E; simpl; rewrite !elem_of_cons.
    + subst k'. tauto.
    + intros [-> | H]; [tauto |]. destruct (IH H); tauto.
Qed.

Lemma obj_delete_keys {A} (key : string) (o : JSObject A) (k : string) :
  k ∈ obj_keys (obj_delete key o) <-> k ≠ key /\ k ∈ obj_keys o.
Proof.
  unfold obj_keys, obj_delete. rewrite !list_elem_of_fmap. split.
  - intros ([k' v] & -> & [Hne Hin]%list_elem_of_filter). split; [done |].
    by exists (k', v).
  - intros (Hne & [k' v] & -> & Hin). exists (k', v). split; [done |].
    by apply list_elem_of_filter.
Qed.

Lemma obj_keys_nil {A} (o : JSObject A) : (forall k, k ∉ obj_keys o) -> o = [].
Proof.
  destruct o as [|[k v] o]; [done |]. intros H. exfalso.
  apply (H k). apply list_elem_of_here.
Qed.

(** Deleting, one after the other, all the keys of an object empties it. *)
Lemma delete_all_keys {A} (ids : list string) (o : JSObject A) :
  (forall k, k ∈ obj_keys o -> k ∈ ids) ->
  foldl (fun o id => obj_delete id o) o ids = [].
Proof.
  revert o. induction ids as [|i ids IH]; intros o Hk; simpl.
  - apply obj_keys_nil. intros k Hin. by apply Hk, elem_of_nil in Hin.
  - apply IH. intros k [Hne Hin]%obj_delete_keys.
    apply Hk, elem_of_cons in Hin as [-> | ?]; done.
Qed.

Lemma delete_some_keys_nonempty {A} (ids : list string) (o : JSObject A) :
  foldl (fun o id => obj_delete id o) o ids ≠ [] -> o ≠ [].
Proof.
  intros H ->. apply H. clear H. induction ids as [|i ids IH]; [done |].
  simpl. exact IH.
Qed.

Lemma obj_assign_keys {A} (key : string) (v : A) (o : JSObject A) (k : string) :
  k ∈ obj_keys (obj_assign key v o) -> k = key \/ k ∈ obj_keys o.
Proof.
  unfold obj_assign. case_decide; [by right | apply obj_set_keys].
Qed.

Lemma has_colon_app (a b : string) :
  has_colon (a +:+ b) = has_colon a || has_colon b.
Proof.
  induction a as [|x a IH]; [done |].
  change (String x a +:+ b) with (String x (a +:+ b)). simpl.
  by rewrite IH, orb_assoc.
Qed.

(** The id of a hidden listener is no name that an object inherits. *)
Lemma baseListenerId_not_inherited (b d : string) :
  baseListenerId b d ∉ "__proto__" :: Object_prototype_methods.
Proof.
  assert (Hcolon : has_colon (baseListenerId b d) = true).
  { unfold baseListenerId. rewrite !has_colon_app.
    replace (has_colon "::") with true by reflexivity.
    by rewrite !orb_true_r. }
  assert (Hnames : Forall (fun name => has_colon name = false)
                     ("__proto__" :: Object_prototype_methods)).
  { unfold Object_prototype_methods. repeat constructor. }
  intros Hin. rewrite Forall_forall in Hnames.
  specialize (Hnames _ Hin). congruence.
Qed.

Lemma baseListenerId_not_proto (b d : string) : baseListenerId b d ≠ "__proto__".
Proof.
  intros E. apply (baseListenerId_not_inherited b d). rewrite E.
  apply list_elem_of_here.
Qed.

Lemma obj_assign_base {A} (b d : string) (v : A) (o : JSObject A) :
  obj_assign (baseListenerId b d) v o = obj_set (baseListenerId b d) v o.
Proof.
  unfold obj_assign. rewrite decide_False; [done | apply baseListenerId_not_proto].
Qed.

(** [hasEventListener], asked about the id of a hidden listener. *)
Lemma hasEventListener_base (reg : Registry) (event b d : string) :
  hasEventListener reg event (baseListenerId b d) =
    bool_decide (is_Some (obj_get (baseListenerId b d) (getEventListeners reg event))).
Proof.
  unfold hasEventListener.
  destruct (obj_get _ _) as [l|].
  - by rewrite bool_decide_eq_true_2 by eauto.
  - rewrite (bool_decide_eq_false_2 (is_Some None)) by (by intros [? ?]).
    apply bool_decide_eq_false_2, baseListenerId_not_inherited.
Qed.

Lemma hasEventListener_false (reg : Registry) (event b d : string) :
  hasEventListener reg event (baseListenerId b d) = false <->
  obj_get (baseListenerId b d) (getEventListeners reg event) = None.
Proof.
  rewrite hasEventListener_base. destruct (obj_get _ _) as [l|].
  - rewrite bool_decide_eq_true_2 by eauto. done.
  - by rewrite bool_decide_eq_false_2 by (by intros [? ?]).
Qed.

Lemma hasEventListener_true (reg : Registry) (event b d : string) :
  hasEventListener reg event (baseListenerId b d) = true <->
  is_Some (obj_get (baseListenerId b d) (getEventListeners reg event)).
Proof. rewrite hasEventListener_base. apply bool_decide_eq_true. Qed.

Lemma hasEventListeners_false (reg : Registry) (event : string) :
  hasEventListeners reg event = false <-> getEventListeners reg event = [].
Proof. unfold hasEventListeners. by destruct (getEventListeners reg event). Qed.

(** One registration for the pair [(derivedEvent, baseEvent)]. *)
Lemma registerDerivedEventListener_spec
    (rb : string -> Listener -> string -> Registry -> Registry)
    (d b : string) (s : Subscription) (reg : Registry) :
  b ≠ d -> installs_base_listener rb b d ->
  let bid := baseListenerId b d in
  let result :=
    registerDerivedEventListener d b (sub_callback s) (sub_mapPayload s)
      rb (sub_listenerId s) reg in
  exists id,
    id = match sub_listenerId s with
         | Some id => id
         | None => unique_listener_id (S (last_event_listener_id reg))
         end /\
    result.1 = closure_for d b id /\
    getEventListeners result.2 d =
      obj_assign id (sub_callback s) (getEventListeners reg d) /\
    getEventListeners result.2 b =
      if hasEventListener reg b bid then getEventListeners reg b
      else obj_set bid (BaseListener d (sub_mapPayload s)) (getEventListeners reg b).
Proof.
  intros Hne Hrb bid result. subst result. unfold registerDerivedEventListener.
  set (start := match sub_listenerId s with
                | Some id => (id, reg)
                | None => getUniqueEventListenerId reg
                end).
  assert (Hstart : forall e, getEventListeners start.2 e = getEventListeners reg e).
  { intros e. subst start. by destruct (sub_listenerId s). }
  assert (Hhas : hasEventListener start.2 b bid = hasEventListener reg b bid).
  { unfold hasEventListener. by rewrite Hstart. }
  assert (Hid : start.1 = match sub_listenerId s with
                          | Some id => id
                          | None => unique_listener_id (S (last_event_listener_id reg))
                          end).
  { subst start. by destruct (sub_listenerId s). }
  destruct start as [id reg0]. simpl in Hstart, Hhas, Hid.
  exists id. fold bid. rewrite Hhas. unfold registerEventListener. simpl.
  split; [done |]. split; [done |].
  rewrite !getEventListeners_set, decide_True by done.
  rewrite decide_False by done.
  destruct (hasEventListener reg b bid); simpl.
  - by rewrite !Hstart.
  - destruct (Hrb (BaseListener d (sub_mapPayload s)) reg0) as [Hb Hd].
    fold bid in Hb, Hd. by rewrite Hb, Hd, !Hstart.
Qed.

Lemma registerBaseListener_default_installs (b d : string) :
  b ≠ d -> installs_base_listener registerBaseListener_default b d.
Proof.
  intros Hne callback reg id.
  unfold registerBaseListener_default, registerEventListener. simpl.
  rewrite !getEventListeners_set.
  rewrite (decide_False (P := d = b)) by done.
  rewrite (decide_True (P := b = b)) by done.
  subst id. by rewrite obj_assign_base.
Qed.

(** One call of the closure returned for the pair. *)
Lemma call_unregisterDerived_spec (d b id : string) (reg : Registry) :
  b ≠ d ->
  let reg' := call_unregisterDerived (closure_for d b id) reg in
  getEventListeners reg' d = obj_delete id (getEventListeners reg d) /\
  getEventListeners reg' b =
    if isEmptyObject (obj_delete id (getEventListeners reg d))
    then obj_delete (baseListenerId b d) (getEventListeners reg b)
    else getEventListeners reg b.
Proof.
  intros Hne. unfold call_unregisterDerived, call_unregister, closure_for. simpl.
  unfold hasEventListeners, unregisterEventListener.
  rewrite !getEventListeners_set, decide_True by done.
  destruct (isEmptyObject (obj_delete id (getEventListeners reg d))) eqn:E; simpl.
  - rewrite !getEventListeners_set. split; repeat case_decide; congruence.
  - rewrite !getEventListeners_set. split; repeat case_decide; congruence.
Qed.

(** All the registrations for the pair. *)
Lemma register_all_spec
    (rb : string -> Listener -> string -> Registry -> Registry)
    (d b : string) (subs : list Subscription) (reg : Registry) :
  b ≠ d -> installs_base_listener rb b d ->
  let bid := baseListenerId b d in
  let result := register_all rb d b subs reg in
  exists ids,
    result.1 = closure_for d b <$> ids /\
    length ids = length subs /\
    (forall k, k ∈ obj_keys (getEventListeners result.2 d) ->
               k ∈ ids \/ k ∈ obj_keys (getEventListeners reg d)) /\
    getEventListeners result.2 b =
      match subs with
      | [] => getEventListeners reg b
      | s :: _ =>
          if hasEventListener reg b bid then getEventListeners reg b
          else obj_set bid (BaseListener d (sub_mapPayload s)) (getEventListeners reg b)
      end /\
    (subs ≠ [] -> hasEventListener result.2 b bid = true).
Proof.
  intros Hne Hrb bid. revert reg. induction subs as [|s subs IH]; intros reg; simpl.
  - exists []. repeat split; try done. by right.
  - destruct (registerDerivedEventListener_spec rb d b s reg Hne Hrb)
      as (id & _ & Hu & Hd & Hb).
    destruct (registerDerivedEventListener d b (sub_callback s) (sub_mapPayload s)
                rb (sub_listenerId s) reg) as [u reg1].
    simpl in Hu, Hd, Hb. subst u.
    destruct (IH reg1) as (ids & Hus & Hlen & Hkeys & Hbase & Hhas).
    destruct (register_all rb d b subs reg1) as [us reg2]. simpl in *.
    assert (Hhas1 : hasEventListener reg1 b bid = true).
    { apply hasEventListener_true. rewrite Hb. fold bid.
      destruct (hasEventListener reg b bid) eqn:E.
      - by apply hasEventListener_true in E.
      - apply hasEventListener_false in E.
        rewrite (obj_set_absent _ _ _ E), (obj_get_app_new _ _ _ E). eauto. }
    exists (id :: ids). split; [by rewrite Hus |].
    split; [simpl; by rewrite Hlen |].
    split; [| split].
    + intros k Hk. destruct (Hkeys k Hk) as [Hin | Hin].
      * left. by apply list_elem_of_further.
      * rewrite Hd in Hin. apply obj_assign_keys in Hin as [-> | Hin].
        -- left. apply list_elem_of_here.
        -- by right.
    + rewrite Hbase. destruct subs as [|s' subs]; [done |].
      fold bid in Hb. by rewrite Hhas1.
    + intros _. destruct subs as [|s' subs].
      * apply hasEventListener_true. rewrite Hbase.
        by apply hasEventListener_true.
      * by apply Hhas.
Qed.

(** Calling closures of the pair, in any number and order. *)
Lemma unregister_all_spec (d b : string) (ids : list string) (reg : Registry) :
  b ≠ d ->
  let bid := baseListenerId b d in
  let reg' := unregister_all (closure_for d b <$> ids) reg in
  getEventListeners reg' d =
    foldl (fun o id => obj_delete id o) (getEventListeners reg d) ids /\
  (getEventListeners reg' d ≠ [] -> getEventListeners reg' b = getEventListeners reg b) /\
  (getEventListeners reg' d = [] -> ids ≠ [] ->
   getEventListeners reg' b = obj_delete bid (getEventListeners reg b)).
Proof.
  intros Hne bid. revert reg. induction ids as [|id ids IH]; intros reg; simpl.
  - done.
  - destruct (call_unregisterDerived_spec d b id reg Hne) as [Hd Hb].
    set (reg1 := call_unregisterDerived (closure_for d b id) reg) in *.
    destruct (IH reg1) as (Hd' & Hkeep & Hgone).
    unfold unregister_all in *. simpl in *.
    set (reg' := foldl _ reg1 _) in *.
    split; [by rewrite Hd', Hd |]. split.
    + intros Hnonempty. rewrite (Hkeep Hnonempty), Hb.
      rewrite Hd', Hd in Hnonempty. apply delete_some_keys_nonempty in Hnonempty.
      destruct (obj_delete id (getEventListeners reg d)); done.
    + intros Hempty _. destruct ids as [|id' ids].
      * simpl in *. subst reg'. rewrite Hb. rewrite Hd in Hempty.
        by rewrite Hempty.
      * rewrite (Hgone Hempty) by done. rewrite Hb. fold bid.
        destruct (isEmptyObject _); [apply obj_delete_idemp | done].
Qed.

(** C4, as stated, fails: the hidden listener of a pair is not gone after
    all the unregister functions of the pair have been called when a
    listener remains on the derived event.  Here, as in
    [onPracticeChallengesLoaded], one callback is registered for two pairs
    that share their derived event; after the unregister function of the
    first pair has been called, the hidden listener of that pair is still
    installed, and it stays installed when the unregister function of the
    second pair has been called too. *)
Lemma C4_counterexample :
  let first :=
    registerDerivedEventListener "challenges" "session" (UserListener "cb") "map"
      registerBaseListener_default None empty_registry in
  let second :=
    registerDerivedEventListener "challenges" "prefetched" (UserListener "cb") "map"
      registerBaseListener_default None first.2 in
  let reg1 := call_unregisterDerived first.1 second.2 in
  let reg2 := call_unregisterDerived second.1 reg1 in
  getEventListeners reg1 "challenges" = [("__listener::2__", UserListener "cb")] /\
  getEventListeners reg1 "session" =
    [(baseListenerId "session" "challenges", BaseListener "challenges" "map")] /\
  getEventListeners reg2 "challenges" = [] /\
  getEventListeners reg2 "prefetched" = [] /\
  getEventListeners reg2 "session" =
    [(baseListenerId "session" "challenges", BaseListener "challenges" "map")].
Proof. vm_compute. repeat split. Qed.

(** C4 (amended): let one or more derived listeners be registered for the
    same pair [(derivedEvent, baseEvent)] of distinct event types, neither
    of which is "__proto__", with [registerEventListener] or any other
    [registerBaseListener] that registers on the base event.  Then the
    hidden listener is installed on the base event, once: the listeners of
    the base event are those it had, plus, if no hidden listener of the pair
    was installed yet, the hidden listener made for the first
    registration.  Once all the returned unregister functions have been
    called, in any order, the hidden listener is gone if and only if no
    listener remains on the derived event; in particular it is gone, with no
    other change to the listeners of the base event, when the derived event
    had no listener before the registrations. *)
Theorem C4_one_hidden_base_listener
    (registerBaseListener : string -> Listener -> string -> Registry -> Registry)
    (derivedEvent baseEvent : string) (subs : list Subscription)
    (order : list UnregisterDerived) (reg0 : Registry) :
  baseEvent ≠ derivedEvent ->
  baseEvent ≠ "__proto__" -> derivedEvent ≠ "__proto__" ->
  installs_base_listener registerBaseListener baseEvent derivedEvent ->
  subs ≠ [] ->
  let bid := baseListenerId baseEvent derivedEvent in
  let closures :=
    (register_all registerBaseListener derivedEvent baseEvent subs reg0).1 in
  let reg1 :=
    (register_all registerBaseListener derivedEvent baseEvent subs reg0).2 in
  (exists first,
     head subs = Some first /\
     getEventListeners reg1 baseEvent =
       match obj_get bid (getEventListeners reg0 baseEvent) with
       | Some _ => getEventListeners reg0 baseEvent
       | None => getEventListeners reg0 baseEvent
                   ++ [(bid, BaseListener derivedEvent (sub_mapPayload first))]
       end) /\
  is_Some (obj_get bid (getEventListeners reg1 baseEvent)) /\
  length closures = length subs /\
  (order ≡ₚ closures ->
   let reg2 := unregister_all order reg1 in
   (obj_get bid (getEventListeners reg2 baseEvent) = None <->
    getEventListeners reg2 derivedEvent = []) /\
   (getEventListeners reg2 derivedEvent ≠ [] ->
    getEventListeners reg2 baseEvent = getEventListeners reg1 baseEvent) /\
   (getEventListeners reg0 derivedEvent = [] ->
    getEventListeners reg2 derivedEvent = [] /\
    getEventListeners reg2 baseEvent = obj_delete bid (getEventListeners reg0 baseEvent))).
Proof.
  intros Hne _ _ Hrb Hsubs bid closures reg1.
  destruct (register_all_spec registerBaseListener derivedEvent baseEvent subs reg0
              Hne Hrb)
    as (ids & Hclosures & Hlen & Hkeys & Hbase & Hhas).
  fold closures in Hclosures. fold reg1 in Hkeys, Hbase, Hhas. fold bid in Hbase, Hhas.
  specialize (Hhas Hsubs). apply hasEventListener_true in Hhas. fold bid in Hhas.
  assert (Hbase1 : exists first,
            head subs = Some first /\
            getEventListeners reg1 baseEvent =
              match obj_get bid (getEventListeners reg0 baseEvent) with
              | Some _ => getEventListeners reg0 baseEvent
              | None => getEventListeners reg0 baseEvent
                          ++ [(bid, BaseListener derivedEvent (sub_mapPayload first))]
              end).
  { destruct subs as [|s subs]; [done |]. exists s. split; [done |].
    rewrite Hbase. destruct (hasEventListener reg0 baseEvent bid) eqn:E.
    - apply hasEventListener_true in E as [l El]. fold bid in El. by rewrite El.
    - apply hasEventListener_false in E. fold bid in E. rewrite E.
      by apply obj_set_absent. }
  split; [exact Hbase1 |]. split; [exact Hhas |].
  split; [by rewrite Hclosures, length_fmap |].
  intros Horder reg2.
  (* the closures called are those of the pair, for a permutation of the ids *)
  assert (Hform : order = closure_for derivedEvent baseEvent <$> (closure_id <$> order)).
  { rewrite <- list_fmap_compose. rewrite <- (list_fmap_id order) at 1.
    apply list_fmap_ext. intros i u Hu.
    assert (Hin : u ∈ closures).
    { rewrite <- Horder. apply list_elem_of_lookup. eauto. }
    rewrite Hclosures in Hin. by apply list_elem_of_fmap in Hin as (id & -> & _). }
  assert (Hids : closure_id <$> order ≡ₚ ids).
  { rewrite Horder, Hclosures, <- list_fmap_compose.
    rewrite <- (list_fmap_id ids) at 2.
    by rewrite (list_fmap_ext (closure_id ∘ closure_for derivedEvent baseEvent) id ids). }
  set (ids' := closure_id <$> order) in *.
  assert (Hnonempty : ids' ≠ []).
  { intros Hnil. rewrite Hnil in Hids. apply Permutation_nil_l in Hids.
    subst ids. destruct subs; done. }
  destruct (unregister_all_spec derivedEvent baseEvent ids' reg1 Hne)
    as (Hd & Hkeep & Hgone).
  rewrite <- Hform in Hd, Hkeep, Hgone. fold reg2 in Hd, Hkeep, Hgone.
  fold bid in Hgone.
  split; [| split].
  - split.
    + intros Hno.
      destruct (getEventListeners reg2 derivedEvent) as [|p o] eqn:E; [done |].
      rewrite Hkeep in Hno by done. rewrite Hno in Hhas. by destruct Hhas.
    + intros Hempty. rewrite (Hgone Hempty Hnonempty). apply obj_get_delete.
  - exact Hkeep.
  - intros Hfree.
    assert (Hempty : getEventListeners reg2 derivedEvent = []).
    { rewrite Hd. apply delete_all_keys. intros k Hk.
      destruct (Hkeys k Hk) as [Hin | Hin].
      - by rewrite Hids.
      - rewrite Hfree in Hin. by apply elem_of_nil in Hin. }
    split; [exact Hempty |]. rewrite (Hgone Hempty Hnonempty).
    destruct Hbase1 as (first & _ & ->).
    destruct (obj_get bid (getEventListeners reg0 baseEvent)) eqn:E; [done |].
    unfold obj_delete. rewrite filter_app.
    rewrite filter_cons_False by (simpl; intros E'; by apply E').
    by rewrite app_nil_r.
Qed.

(** Two listeners derived from "raw", unregistered in reverse order: the
    hidden listener is installed, and gone in the end; with another
    listener on "parsed" it stays. *)
Lemma C4_witness :
  let bid := baseListenerId "raw" "parsed" in
  let reg1 := (register_all registerBaseListener_default "parsed" "raw"
                 two_subscriptions empty_registry).2 in
  let order := [ closure_for "parsed" "raw" "__listener::2__";
                 closure_for "parsed" "raw" "__listener::1__" ] in
  let reg2 := unregister_all order reg1 in
  let reg0' := (registerEventListener "parsed" (UserListener "other") None
                  empty_registry).2 in
  let reg1' := (register_all registerBaseListener_default "parsed" "raw"
                  two_subscriptions reg0').2 in
  let order' := [ closure_for "parsed" "raw" "__listener::3__";
                  closure_for "parsed" "raw" "__listener::2__" ] in
  let reg2' := unregister_all order' reg1' in
  is_Some (obj_get bid (getEventListeners reg1 "raw")) /\
  getEventListeners reg2 "parsed" = [] /\
  getEventListeners reg2 "raw" = [] /\
  getEventListeners reg2' "parsed" ≠ [] /\
  getEventListeners reg2' "raw" = getEventListeners reg1' "raw" /\
  is_Some (obj_get bid (getEventListeners reg2' "raw")).
Proof.
  intros bid reg1 order reg2 reg0' reg1' order' reg2'.
  destruct (C4_one_hidden_base_listener registerBaseListener_default
              "parsed" "raw" two_subscriptions order empty_registry)
    as (_ & Hone & _ & Hgone); [discriminate | discriminate | discriminate
      | apply registerBaseListener_default_installs; discriminate | discriminate |].
  destruct (C4_one_hidden_base_listener registerBaseListener_default
              "parsed" "raw" two_subscriptions order' reg0')
    as (_ & Hone' & _ & Hkept); [discriminate | discriminate | discriminate
      | apply registerBaseListener_default_installs; discriminate | discriminate |].
  destruct Hgone as (_ & _ & Hgone); [vm_compute; apply perm_swap |].
  destruct (Hgone eq_refl) as [Hd Hb].
  destruct Hkept as (_ & Hkept & _); [vm_compute; apply perm_swap |].
  assert (Hremains : getEventListeners reg2' "parsed" ≠ []) by (vm_compute; discriminate).
  split; [exact Hone |]. split; [exact Hd |]. split; [exact Hb |].
  split; [exact Hremains |]. split; [exact (Hkept Hremains) |].
  pose proof (Hkept Hremains) as Hsame. fold reg1' reg2' in Hsame.
  rewrite Hsame. exact Hone'.
Defined.

(** The hidden listener stays as long as another listener remains on the
    derived event. *)
Example hidden_listener_kept_for_other_listener :
  let bid := baseListenerId "raw" "parsed" in
  let reg0 := (registerEventListener "parsed" (UserListener "other") None
                 empty_registry).2 in
  let reg1 := (register_all registerBaseListener_default "parsed" "raw"
                 two_subscriptions reg0).2 in
  let reg2 := unregister_all
                [ closure_for "parsed" "raw" "__listener::2__";
                  closure_for "parsed" "raw" "__listener::3__" ] reg1 in
  hasEventListeners reg2 "parsed" = true /\ hasEventListener reg2 "raw" bid = true.
Proof. vm_compute. split; reflexivity. Qed.

(** An event derived from itself: the hidden listener is a listener of the
    derived event, so it is never removed. *)
Example hidden_listener_kept_when_base_is_derived :
  let bid := baseListenerId "e" "e" in
  let reg1 := (register_all registerBaseListener_default "e" "e"
                 two_subscriptions empty_registry).2 in
  let reg2 := unregister_all
                [ closure_for "e" "e" "__listener::1__";
                  closure_for "e" "e" "__listener::2__" ] reg1 in
  hasEventListener reg2 "e" bid = true.
Proof. vm_compute. reflexivity. Qed.

(** ** Deferred and immediate callbacks *)





(** * Properties of the other helpers of utils/functions.js *)

Lemma indexOf_nonneg {A : Type} `{EqDecision A} (array : list A) (value : A) :
  0 <= Functions.indexOf array value <-> value ∈ array.
Proof.
  unfold Functions.indexOf.
  destruct (list_find (fun x => x = value) array) as [[i x]|] eqn:E.
  - apply list_find_Some in E as (Hi & -> & _). split; [| lia].
    intros _. by eapply list_elem_of_lookup_2.
  - split; [lia |]. intros Hin.
    eapply list_find_None, Forall_forall in E; [| exact Hin]. done.
Qed.

(** X1: [isSupersetOf(xs, ys)] holds exactly when every element of its FIRST
    argument occurs in its second argument. *)
Theorem isSupersetOf_first_within_second {A : Type} `{EqDecision A} (xs ys : list A) :
  Functions.isSupersetOf xs ys = true <-> forall x, x ∈ xs -> x ∈ ys.
Proof.
  unfold Functions.isSupersetOf. rewrite forallb_forall. split.
  - intros Hall x Hx. apply indexOf_nonneg, Z.leb_le, Hall.
    by apply list_elem_of_In.
  - intros Hall x Hx. apply Z.leb_le, indexOf_nonneg, Hall.
    by apply list_elem_of_In.
Qed.

(** ** [minBy], [maxOf], [minOf] *)

Lemma extremumBy_loop_lt_gt {A : Type} (f : A -> Z) (l : list A)
    (selected : option A) (extremum : option Z) :
  extremumBy_loop f Functions.lt l selected extremum =
  extremumBy_loop (fun x => - f x) gt l selected (Z.opp <$> extremum).
Proof.
  revert selected extremum. induction l as [|x l IH]; intros s e; simpl; [done |].
  destruct e as [e|]; simpl.
  - unfold Functions.lt, gt.
    destruct (Z.ltb_spec (f x) e), (Z.ltb_spec (- e) (- f x)); try lia; apply IH.
  - apply IH.
Qed.

(** X2: [minBy] returns the first of the values whose calculated value is the
    smallest, and [undefined] only for an empty list. *)
Theorem minBy_first_smallest {A : Type} (values : list A) (getter : A -> Z) :
  match Functions.minBy values getter with
  | Some selected =>
      exists before after, values = before ++ selected :: after /\
        Forall (fun x => getter selected < getter x) before /\
        Forall (fun x => getter selected <= getter x) after
  | None => values = []
  end.
Proof.
  unfold Functions.minBy, extremumBy. rewrite extremumBy_loop_lt_gt. simpl.
  change (extremumBy_loop (fun x => - getter x) gt values None None)
    with (maxBy values (fun x => - getter x)).
  destruct (maxBy values (fun x => - getter x)) as [h|] eqn:E.
  - apply maxBy_Some in E as (l1 & l2 & -> & H1 & H2).
    exists l1, l2. split; [done |]. split.
    + eapply Forall_impl; [exact H1 |]. simpl. intros; lia.
    + eapply Forall_impl; [exact H2 |]. simpl. intros; lia.
  - by apply maxBy_None in E.
Qed.


(** X4: [partition] returns the values that match the predicate and those
    that do not, each in their original order. *)
Theorem partition_filters {A : Type} (values : list A) (predicate : A -> bool) :
  Functions.partition values predicate =
    (filter (fun x => predicate x = true) values,
     filter (fun x => predicate x = false) values).
Proof.
  unfold Functions.partition.
  enough (forall yes no,
    foldl (fun result value =>
             if predicate value then (result.1 ++ [value], result.2)
             else (result.1, result.2 ++ [value])) (yes, no) values =
    (yes ++ filter (fun x => predicate x = true) values,
     no ++ filter (fun x => predicate x = false) values)) as H by apply (H [] []).
  induction values as [|v values IH]; intros yes no; simpl.
  - by rewrite !app_nil_r.
  - rewrite !filter_cons. destruct (predicate v) eqn:E; simpl; rewrite IH.
    + by rewrite <- app_assoc.
    + by rewrite <- app_assoc.
Qed.

(** ** [compareWith] *)

(** X5: [compareWith] returns the result of the first comparator whose
    result is a number other than 0, and 0 when there is no such
    comparator. *)
Theorem compareWith_first_decisive {A : Type}
    (comparators : list (Functions.Comparator A)) (x y : A) :
  let undecided (c : Functions.Comparator A) := c x y = None \/ c x y = Some 0 in
  (Functions.compareWith comparators x y = 0 <-> Forall undecided comparators) /\
  (forall before c after result,
     comparators = before ++ c :: after -> Forall undecided before ->
     c x y = Some result -> result ≠ 0 ->
     Functions.compareWith comparators x y = result).
Proof.
  intros undecided. split.
  - induction comparators as [|c cs IH]; simpl; [by split |].
    destruct (c x y) as [r|] eqn:E.
    + case_bool_decide as Hr.
      * split; [congruence |]. intros Hall. apply Forall_cons in Hall as [[H|H] _].
        -- congruence.
        -- rewrite E in H. congruence.
      * rewrite IH. assert (r = 0) as -> by lia. split.
        -- intros Hall. constructor; [by right | done].
        -- by intros [_ ?]%Forall_cons.
    + rewrite IH. split.
      * intros Hall. constructor; [by left | done].
      * by intros [_ ?]%Forall_cons.
  - intros before c after result -> Hbefore Hc Hresult.
    induction Hbefore as [|c' cs [Hc'|Hc'] _ IH]; simpl.
    + rewrite Hc. by rewrite bool_decide_true.
    + rewrite Hc'. exact IH.
    + rewrite Hc'. rewrite bool_decide_false by (intros H; by apply H). exact IH.
Qed.

(** ** Relevance of sound data *)

Lemma compareSoundDataRelevance_cases (a b : Sounds.SoundData) :
  let '(ta, sa) := Sounds.relevance a in
  let '(tb, sb) := Sounds.relevance b in
  Sounds.compareSoundDataRelevance a b = if decide (ta = tb) then sa - sb else ta - tb.
Proof.
  unfold Sounds.relevance, Sounds.compareSoundDataRelevance. simpl.
  repeat case_bool_decide; case_decide; lia.
Qed.

(** X6: [compareSoundDataRelevance] compares the types by their rank in
    [SOUND_TYPE_RELEVANCE], then the speeds by their rank in
    [SOUND_SPEED_RELEVANCE]; it is positive exactly when the first data
    rank higher, zero exactly on equal ranks, and swapping the arguments
    negates it. *)
Theorem compareSoundDataRelevance_lexicographic (a b : Sounds.SoundData) :
  (0 < Sounds.compareSoundDataRelevance a b <->
     Sounds.more_relevant (Sounds.relevance a) (Sounds.relevance b)) /\
  (Sounds.compareSoundDataRelevance a b = 0 <->
     Sounds.relevance a = Sounds.relevance b) /\
  Sounds.compareSoundDataRelevance b a = - Sounds.compareSoundDataRelevance a b.
Proof.
  pose proof (compareSoundDataRelevance_cases a b) as Hab.
  pose proof (compareSoundDataRelevance_cases b a) as Hba.
  unfold Sounds.more_relevant.
  destruct (Sounds.relevance a) as [ta sa], (Sounds.relevance b) as [tb sb].
  simpl. rewrite Hab, Hba. repeat case_decide; split_and!; try split;
    try intros [= -> ->]; try intros [-> ->]; intros; try f_equal; lia.
Qed.

Lemma obj_get_set {A : Type} (key key' : string) (v : A) (o : JSObject A) :
  obj_get key (obj_set key' v o) =
    if decide (key = key') then Some v else obj_get key o.
Proof.
  induction o as [|[k x] o IH]; simpl.
  - repeat case_decide; congruence.
  - repeat (case_decide; simpl); try congruence.
Qed.

Lemma compareSoundDataRelevance_trans (a b c : Sounds.SoundData) :
  0 <= Sounds.compareSoundDataRelevance a b ->
  0 <= Sounds.compareSoundDataRelevance b c ->
  0 <= Sounds.compareSoundDataRelevance a c.
Proof.
  pose proof (compareSoundDataRelevance_cases a b) as Hab.
  pose proof (compareSoundDataRelevance_cases b c) as Hbc.
  pose proof (compareSoundDataRelevance_cases a c) as Hac.
  destruct (Sounds.relevance a) as [ta sa], (Sounds.relevance b) as [tb sb],
    (Sounds.relevance c) as [tc sc].
  rewrite Hab, Hbc, Hac. repeat case_decide; lia.
Qed.

Lemma compareSoundDataRelevance_swap (a b : Sounds.SoundData) :
  Sounds.compareSoundDataRelevance b a = - Sounds.compareSoundDataRelevance a b.
Proof.
  pose proof (compareSoundDataRelevance_cases a b) as Hab.
  pose proof (compareSoundDataRelevance_cases b a) as Hba.
  destruct (Sounds.relevance a) as [ta sa], (Sounds.relevance b) as [tb sb].
  rewrite Hab, Hba. repeat case_decide; lia.
Qed.

Lemma compareSoundDataRelevance_refl (a : Sounds.SoundData) :
  Sounds.compareSoundDataRelevance a a = 0.
Proof.
  pose proof (compareSoundDataRelevance_cases a a) as Haa.
  destruct (Sounds.relevance a) as [ta sa]. rewrite Haa. case_decide; lia.
Qed.

Section RegisterSoundsData.
Variable URL_pathname : string -> option string.

Local Abbreviation path_of d := (Sounds.getUrlPath URL_pathname (Sounds.url d)).
Local Abbreviation register := (Sounds.registerSoundsData URL_pathname).

Lemma registerSoundsData_cons (d : Sounds.SoundData) (newData : list Sounds.SoundData)
    (soundsData : JSObject Sounds.SoundData) :
  register (d :: newData) soundsData = register newData (register [d] soundsData).
Proof. reflexivity. Qed.

(** One step of the loop. *)
Lemma registerSoundsData_one (d : Sounds.SoundData) (soundsData : JSObject Sounds.SoundData)
    (path : string) :
  obj_get path (register [d] soundsData) =
    if decide (path = path_of d) then
      match obj_get path soundsData with
      | Some existing =>
          if 0 <? Sounds.compareSoundDataRelevance d existing then Some d else Some existing
      | None => Some d
      end
    else obj_get path soundsData.
Proof.
  unfold Sounds.registerSoundsData. simpl.
  case_decide as E.
  - subst path. destruct (obj_get _ soundsData) as [e|] eqn:Eget.
    + destruct (0 <? _); [| done]. rewrite obj_get_set. by rewrite decide_True.
    + rewrite obj_get_set. by rewrite decide_True.
  - destruct (obj_get (path_of d) soundsData) as [e|] eqn:Eget.
    + destruct (0 <? _); [| done]. rewrite obj_get_set. by rewrite decide_False.
    + rewrite obj_get_set. by rewrite decide_False.
Qed.

Lemma registerSoundsData_keeps (newData : list Sounds.SoundData)
    (soundsData : JSObject Sounds.SoundData) (path : string) (e : Sounds.SoundData) :
  obj_get path soundsData = Some e ->
  exists e', obj_get path (register newData soundsData) = Some e' /\
    0 <= Sounds.compareSoundDataRelevance e' e.
Proof.
  revert soundsData e. induction newData as [|d newData IH]; intros soundsData e He.
  - exists e. split; [done |]. by rewrite compareSoundDataRelevance_refl.
  - rewrite registerSoundsData_cons.
    pose proof (registerSoundsData_one d soundsData path) as Hone.
    rewrite He in Hone. case_decide as E.
    + destruct (Z.ltb_spec 0 (Sounds.compareSoundDataRelevance d e)) as [Hlt|Hge].
      * apply IH in Hone as (e' & He' & Hrel). exists e'. split; [done |].
        eapply compareSoundDataRelevance_trans; [exact Hrel | lia].
      * by apply IH in Hone.
    + by apply IH in Hone.
Qed.

Lemma registerSoundsData_origin (newData : list Sounds.SoundData)
    (soundsData : JSObject Sounds.SoundData) (path : string) (e' : Sounds.SoundData) :
  obj_get path (register newData soundsData) = Some e' ->
  obj_get path soundsData = Some e' \/ (e' ∈ newData /\ path_of e' = path).
Proof.
  revert soundsData. induction newData as [|d newData IH]; intros soundsData He'.
  - by left.
  - rewrite registerSoundsData_cons in He'. apply IH in He' as [He'|[Hin Hp]].
    + rewrite registerSoundsData_one in He'. case_decide as E.
      * destruct (obj_get path soundsData) as [e|].
        -- destruct (0 <? _).
           ++ injection He' as <-. right. split; [apply list_elem_of_here | done].
           ++ by left.
        -- injection He' as <-. right. split; [apply list_elem_of_here | done].
      * by left.
    + right. split; [by apply list_elem_of_further | done].
Qed.

End RegisterSoundsData.

(** X7: [registerSoundsData] keeps, for each path, the most relevant data:
    the data found under a path afterwards are as relevant as those found
    there before and as any new data with that path, and they are the
    previous data or one of the new data with that path. *)
Theorem registerSoundsData_keeps_most_relevant
    (URL_pathname : string -> option string)
    (newData : list Sounds.SoundData) (soundsData : JSObject Sounds.SoundData) :
  let after := Sounds.registerSoundsData URL_pathname newData soundsData in
  let path_of d := Sounds.getUrlPath URL_pathname (Sounds.url d) in
  (forall path e, obj_get path soundsData = Some e ->
     exists e', obj_get path after = Some e' /\
       0 <= Sounds.compareSoundDataRelevance e' e) /\
  (forall d, d ∈ newData ->
     exists e', obj_get (path_of d) after = Some e' /\
       0 <= Sounds.compareSoundDataRelevance e' d) /\
  (forall path e', obj_get path after = Some e' ->
     obj_get path soundsData = Some e' \/ (e' ∈ newData /\ path_of e' = path)).
Proof.
  intros after path_of. split_and!.
  - intros path e. apply registerSoundsData_keeps.
  - subst after. revert soundsData.
    induction newData as [|d0 newData IH]; intros soundsData d Hd; [by inversion Hd |].
    rewrite registerSoundsData_cons.
    apply elem_of_cons in Hd as [->|Hd]; [| by apply IH].
    pose proof (registerSoundsData_one URL_pathname d0 soundsData (path_of d0)) as Hone.
    rewrite decide_True in Hone by done.
    destruct (obj_get (path_of d0) soundsData) as [e|].
    + destruct (Z.ltb_spec 0 (Sounds.compareSoundDataRelevance d0 e)) as [Hlt|Hge].
      * eapply registerSoundsData_keeps in Hone as (e' & He' & Hrel). by exists e'.
      * eapply registerSoundsData_keeps in Hone as (e' & He' & Hrel).
        exists e'. split; [exact He' |].
        eapply compareSoundDataRelevance_trans; [exact Hrel |].
        rewrite compareSoundDataRelevance_swap. lia.
    + eapply registerSoundsData_keeps in Hone as (e' & He' & Hrel). by exists e'.
  - intros path e'. apply registerSoundsData_origin.
Qed.

(** ** [groupBy] *)

Lemma filter_none {A : Type} (P : A -> Prop) `{forall x, Decision (P x)} (l : list A) :
  Forall (fun x => ~ P x) l -> filter P l = [].
Proof.
  induction 1 as [|x l Hx _ IH]; [done |]. by rewrite filter_cons_False.
Qed.

Section GroupBy.
Context {A : Type} (inherited : string -> bool) (getter : A -> string).

(** The group of [key] among [values]. *)
Local Abbreviation group_of key values := (filter (fun v => getter v = key) values).

Lemma groupBy_snoc (values : list A) (value : A) (result : JSObject (list A)) :
  Functions.groupBy inherited values getter = Done result ->
  Functions.groupBy inherited (values ++ [value]) getter =
    let key := getter value in
    let result :=
      if Functions.has_property inherited result key then result
      else obj_set key [] result in
    match obj_get key result with
    | Some group => Done (obj_set key (group ++ [value]) result)
    | None => Thrown (VError "TypeError")
    end.
Proof.
  unfold Functions.groupBy. rewrite foldl_app. simpl. by intros ->.
Qed.

Lemma groupBy_own_keys (values : list A) :
  Forall (fun v => inherited (getter v) = false) values ->
  exists result, Functions.groupBy inherited values getter = Done result /\
    forall key, obj_get key result =
      match group_of key values with [] => None | group => Some group end.
Proof.
  induction values as [|v values IH] using rev_ind; intros Hall.
  - by exists [].
  - apply Forall_app in Hall as [Hall Hv]. rewrite Forall_singleton in Hv.
    destruct (IH Hall) as (result & Hresult & Hget).
    rewrite (groupBy_snoc _ _ _ Hresult). simpl.
    unfold Functions.has_property. rewrite Hv.
    pose proof (Hget (getter v)) as Hkey.
    destruct (obj_get (getter v) result) as [group|] eqn:E.
    + rewrite E. eexists. split; [done |]. intros key.
      rewrite obj_get_set, filter_app, filter_cons, filter_nil.
      case_decide as Ek.
      * subst key. rewrite decide_True by done.
        destruct (group_of (getter v) values); [done |].
        injection Hkey as ->. by destruct l.
      * rewrite decide_False by done. rewrite app_nil_r. apply Hget.
    + rewrite obj_get_set, decide_True by done.
      eexists. split; [done |]. intros key.
      rewrite !obj_get_set, filter_app, filter_cons, filter_nil.
      case_decide as Ek.
      * subst key. rewrite decide_True by done.
        by destruct (group_of (getter v) values).
      * rewrite decide_False by done. rewrite app_nil_r. apply Hget.
Qed.

Lemma groupBy_failed (values rest : list A) (e : Value) :
  Functions.groupBy inherited values getter = Thrown e ->
  Functions.groupBy inherited (values ++ rest) getter = Thrown e.
Proof.
  unfold Functions.groupBy. rewrite foldl_app. intros ->.
  by induction rest.
Qed.

Lemma groupBy_inherited_key (values : list A) :
  Exists (fun v => inherited (getter v) = true) values ->
  Functions.groupBy inherited values getter = Thrown (VError "TypeError").
Proof.
  induction values as [|v values IH] using rev_ind; intros Hex.
  - by inversion Hex.
  - destruct (decide (Exists (fun v => inherited (getter v) = true) values)) as [H|H].
    + by apply groupBy_failed, IH.
    + apply Exists_app in Hex as [Hex|Hex]; [done |].
      apply Exists_cons in Hex as [Hv|Hex]; [| by inversion Hex].
      apply not_Exists_Forall in H; [| intros x; apply _].
      assert (Forall (fun v => inherited (getter v) = false) values) as Hall.
      { eapply Forall_impl; [exact H |]. simpl. intros x Hx.
        by destruct (inherited (getter x)). }
      destruct (groupBy_own_keys values Hall) as (result & Hresult & Hget).
      rewrite (groupBy_snoc _ _ _ Hresult). simpl.
      unfold Functions.has_property.
      assert (obj_get (getter v) result = None) as Hnone.
      { rewrite Hget. rewrite filter_none; [done |].
        eapply Forall_impl; [exact Hall |]. simpl. intros x Hx Heq.
        rewrite Heq in Hx. congruence. }
      rewrite Hnone, Hv. by rewrite Hnone.
Qed.

End GroupBy.

(** X8: [groupBy] maps each key to the values with that key, in their
    original order, as long as no key is the name of a property that
    objects inherit; when a key is such a name, [groupBy] throws a
    TypeError. *)
Theorem groupBy_groups_or_throws {A : Type} (inherited : string -> bool)
    (values : list A) (getter : A -> string) :
  if decide (Forall (fun v => inherited (getter v) = false) values) then
    exists result, Functions.groupBy inherited values getter = Done result /\
      forall key, obj_get key result =
        match filter (fun v => getter v = key) values with
        | [] => None
        | group => Some group
        end
  else Functions.groupBy inherited values getter = Thrown (VError "TypeError").
Proof.
  case_decide as Hall.
  - by apply groupBy_own_keys.
  - apply groupBy_inherited_key. apply not_Forall_Exists in Hall; [| intros x; apply _].
    eapply Exists_impl; [exact Hall |]. simpl. intros x Hx.
    by destruct (inherited (getter x)).
Qed.

(** ** [Map] objects *)

Section JSMapFacts.
Context {K V : Type} `{EqDecision K}.
Implicit Types (m : Functions.JSMap K V) (key : K) (value : V).


Lemma Map_get_Some_keys key value m :
  Functions.Map_get key m = Some value -> (key, value) ∈ m.
Proof.
  induction m as [|[k x] m IH]; simpl; [done |].
  case_decide as E.
  - intros [= ->]. subst k. apply list_elem_of_here.
  - intros Hget. by apply list_elem_of_further, IH.
Qed.

Lemma Map_get_None_keys key m :
  Functions.Map_get key m = None -> key ∉ m.*1.
Proof.
  induction m as [|[k x] m IH]; simpl; [intros _; apply not_elem_of_nil |].
  case_decide as E; [done |]. intros Hget.
  apply not_elem_of_cons. split; [done | by apply IH].
Qed.

Lemma Map_get_keys key value m :
  NoDup m.*1 -> (key, value) ∈ m -> Functions.Map_get key m = Some value.
Proof.
  induction m as [|[k x] m IH]; simpl; [by intros _ ?%elem_of_nil |].
  intros [Hk Hm]%NoDup_cons Hin. apply elem_of_cons in Hin as [[= -> ->]|Hin].
  - by rewrite decide_True.
  - rewrite decide_False; [by apply IH |].
    intros ->. apply Hk. apply list_elem_of_fmap. by exists (key, value).
Qed.

Lemma Map_set_keys key value m :
  (Functions.Map_set key value m).*1 =
    if decide (key ∈ m.*1) then m.*1 else m.*1 ++ [key].
Proof.
  induction m as [|[k x] m IH]; [done |].
  cbn [Functions.Map_set]. destruct (decide (k = key)) as [->|E].
  - rewrite !fmap_cons. simpl. rewrite decide_True by apply list_elem_of_here. done.
  - rewrite !fmap_cons, IH. simpl. destruct (decide (key ∈ m.*1)) as [Hin|Hin].
    + rewrite decide_True by (by apply list_elem_of_further). done.
    + rewrite decide_False; [done |]. intros [?|?]%elem_of_cons; congruence.
Qed.

Lemma Map_set_elem_of key value m (entry : K * V) :
  entry ∈ Functions.Map_set key value m -> entry = (key, value) \/ entry ∈ m.
Proof.
  induction m as [|[k x] m IH]; simpl.
  - intros ?%list_elem_of_singleton. by left.
  - case_decide as E.
    + intros [->|Hin]%elem_of_cons.
      * subst k. by left.
      * right. by apply list_elem_of_further.
    + intros [->|Hin]%elem_of_cons.
      * right. apply list_elem_of_here.
      * apply IH in Hin as [->|Hin]; [by left |].
        right. by apply list_elem_of_further.
Qed.

Lemma Map_set_NoDup key value m :
  NoDup m.*1 -> NoDup (Functions.Map_set key value m).*1.
Proof.
  intros Hm. rewrite Map_set_keys. case_decide as E; [done |].
  apply NoDup_app. split_and!; [done | | apply NoDup_singleton].
  intros k Hk ->%list_elem_of_singleton. done.
Qed.

Lemma Map_delete_keys key m :
  (Functions.Map_delete key m).*1 = filter (fun k => k ≠ key) m.*1.
Proof.
  unfold Functions.Map_delete. induction m as [|[k x] m IH]; [done |].
  rewrite fmap_cons, !filter_cons. simpl.
  destruct (decide (k ≠ key)); [| done]. by rewrite fmap_cons, IH.
Qed.

End JSMapFacts.

(** ** [dedupeBy] *)

Section DedupeBy.
Context {A K : Type} `{EqDecision K} (choose : A -> A -> K -> Z) (map : A -> K).

Lemma dedupeBy_step_spec (deduped : Functions.JSMap K A) (v : A) :
  NoDup deduped.*1 ->
  let next := Functions.dedupeBy_step choose map deduped v in
  NoDup next.*1 /\
  (forall k x, (k, x) ∈ next -> (k, x) ∈ deduped \/ (x = v /\ map x = k)) /\
  (forall k, k ∈ deduped.*1 \/ k = map v -> k ∈ next.*1).
Proof.
  intros Hnodup. unfold Functions.dedupeBy_step. simpl.
  destruct (Functions.Map_get (map v) deduped) as [kept|] eqn:Eget.
  - destruct (choose kept v (map v) =? 1).
    + split_and!.
      * apply Map_set_NoDup. rewrite Map_delete_keys. by apply NoDup_filter.
      * intros k x [[= -> ->]|Hin]%Map_set_elem_of; [by right |].
        left. unfold Functions.Map_delete in Hin.
        by apply list_elem_of_filter in Hin as [_ ?].
      * intros k Hk. rewrite Map_set_keys, Map_delete_keys.
        case_decide as E; [| apply elem_of_app].
        -- destruct (decide (k = map v)) as [->|Hne]; [done |].
           apply list_elem_of_filter. split; [done |].
           by destruct Hk.
        -- destruct (decide (k = map v)) as [->|Hne].
           ++ right. apply list_elem_of_singleton. done.
           ++ left. apply list_elem_of_filter. split; [done |]. by destruct Hk.
    + split_and!; [done | by left |].
      intros k [Hk| ->]; [done |].
      apply Map_get_Some_keys in Eget. apply list_elem_of_fmap.
      by exists (map v, kept).
  - split_and!.
    + by apply Map_set_NoDup.
    + intros k x [[= -> ->]|Hin]%Map_set_elem_of; [by right | by left].
    + intros k Hk. rewrite Map_set_keys. case_decide as E.
      * destruct Hk as [Hk| ->]; done.
      * apply elem_of_app. destruct Hk as [Hk| ->]; [by left |].
        right. by apply list_elem_of_singleton.
Qed.

Lemma dedupeBy_loop (values : list A) (deduped : Functions.JSMap K A) :
  NoDup deduped.*1 ->
  let after := foldl (Functions.dedupeBy_step choose map) deduped values in
  NoDup after.*1 /\
  (forall k x, (k, x) ∈ after -> (k, x) ∈ deduped \/ (x ∈ values /\ map x = k)) /\
  (forall k, k ∈ deduped.*1 \/ k ∈ map <$> values -> k ∈ after.*1).
Proof.
  revert deduped. induction values as [|v values IH]; intros deduped Hnodup; simpl.
  - split_and!; [done | by left |]. intros k [?|?%elem_of_nil]; done.
  - destruct (dedupeBy_step_spec deduped v Hnodup) as (Hn1 & Hn2 & Hn3).
    destruct (IH _ Hn1) as (H1 & H2 & H3). split_and!; [done | |].
    + intros k x Hin. apply H2 in Hin as [Hin|[Hin Hk]].
      * apply Hn2 in Hin as [Hin|[-> Hk]]; [by left |].
        right. split; [apply list_elem_of_here | done].
      * right. split; [by apply list_elem_of_further | done].
    + intros k Hk. apply H3. destruct Hk as [Hk|Hk].
      * left. apply Hn3. by left.
      * apply elem_of_cons in Hk as [->|Hk]; [| by right].
        left. apply Hn3. by right.
Qed.

End DedupeBy.

(** X9: [dedupeBy] returns values of the list with pairwise different
    keys, one for each key that occurs in the list. *)
Theorem dedupeBy_one_value_per_key {A K : Type} `{EqDecision K} (values : list A)
    (choose : A -> A -> K -> Z) (map : A -> K) :
  let result := Functions.dedupeBy values choose map in
  NoDup (map <$> result) /\
  (forall x, x ∈ result -> x ∈ values) /\
  (forall v, v ∈ values -> exists x, x ∈ result /\ map x = map v).
Proof.
  unfold Functions.dedupeBy. destruct (Nat.leb_spec (length values) 1) as [Hle|Hgt].
  - simpl. split_and!.
    + destruct values as [|v [|w values]]; simpl in *; [constructor | | lia].
      apply NoDup_singleton.
    + done.
    + intros v Hv. by exists v.
  - pose proof (dedupeBy_loop choose map values [] (NoDup_nil_2)) as (H1 & H2 & H3).
    simpl. set (after := foldl _ [] values) in *.
    assert (forall entry, entry ∈ after -> map entry.2 = entry.1) as Hkey.
    { intros [k x] Hin. apply H2 in Hin as [?%elem_of_nil|[_ ?]]; done. }
    unfold Functions.Map_values. split_and!.
    + rewrite <- list_fmap_compose.
      rewrite (list_fmap_ext (map ∘ snd) fst after); [done |].
      intros i entry Hin. apply Hkey. by eapply list_elem_of_lookup_2.
    + intros x Hx. apply list_elem_of_fmap in Hx as ([k x'] & -> & Hin).
      apply H2 in Hin as [?%elem_of_nil|[? _]]; done.
    + intros v Hv.
      assert (map v ∈ after.*1) as Hin.
      { apply H3. right. apply list_elem_of_fmap. by exists v. }
      apply list_elem_of_fmap in Hin as ([k x] & Hk & Hin). simpl in Hk. subst k.
      exists x. split.
      * apply list_elem_of_fmap. by exists (map v, x).
      * by apply (Hkey (map v, x)).
Qed.

(** ** [dedupeAdjacentBy] *)

Lemma adjacent_distinct_snoc {A K : Type} (map : A -> K) (l : list A) (x y : A) :
  adjacent_distinct map (l ++ [x]) -> map x ≠ map y ->
  adjacent_distinct map ((l ++ [x]) ++ [y]).
Proof.
  induction l as [|a [|b l] IH]; simpl.
  - done.
  - intros [Hab _] Hxy. done.
  - intros [Hab Hrest] Hxy. split; [done |]. by apply IH.
Qed.

Section DedupeAdjacentBy.
Context {A K : Type} `{EqDecision K} (choose : A -> A -> K -> Z) (map : A -> K).

Local Abbreviation step := (Functions.dedupeAdjacentBy_step choose map).

Lemma dedupeAdjacentBy_step_cases (result : list A) (base v : A) :
  (step (result, base, map base) v = (result, base, map base) /\ map base = map v) \/
  step (result, base, map base) v = (result ++ [base], v, map v) \/
  (step (result, base, map base) v = (result, v, map v) /\ map base = map v).
Proof.
  unfold Functions.dedupeAdjacentBy_step.
  destruct (decide (map base ≠ map v)) as [Hne|Heq].
  - right. left. done.
  - apply dec_stable in Heq.
    destruct (choose base v (map base) =? -1); [by left |].
    destruct (choose base v (map base) =? 0); [right; by left | right; by right].
Qed.

(** The loop keeps a sublist of the values seen so far, ending with the
    base value, and a value with each key seen so far. *)
Lemma dedupeAdjacentBy_loop (rest seen : list A) (result : list A) (base : A) :
  sublist (result ++ [base]) seen ->
  (forall v, v ∈ seen -> exists x, x ∈ result ++ [base] /\ map x = map v) ->
  let '(result', base', left') := foldl step (result, base, map base) rest in
  left' = map base' /\
  sublist (result' ++ [base']) (seen ++ rest) /\
  (forall v, v ∈ seen ++ rest -> exists x, x ∈ result' ++ [base'] /\ map x = map v).
Proof.
  revert seen result base. induction rest as [|v rest IH]; intros seen result base Hsub Hkeys.
  - simpl. rewrite app_nil_r. done.
  - cbn [foldl].
    replace (seen ++ v :: rest) with ((seen ++ [v]) ++ rest) by by rewrite <- app_assoc.
    destruct (dedupeAdjacentBy_step_cases result base v) as [[-> Hsame]|[->|[-> Hsame]]].
    + (* the value is dropped *)
      apply IH.
      * apply sublist_inserts_r. done.
      * intros w [Hw|Hw]%elem_of_app; [by apply Hkeys |].
        apply list_elem_of_singleton in Hw as ->.
        exists base. split; [| done].
        apply elem_of_app. right. by apply list_elem_of_singleton.
    + (* the base value is kept, the value becomes the base *)
      apply IH.
      * by apply sublist_app.
      * intros w [Hw|Hw]%elem_of_app.
        -- destruct (Hkeys w Hw) as (x & Hx & Hmap). exists x. split; [| done].
           apply elem_of_app. by left.
        -- apply list_elem_of_singleton in Hw as ->. exists v. split; [| done].
           apply elem_of_app. right. by apply list_elem_of_singleton.
    + (* the value replaces the base value *)
      apply IH.
      * apply sublist_app; [| done].
        etrans; [| exact Hsub]. apply sublist_inserts_r. done.
      * intros w [Hw|Hw]%elem_of_app.
        -- destruct (Hkeys w Hw) as (x & Hx & Hmap).
           apply elem_of_app in Hx as [Hx|Hx].
           ++ exists x. split; [| done]. apply elem_of_app. by left.
           ++ apply list_elem_of_singleton in Hx as ->.
              exists v. split; [| congruence].
              apply elem_of_app. right. by apply list_elem_of_singleton.
        -- apply list_elem_of_singleton in Hw as ->. exists v. split; [| done].
           apply elem_of_app. right. by apply list_elem_of_singleton.
Qed.

(** When the left value is always kept, no two neighbours of the result
    have the same key. *)
Lemma dedupeAdjacentBy_loop_distinct (rest : list A) (result : list A) (base : A) :
  (forall x y k, choose x y k = -1) ->
  adjacent_distinct map (result ++ [base]) ->
  let '(result', base', _) := foldl step (result, base, map base) rest in
  adjacent_distinct map (result' ++ [base']).
Proof.
  intros Hchoose. revert result base.
  induction rest as [|v rest IH]; intros result base Hdistinct; [done |].
  cbn [foldl]. unfold Functions.dedupeAdjacentBy_step at 2.
  destruct (decide (map base ≠ map v)) as [Hne|Heq].
  - simpl. apply IH. by apply adjacent_distinct_snoc.
  - rewrite Hchoose. simpl. by apply IH.
Qed.

(** Values whose neighbours have different keys are all kept. *)
Lemma dedupeAdjacentBy_loop_unchanged (rest : list A) (result : list A) (base : A) :
  adjacent_distinct map (base :: rest) ->
  let '(result', base', _) := foldl step (result, base, map base) rest in
  result' ++ [base'] = result ++ base :: rest.
Proof.
  revert result base. induction rest as [|v rest IH]; intros result base Hdistinct; [done |].
  destruct Hdistinct as [Hne Hdistinct].
  cbn [foldl]. unfold Functions.dedupeAdjacentBy_step at 2.
  rewrite decide_True by done. simpl.
  specialize (IH (result ++ [base]) v Hdistinct).
  destruct (foldl step (result ++ [base], v, map v) rest) as [[result' base'] left'].
  rewrite IH. by rewrite <- app_assoc.
Qed.

End DedupeAdjacentBy.

(** X10: for any [choose] and [map], [dedupeAdjacentBy] returns values of
    the list in their original order, with at least one value for each key
    that occurs in the list. *)
Theorem dedupeAdjacentBy_keeps_each_key {A K : Type} `{EqDecision K} (values : list A)
    (choose : A -> A -> K -> Z) (map : A -> K) :
  let result := Functions.dedupeAdjacentBy values choose map in
  sublist result values /\
  (forall v, v ∈ values -> exists x, x ∈ result /\ map x = map v).
Proof.
  unfold Functions.dedupeAdjacentBy. destruct values as [|first rest]; [by split; [| intros v ?%elem_of_nil] |].
  destruct (Nat.leb_spec (length (first :: rest)) 1) as [Hle|Hgt].
  - split; [done |]. intros v Hv. by exists v.
  - pose proof (dedupeAdjacentBy_loop choose map rest [first] [] first) as Hloop.
    destruct (foldl _ _ rest) as [[result base] left'].
    destruct Hloop as (_ & Hsub & Hkeys); [done | | by split].
    intros v ->%list_elem_of_singleton. exists first. split; [| done].
    by apply list_elem_of_singleton.
Qed.

(** X11: [dedupeAdjacent] returns a list without equal neighbours; it
    returns a list without equal neighbours as it is, so that applying it
    twice changes nothing more. *)
Theorem dedupeAdjacent_no_equal_neighbours {A : Type} `{EqDecision A} (values : list A) :
  adjacent_distinct Functions.identity (Functions.dedupeAdjacent values) /\
  (adjacent_distinct Functions.identity values -> Functions.dedupeAdjacent values = values) /\
  Functions.dedupeAdjacent (Functions.dedupeAdjacent values) = Functions.dedupeAdjacent values.
Proof.
  assert (forall l : list A,
    adjacent_distinct Functions.identity l -> Functions.dedupeAdjacent l = l) as Hsame.
  { intros [|first rest] Hdistinct; [done |].
    unfold Functions.dedupeAdjacent, Functions.dedupeAdjacentBy.
    destruct (Nat.leb_spec (length (first :: rest)) 1) as [Hle|Hgt]; [done |].
    pose proof (dedupeAdjacentBy_loop_unchanged (fun _ _ _ => -1) Functions.identity
                  rest [] first Hdistinct) as Hloop.
    by destruct (foldl _ _ rest) as [[result base] left']. }
  assert (adjacent_distinct Functions.identity (Functions.dedupeAdjacent values)) as Hdistinct.
  { destruct values as [|first rest]; [done |].
    unfold Functions.dedupeAdjacent, Functions.dedupeAdjacentBy.
    destruct (Nat.leb_spec (length (first :: rest)) 1) as [Hle|Hgt].
    - destruct rest; [done | simpl in Hle; lia].
    - pose proof (dedupeAdjacentBy_loop_distinct (fun _ _ _ => -1) Functions.identity
                    rest [] first (fun _ _ _ => eq_refl) I) as Hloop.
      by destruct (foldl _ _ rest) as [[result base] left']. }
  split_and!; [done | apply Hsame | by apply Hsame].
Qed.

(** ** [mergeMapsWith] *)

Section MergeMapsWith.
Context {K V : Type} `{EqDecision K} (mergeValues : V -> V -> V).




End MergeMapsWith.



(** ** [cartesianProduct] *)

Section CartesianProduct.
Context {A : Type}.

Local Abbreviation extend :=
  (fun (yss : list (list A)) (xs : list A) =>
     flat_map (fun ys => List.map (fun x => ys ++ [x]) xs) yss).

Lemma extend_elem_of (yss : list (list A)) (xs : list A) (t : list A) :
  t ∈ extend yss xs <-> exists ys x, ys ∈ yss /\ x ∈ xs /\ t = ys ++ [x].
Proof.
  rewrite list_elem_of_In, in_flat_map. split.
  - intros (ys & Hys & Ht). apply in_map_iff in Ht as (x & <- & Hx).
    exists ys, x. by rewrite !list_elem_of_In.
  - intros (ys & x & Hys & Hx & ->). exists ys. split; [by apply list_elem_of_In |].
    apply in_map_iff. exists x. split; [done | by apply list_elem_of_In].
Qed.

Lemma extend_length (yss : list (list A)) (xs : list A) :
  length (extend yss xs) = (length yss * length xs)%nat.
Proof.
  induction yss as [|ys yss IH]; [done |].
  simpl. rewrite length_app, length_map, IH. done.
Qed.

Lemma product_elem_of (xss : list (list A)) (yss : list (list A)) (t : list A) :
  t ∈ foldl extend yss xss <->
  exists ys zs, ys ∈ yss /\ Forall2 (fun z xs => z ∈ xs) zs xss /\ t = ys ++ zs.
Proof.
  revert yss. induction xss as [|xs xss IH]; intros yss; simpl.
  - split.
    + intros Ht. exists t, []. by rewrite app_nil_r.
    + intros (ys & zs & Hys & ->%Forall2_nil_inv_r & ->). by rewrite app_nil_r.
  - rewrite IH. split.
    + intros (ys' & zs & (ys & x & Hys & Hx & ->)%extend_elem_of & Hzs & ->).
      exists ys, (x :: zs). split_and!; [done | by constructor | by rewrite <- app_assoc].
    + intros (ys & zs & Hys & Hzs & ->).
      apply Forall2_cons_inv_r in Hzs as (x & zs' & Hx & Hzs & ->).
      exists (ys ++ [x]), zs'. split_and!; [| done | by rewrite <- app_assoc].
      apply extend_elem_of. by exists ys, x.
Qed.

Lemma product_length (xss : list (list A)) (yss : list (list A)) :
  length (foldl extend yss xss) =
    (length yss * foldr (fun xs n => length xs * n) 1 xss)%nat.
Proof.
  revert yss. induction xss as [|xs xss IH]; intros yss; simpl; [lia |].
  rewrite IH, extend_length. lia.
Qed.

End CartesianProduct.

(** X13: the tuples of [cartesianProduct(xss)] are the lists that take one
    element from each of the given arrays, in order; there are as many as
    the product of the lengths of the arrays, except that no array at all
    gives no tuple. *)
Theorem cartesianProduct_tuples {A : Type} (xss : list (list A)) :
  match xss with
  | [] => Functions.cartesianProduct xss = []
  | _ =>
      (forall t, t ∈ Functions.cartesianProduct xss <->
                 Forall2 (fun x xs => x ∈ xs) t xss) /\
      length (Functions.cartesianProduct xss) =
        foldr (fun xs n => (length xs * n)%nat) 1%nat xss
  end.
Proof.
  destruct xss as [|xs xss]; [done |].
  unfold Functions.cartesianProduct. cbn [length Nat.eqb]. split.
  - intros t. rewrite product_elem_of. split.
    + by intros (ys & zs & ->%list_elem_of_singleton & Hzs & ->).
    + intros Ht. exists [], t. split_and!; [by apply list_elem_of_singleton | done | done].
  - rewrite product_length. simpl. lia.
Qed.

(** ** [escapeRegExp] *)

(** X14: the pattern that [escapeRegExp] returns stands for the given string
    itself: each of its characters is either a character that is not a
    syntax character, or a syntax character after a backslash. *)
Theorem escapeRegExp_literal (value : string) :
  literal_pattern (Functions.escapeRegExp value) = Some value.
Proof.
  induction value as [|a value IH]; [done |].
  cbn [Functions.escapeRegExp]. destruct (Functions.is_syntax_character a) eqn:E.
  - change (literal_pattern (String (Ascii.ascii_of_nat 92)
              (String a (Functions.escapeRegExp value))) = Some (String a value)).
    cbn [literal_pattern]. rewrite decide_True by done. rewrite E, IH. done.
  - cbn [literal_pattern]. rewrite E, IH.
    case_decide as Hbs; [| done].
    injection Hbs as ->. by vm_compute in E.
Qed.

(** * Properties of the shared global variables and of the overrides *)

(** X15: a shared variable that was set is read back, whatever the default
    value, and setting it changes no other variable; only the key
    "__proto__" cannot be set. *)
Theorem shared_variable_set_then_get {V : Type} (key key' : string)
    (value defaultValue : V) (globals : Internal.Globals) :
  (Internal.getSharedGlobalVariable key' defaultValue
     (Internal.setSharedGlobalVariable key value globals)).1 =
  if decide (key' = key /\ key ≠ "__proto__") then value
  else (Internal.getSharedGlobalVariable key' defaultValue globals).1.
Proof.
  unfold Internal.getSharedGlobalVariable, Internal.setSharedGlobalVariable,
    Internal.assign_property, Internal.ensureGlobals. simpl.
  destruct (decide (key = "__proto__")) as [->|Hne].
  - rewrite decide_False; [done |]. by intros [_ ?].
  - rewrite obj_get_set. destruct (decide (key' = key)) as [->|Hne'].
    + by rewrite decide_True.
    + rewrite decide_False; [done |]. by intros [? _].
Qed.

(** ** Counters *)

Lemma string_length_app (s t : string) :
  String.length (s +:+ t) = (String.length s + String.length t)%nat.
Proof.
  induction s as [|a s IH]; [reflexivity |].
  change (String a s +:+ t) with (String a (s +:+ t)). cbn. by rewrite IH.
Qed.

Lemma string_app_inj_r (s1 s2 t : string) : s1 +:+ t = s2 +:+ t -> s1 = s2.
Proof.
  revert s2. induction s1 as [|a s1 IH]; intros [|b s2] Heq.
  - done.
  - apply (f_equal String.length) in Heq.
    rewrite !string_length_app in Heq. cbn in Heq. lia.
  - apply (f_equal String.length) in Heq.
    rewrite !string_length_app in Heq. cbn in Heq. lia.
  - change (String a (s1 +:+ t) = String b (s2 +:+ t)) in Heq.
    injection Heq as -> Heq. f_equal. by apply IH.
Qed.

Lemma counter_key_inj (key key' : string) :
  "__counter::" +:+ key +:+ "__" = "__counter::" +:+ key' +:+ "__" -> key = key'.
Proof.
  intros Heq. apply (inj (String.append "__counter::")) in Heq.
  by apply string_app_inj_r in Heq.
Qed.

Lemma round_double_exact (x : Z) :
  - 2 ^ 53 <= x <= 2 ^ 53 -> Internal.round_double x = x.
Proof.
  intros Hx. unfold Internal.round_double.
  destruct (Z.ltb_spec (Z.abs x) (2 ^ 53)) as [Hlt | Hge]; [done |].
  assert (x = 2 ^ 53 \/ x = - 2 ^ 53) as [-> | ->] by lia; reflexivity.
Qed.

Lemma bumpGlobalCounter_spec (key : string) (globals : Internal.Globals) :
  (Internal.bumpGlobalCounter key globals).1 =
    Internal.round_double (counter_value key globals + 1) /\
  forall key', counter_value key' (Internal.bumpGlobalCounter key globals).2 =
    if decide (key' = key) then Internal.round_double (counter_value key globals + 1)
    else counter_value key' globals.
Proof.
  unfold Internal.bumpGlobalCounter, Internal.updateSharedGlobalVariable, counter_value.
  unfold Internal.getSharedGlobalVariable, Internal.setSharedGlobalVariable.
  cbn [fst snd Internal.ensureGlobals default from_option id].
  split; [done |]. intros key'.
  unfold Internal.assign_property. rewrite decide_False by done.
  rewrite obj_get_set. destruct (decide (key' = key)) as [->|Hne].
  - by rewrite decide_True.
  - rewrite decide_False; [done |]. intros Heq. by apply Hne, counter_key_inj.
Qed.

(** X16: as long as the counters stay within [-2^53] and [2^53], where
    [+ 1] is exact, each call of [bumpGlobalCounter] returns the value of
    the counter of its key plus one, 1 for a counter that was not used yet,
    whatever calls for other keys come in between. *)
Theorem bumpGlobalCounter_counts_per_key (keys : list string)
    (globals : Internal.Globals) :
  (forall key, key ∈ keys ->
     - 2 ^ 53 <= counter_value key globals + 1 /\
     counter_value key globals
       + Z.of_nat (length (filter (fun k => k = key) keys)) <= 2 ^ 53) ->
  (bumpGlobalCounters keys globals).1 =
    imap (fun i key =>
            counter_value key globals
            + Z.of_nat (length (filter (fun k => k = key) (take (S i) keys))))
         keys.
Proof.
  revert globals. induction keys as [|key keys IH]; intros globals Hbound; [done |].
  cbn [bumpGlobalCounters].
  destruct (bumpGlobalCounter_spec key globals) as [Hn Hafter].
  assert (Hexact : Internal.round_double (counter_value key globals + 1)
                   = counter_value key globals + 1).
  { apply round_double_exact.
    destruct (Hbound key) as [Hlow Hhigh]; [apply list_elem_of_here |].
    rewrite filter_cons_True in Hhigh by done. simpl length in Hhigh. lia. }
  rewrite Hexact in Hn, Hafter.
  destruct (Internal.bumpGlobalCounter key globals) as [n globals'].
  simpl in Hn, Hafter. specialize (IH globals').
  destruct (bumpGlobalCounters keys globals') as [ns globals''].
  simpl in IH. cbn [fst imap]. f_equal.
  - rewrite Hn. cbn [take]. rewrite filter_cons_True by done. destruct keys; simpl; lia.
  - rewrite IH.
    + apply imap_ext. intros i key' Hkey'. cbn [compose take].
      rewrite Hafter. rewrite (filter_cons (fun k => k = key')).
      destruct (decide (key' = key)) as [->|Hne].
      * rewrite decide_True by done. simpl length. lia.
      * rewrite decide_False by done. done.
    + intros key' Hin. rewrite Hafter.
      destruct (Hbound key') as [Hlow Hhigh]; [by apply list_elem_of_further |].
      rewrite (filter_cons (fun k => k = key')) in Hhigh.
      destruct (decide (key' = key)) as [->|Hne].
      * rewrite decide_True in Hhigh by done. simpl length in Hhigh. lia.
      * rewrite decide_False in Hhigh by done. lia.
Qed.

(** Two counters that were not used yet, bumped in turn. *)
Lemma bumpGlobalCounter_witness :
  (bumpGlobalCounters ["a"; "b"; "a"] None).1 = [1; 1; 2].
Proof.
  rewrite (bumpGlobalCounter_counts_per_key ["a"; "b"; "a"] None); [reflexivity |].
  intros key Hin.
  repeat (apply elem_of_cons in Hin as [-> | Hin];
          [vm_compute; split; discriminate |]).
  by apply elem_of_nil in Hin.
Defined.

(** From [2^53] on the counter no longer counts: [2^53 + 1] is no number,
    and the sum is rounded back to [2^53]. *)
Example bumpGlobalCounter_stops_counting :
  (bumpGlobalCounters ["k"; "k"; "k"]
     (Some [("__counter::k__", 2 ^ 53 - 1)])).1 = [2 ^ 53; 2 ^ 53; 2 ^ 53].
Proof. vm_compute. reflexivity. Qed.

(** ** Overrides *)

Lemma overrideFunction_spec (method : option Internal.FunctionObject)
    (applyOverride : string) (version : Z) :
  exists method',
    Internal.overrideFunction (Internal.HostObject method) applyOverride version =
      Internal.HostObject method' /\
    Internal.original_function method' = Internal.original_function method /\
    if decide (Internal.override_version method < version)
    then method' = Some (Internal.Overridden applyOverride
                           (Internal.original_function method) version)
    else method' = method.
Proof.
  unfold Internal.overrideFunction.
  destruct (Z.ltb_spec (Internal.override_version method) version) as [Hlt|Hge].
  - eexists. split; [done |]. split; [done |]. by rewrite decide_True.
  - exists method. split; [done |]. split; [done |]. rewrite decide_False; [done | lia].
Qed.

(** X17: however many overrides are applied to a function of a host, the
    function installed in the end is the result of one [applyOverride],
    applied to the function that the host had at first: the override with
    the highest version, the earliest one among equal versions; no
    override is installed when no version exceeds the version in place. *)
Theorem overrides_highest_version_wins (overrides : list (string * Z))
    (method : option Internal.FunctionObject) :
  exists method',
    apply_overrides overrides (Internal.HostObject method) = Internal.HostObject method' /\
    ((method' = method /\
      Forall (fun override => override.2 <= Internal.override_version method) overrides) \/
     (exists applyOverride version before after,
        method' = Some (Internal.Overridden applyOverride
                          (Internal.original_function method) version) /\
        Internal.override_version method < version /\
        overrides = before ++ (applyOverride, version) :: after /\
        Forall (fun override => override.2 < version) before /\
        Forall (fun override => override.2 <= version) after)).
Proof.
  induction overrides as [|[a v] overrides IH] using rev_ind.
  - exists method. split; [done |]. left. by split.
  - destruct IH as (method1 & Hrun & Hcases).
    unfold apply_overrides in *. rewrite foldl_app, Hrun. cbn [foldl fst snd].
    destruct (overrideFunction_spec method1 a v) as (method2 & -> & Horiginal & Hstep).
    exists method2. split; [done |].
    destruct Hcases as [[-> Hall]|(a1 & v1 & before & after & -> & Hlt & -> & Hb & Ha)].
    + case_decide as Hv.
      * right. exists a, v, overrides, []. split_and!; [done | done | done | | done].
        eapply Forall_impl; [exact Hall |]. simpl. intros; lia.
      * left. subst method2. split; [done |].
        apply Forall_app. split; [done |]. apply Forall_singleton. simpl. lia.
    + simpl in Hstep. case_decide as Hv.
      * right. exists a, v, (before ++ (a1, v1) :: after), [].
        split_and!; [done | lia | done | | done].
        apply Forall_app. split.
        -- eapply Forall_impl; [exact Hb |]. simpl. intros; lia.
        -- constructor; [simpl; lia |].
           eapply Forall_impl; [exact Ha |]. simpl. intros; lia.
      * right. exists a1, v1, before, (after ++ [(a, v)]).
        split_and!; [done | done | by rewrite <- app_assoc | done |].
        apply Forall_app. split; [done |]. apply Forall_singleton. simpl. lia.
Qed.

(** * Properties of the sound settings *)

Lemma number_le_refl (x : SoundSettings.Number) :
  x ≠ SoundSettings.NaN -> SoundSettings.number_le x x = true.
Proof.
  destruct x as [|q|[]]; simpl; try done.
  intros _. apply Qle_bool_iff. apply Qle_refl.
Qed.

(** Clamping between two bounds that are in order. *)
Lemma clamp_between (lower upper value : SoundSettings.Number) :
  SoundSettings.number_le lower upper = true -> value ≠ SoundSettings.NaN ->
  let clamped := SoundSettings.Math_max lower (SoundSettings.Math_min value upper) in
  clamped ≠ SoundSettings.NaN /\
  SoundSettings.number_le lower clamped = true /\
  SoundSettings.number_le clamped upper = true /\
  (SoundSettings.number_le lower value = true ->
   SoundSettings.number_le value upper = true -> clamped = value).
Proof.
  intros Hbounds Hvalue.
  assert (lower ≠ SoundSettings.NaN) as Hlower by (by destruct lower).
  assert (upper ≠ SoundSettings.NaN) as Hupper
    by (by destruct lower as [|?|[]], upper).
  assert (SoundSettings.Math_min value upper =
          if SoundSettings.number_le value upper then value else upper) as ->
    by (by destruct value, upper).
  destruct (SoundSettings.number_le value upper) eqn:E1.
  - assert (SoundSettings.Math_max lower value =
            if SoundSettings.number_le lower value then value else lower) as ->
      by (by destruct lower, value).
    destruct (SoundSettings.number_le lower value) eqn:E2.
    + split_and!; done.
    + split_and!; [done | by apply number_le_refl | done | done].
  - assert (SoundSettings.Math_max lower upper = upper) as ->
      by (unfold SoundSettings.Math_max; rewrite Hbounds; by destruct lower, upper).
    split_and!; [done | done | by apply number_le_refl | done].
Qed.

(** X18: for the settings "rate" and "volume", [clampSoundSettingValue]
    returns a number between the bounds of the setting, and the value
    itself when it is between them; it returns [NaN] for [NaN], and also
    when the code names a property that objects inherit; it returns the
    value as it is for any other code. *)
Theorem clampSoundSettingValue_within_bounds (inherited : string -> bool)
    (code : string) (value : SoundSettings.Number) :
  let clamped := SoundSettings.clampSoundSettingValue inherited code value in
  match SoundSettings.SOUND_SETTINGS inherited code with
  | SoundSettings.Setting setting =>
      match value with
      | SoundSettings.NaN => clamped = SoundSettings.NaN
      | _ =>
        SoundSettings.number_le (SoundSettings.minValue setting) clamped = true /\
        SoundSettings.number_le clamped (SoundSettings.maxValue setting) = true /\
        (SoundSettings.number_le (SoundSettings.minValue setting) value = true ->
         SoundSettings.number_le value (SoundSettings.maxValue setting) = true ->
         clamped = value) /\
        SoundSettings.clampSoundSettingValue inherited code clamped = clamped
      end
  | SoundSettings.InheritedProperty => clamped = SoundSettings.NaN
  | SoundSettings.Undefined => clamped = value
  end.
Proof.
  intros clamped. subst clamped. unfold SoundSettings.clampSoundSettingValue.
  destruct (SoundSettings.SOUND_SETTINGS inherited code) as [setting| |] eqn:E.
  - assert (SoundSettings.number_le (SoundSettings.minValue setting)
              (SoundSettings.maxValue setting) = true) as Hbounds.
    { unfold SoundSettings.SOUND_SETTINGS in E.
      repeat case_decide; try destruct (inherited code); by simplify_eq. }
    assert (value ≠ SoundSettings.NaN ->
      SoundSettings.number_le (SoundSettings.minValue setting)
        (SoundSettings.Math_max (SoundSettings.minValue setting)
           (SoundSettings.Math_min value (SoundSettings.maxValue setting))) = true /\
      SoundSettings.number_le
        (SoundSettings.Math_max (SoundSettings.minValue setting)
           (SoundSettings.Math_min value (SoundSettings.maxValue setting)))
        (SoundSettings.maxValue setting) = true /\
      (SoundSettings.number_le (SoundSettings.minValue setting) value = true ->
       SoundSettings.number_le value (SoundSettings.maxValue setting) = true ->
       SoundSettings.Math_max (SoundSettings.minValue setting)
         (SoundSettings.Math_min value (SoundSettings.maxValue setting)) = value) /\
      SoundSettings.Math_max (SoundSettings.minValue setting)
        (SoundSettings.Math_min
           (SoundSettings.Math_max (SoundSettings.minValue setting)
              (SoundSettings.Math_min value (SoundSettings.maxValue setting)))
           (SoundSettings.maxValue setting)) =
      SoundSettings.Math_max (SoundSettings.minValue setting)
        (SoundSettings.Math_min value (SoundSettings.maxValue setting))) as Hclamp.
    { intros Hnan.
      destruct (clamp_between _ _ value Hbounds Hnan) as (H0 & H1 & H2 & H3).
      split_and!; [done | done | done |].
      by destruct (clamp_between _ _ _ Hbounds H0) as (_ & _ & _ & ->). }
    destruct value as [|q|negative].
    + by destruct (SoundSettings.minValue setting).
    + by apply Hclamp.
    + by apply Hclamp.
  - by destruct value.
  - done.
Qed.

(** * Properties of the callers of the registry *)

Section CallersFacts.
Variable callback_outcome : string -> list Value -> Outcome.
Variable mapPayload_outcome : string -> list Value -> Outcome.

Local Abbreviation dispatch := (dispatchEvent callback_outcome mapPayload_outcome).
Local Abbreviation successes := (listener_successes callback_outcome mapPayload_outcome).

Lemma some_false_successes (payload : Value) (listeners : list Listener) :
  Events.some_false (Some (concat ((fun l => successes l [payload]) <$> listeners))) =
  existsb (vetoes callback_outcome mapPayload_outcome payload) listeners.
Proof.
  unfold Events.some_false. induction listeners as [|l listeners IH]; [done |].
  rewrite fmap_cons. simpl. rewrite existsb_app, IH. f_equal.
  unfold listener_successes, vetoes.
  destruct (listener_outcome _ _ l [payload]) as [[| |[]| | | |]|]; done.
Qed.

(** The playback request is cancelled exactly when a listener vetoes it. *)
Lemma requested_dispatch (n fuel : nat) (reg : Registry) (payload : Value) :
  depth_ok n reg Events.EVENT_TYPE_SOUND_PLAYBACK_REQUESTED = true -> (n <= fuel)%nat ->
  exists calls,
    dispatch fuel reg Events.EVENT_TYPE_SOUND_PLAYBACK_REQUESTED [payload] =
      (Done calls.1, calls.2) /\
    Events.some_false calls.1 =
      existsb (vetoes callback_outcome mapPayload_outcome payload)
        (Object_values (getEventListeners reg Events.EVENT_TYPE_SOUND_PLAYBACK_REQUESTED)).
Proof.
  intros Hdepth Hfuel.
  destruct (dispatch_returns callback_outcome mapPayload_outcome n fuel reg _ [payload]
              Hdepth Hfuel) as (calls & Hresult & _).
  eexists (_, _). split; [exact Hresult |]. simpl.
  destruct (getEventListeners reg _) as [|entry listeners] eqn:E; [done |].
  simpl isEmptyObject. cbv iota. apply some_false_successes.
Qed.

End CallersFacts.

(** X19: [processSoundPlayback] cancels the playback exactly when a listener
    of the playback requests returns [false]: it then dispatches the
    cancellation, does not call [play] and returns [null]; otherwise it
    dispatches the confirmation, then calls [play] and returns (or throws)
    what [play] does.  A listener that throws, or that returns anything
    but [false], does not cancel. *)
Theorem processSoundPlayback_cancels_on_false
    (callback_outcome mapPayload_outcome : string -> list Value -> Outcome)
    (n fuel : nat) (reg : Registry) (payload : Value) (play : M Value) :
  depth_ok n reg Events.EVENT_TYPE_SOUND_PLAYBACK_REQUESTED = true ->
  depth_ok n reg Events.EVENT_TYPE_SOUND_PLAYBACK_CONFIRMED = true ->
  depth_ok n reg Events.EVENT_TYPE_SOUND_PLAYBACK_CANCELLED = true ->
  (n <= fuel)%nat ->
  let dispatched event :=
    (dispatchEvent callback_outcome mapPayload_outcome fuel reg event [payload]).2 in
  Events.processSoundPlayback callback_outcome mapPayload_outcome fuel reg payload play =
    if existsb (vetoes callback_outcome mapPayload_outcome payload)
         (Object_values (getEventListeners reg Events.EVENT_TYPE_SOUND_PLAYBACK_REQUESTED))
    then (Done VNull,
          dispatched Events.EVENT_TYPE_SOUND_PLAYBACK_REQUESTED
          ++ dispatched Events.EVENT_TYPE_SOUND_PLAYBACK_CANCELLED)
    else (play.1,
          dispatched Events.EVENT_TYPE_SOUND_PLAYBACK_REQUESTED
          ++ dispatched Events.EVENT_TYPE_SOUND_PLAYBACK_CONFIRMED ++ play.2).
Proof.
  intros Hrequested Hconfirmed Hcancelled Hfuel dispatched. subst dispatched.
  destruct (requested_dispatch callback_outcome mapPayload_outcome n fuel reg payload
              Hrequested Hfuel) as ([results calls] & Hdispatch & Hveto).
  simpl in Hdispatch, Hveto. rewrite <- Hveto.
  unfold Events.processSoundPlayback. rewrite Hdispatch. simpl.
  destruct (Events.some_false results); simpl.
  - destruct (dispatch_returns callback_outcome mapPayload_outcome n fuel reg _ [payload]
                Hcancelled Hfuel) as (calls' & -> & _).
    simpl. by rewrite !app_nil_r.
  - destruct (dispatch_returns callback_outcome mapPayload_outcome n fuel reg _ [payload]
                Hconfirmed Hfuel) as (calls' & -> & _).
    simpl. destruct play as [result calls'']. simpl.
    by rewrite !app_nil_r.
Qed.

Lemma processSoundPlayback_witness :
  Events.processSoundPlayback veto_callbacks identity_map 1 playback_listeners
    (VString "sound") (Done (VString "playing"), []) =
  (Done VNull,
   [ Dispatched Events.EVENT_TYPE_SOUND_PLAYBACK_REQUESTED [VString "sound"];
     Invoked (UserListener "fail") [VString "sound"];
     Invoked (UserListener "veto") [VString "sound"];
     Dispatched Events.EVENT_TYPE_SOUND_PLAYBACK_CANCELLED [VString "sound"];
     Invoked (UserListener "log") [VString "sound"] ]).
Proof.
  apply (processSoundPlayback_cancels_on_false veto_callbacks identity_map 1 1
           playback_listeners (VString "sound") (Done (VString "playing"), [])).
  - reflexivity.
  - reflexivity.
  - reflexivity.
  - lia.
Defined.

(** ** The listeners of HTTP requests *)

Section XhrLoad.
Variable callback_outcome : string -> list Value -> Outcome.
Variable mapPayload_outcome : string -> list Value -> Outcome.

(** The call of one listener by the handler. *)
Local Abbreviation notify fuel reg payload :=
  (fun it => let* _ := tell (Invoked it payload) in
             callListener callback_outcome mapPayload_outcome
               (dispatchEvent callback_outcome mapPayload_outcome fuel reg) it payload).




End XhrLoad.


(** * Further properties of the mutex registry *)

(** [isMutexLocked] on a code that is a property of [mutexes], or that
    finds [Object.prototype]. *)
Lemma isMutexLocked_own (w : World) (c : string) :
  WF w -> c = "__proto__" \/ is_Some (mutexes w !! c) ->
  isMutexLocked w c = bool_decide (is_Some (currentHolder (mutex_of w c))).
Proof.
  intros Hwf Hc. unfold isMutexLocked. rewrite (currentHolder_of_lookup w c Hwf).
  destruct (mutexes w !! c) as [s|] eqn:E; [done |].
  destruct Hc as [-> | [? ?]]; [| done].
  by rewrite decide_True, mutex_of_prototype by done.
Qed.

Lemma isMutexLocked_holder (w : World) (c : string) :
  WF w -> is_Some (currentHolder (mutex_of w c)) -> isMutexLocked w c = true.
Proof.
  intros Hwf Hsome. rewrite isMutexLocked_own; [by apply bool_decide_eq_true | done |].
  destruct (decide (c = "__proto__")) as [-> | Hc]; [by left |]. right.
  unfold mutex_of in Hsome. rewrite decide_False in Hsome by done.
  destruct (mutexes w !! c); [done |]. by destruct Hsome.
Qed.

(** The code "currentHolder", as long as it is no property of [mutexes],
    finds the current holder of "__proto__". *)
Lemma isMutexLocked_alias (w : World) :
  mutexes w !! "currentHolder" = None -> is_Some (prototype_currentHolder w) ->
  isMutexLocked w "currentHolder" = true /\
  request_throws w "currentHolder" = true /\
  lacks_pendingHolders w "currentHolder" = true /\
  currentHolder (mutex_of w "currentHolder") = None.
Proof.
  intros Hnone [h Hh].
  unfold isMutexLocked, request_throws, lacks_pendingHolders, lookup_mutex, mutex_of.
  rewrite !decide_False by done. rewrite Hnone, decide_True by done.
  rewrite Hh. simpl. rewrite Hh. done.
Qed.

(** The properties of [mutexes] that the run of a timer leaves alone. *)
Lemma fire_slots (t : Timer) (w : World) (c' : string) :
  WF w ->
  (forall c id, task t = TimeoutExpired c id ->
     c' ≠ c \/ lacks_pendingHolders w c = true) ->
  mutexes (fire t w) !! c' = mutexes w !! c'.
Proof.
  intros Hwf Hother. unfold fire.
  set (w0 := clearTimeout (timerId t) w).
  assert (Hwf0 : WF w0) by exact Hwf.
  destruct (task t) as [h|r|c id]; simpl.
  - destruct (callOnAcquired_spec h (add_log (OnAcquiredCalled (uniqueId h)) w0))
      as (Hm & _). by rewrite Hm.
  - by destruct (currentHolder (deref w0 r)).
  - destruct (timeoutHandler_spec c id w0 Hwf0)
      as (_ & _ & _ & _ & _ & _ & _ & Hslots & Hsame).
    destruct (Hother c id eq_refl) as [Hne | Hlacks].
    + by rewrite Hslots.
    + rewrite Hsame; [done |].
      destruct (request_throws_ext w w0 c eq_refl eq_refl eq_refl) as [_ ->].
      exact Hlacks.
Qed.

Lemma fireTimer_current (id : nat) (w : World) (c : string) (h : MutexHolder) :
  Inv w -> currentHolder (mutex_of w c) = Some h ->
  currentHolder (mutex_of (fireTimer id w) c) = Some h.
Proof.
  intros HI Hc. unfold fireTimer.
  destruct (list_find _ _) as [[i t]|]; [| done].
  destruct (due t <=? now w)%nat; [| done].
  destruct (fire_spec t w (inv_wf _ HI)) as (_ & Hm & _).
  rewrite Hm. destruct (task t) as [h'|r|c' id']; try done.
  case_decide as E; [| done]. by subst c'.
Qed.

(** Only a release changes the current holder of a mutex. *)
Lemma step_current (op : Op) (w : World) (c : string) (h : MutexHolder) :
  Inv w -> not_a_release op -> currentHolder (mutex_of w c) = Some h ->
  currentHolder (mutex_of (step op w) c) = Some h.
Proof.
  intros HI Hop Hc. destruct op as [c0 config|p|ms|n|]; simpl.
  - destruct (requestMutex_spec c0 config w (inv_wf _ HI)) as (_ & _ & Hm & _).
    rewrite Hm. case_decide as E; [| done]. subst c0.
    by apply requested_current.
  - done.
  - done.
  - by apply fireTimer_current.
  - unfold runNextTimer. destruct (earliest _); [by apply fireTimer_current | done].
Qed.

Lemma run_current (ops : list Op) (w : World) (c : string) (h : MutexHolder) :
  Inv w -> Forall not_a_release ops -> currentHolder (mutex_of w c) = Some h ->
  currentHolder (mutex_of (run ops w) c) = Some h.
Proof.
  intros HI Hops. revert w HI. induction Hops as [|op ops Hop _ IH]; intros w HI Hc; [done |].
  apply IH; [by apply Inv_step | by apply step_current].
Qed.

Lemma fireTimer_alias (id : nat) (w : World) :
  Inv w -> mutexes w !! "currentHolder" = None ->
  is_Some (prototype_currentHolder w) ->
  mutexes (fireTimer id w) !! "currentHolder" = None.
Proof.
  intros HI Hnone Hheld. unfold fireTimer.
  destruct (list_find _ _) as [[i t]|]; [| done].
  destruct (due t <=? now w)%nat; [| done].
  rewrite fire_slots; [done | apply HI |].
  intros c id' _. destruct (decide ("currentHolder" = c)) as [<- | Hne]; [| by left].
  right. by apply isMutexLocked_alias.
Qed.

(** Only a release ends the time during which the code "currentHolder"
    finds the current holder of "__proto__". *)
Lemma step_alias (op : Op) (w : World) :
  Inv w -> not_a_release op ->
  mutexes w !! "currentHolder" = None -> is_Some (prototype_currentHolder w) ->
  mutexes (step op w) !! "currentHolder" = None /\
  is_Some (prototype_currentHolder (step op w)).
Proof.
  intros HI Hop Hnone Hheld. split.
  - destruct op as [c0 config|p|ms|n|]; simpl.
    + destruct (requestMutex_spec c0 config w (inv_wf _ HI))
        as (_ & _ & _ & _ & _ & _ & _ & _ & Hslots & Hsame & _).
      destruct (decide ("currentHolder" = c0)) as [<- | Hne].
      * rewrite Hsame; [done |]. by apply isMutexLocked_alias.
      * by rewrite Hslots.
    + done.
    + done.
    + by apply fireTimer_alias.
    + unfold runNextTimer. destruct (earliest _); [by apply fireTimer_alias | done].
  - destruct Hheld as [h Hh].
    pose proof (step_current op w "__proto__" h HI Hop) as Hkeep.
    rewrite !mutex_of_prototype in Hkeep. simpl in Hkeep.
    rewrite Hkeep; [by eexists | done].
Qed.

Lemma run_alias (ops : list Op) (w : World) :
  Inv w -> Forall not_a_release ops ->
  mutexes w !! "currentHolder" = None -> is_Some (prototype_currentHolder w) ->
  mutexes (run ops w) !! "currentHolder" = None /\
  is_Some (prototype_currentHolder (run ops w)).
Proof.
  intros HI Hops. revert w HI.
  induction Hops as [|op ops Hop _ IH]; intros w HI Hnone Hheld; [done |].
  destruct (step_alias op w HI Hop Hnone Hheld) as [Hnone' Hheld'].
  apply IH; [by apply Inv_step | done | done].
Qed.

(** A request that does not make its requester a holder of the mutex it
    names, and finds nobody holding it: the code is "currentHolder", and it
    finds the current holder of "__proto__". *)
Lemma request_without_holder (c : string) (config : Config) (w : World) :
  Inv w ->
  currentHolder (mutex_of (requestMutex c config w).2 c) = None ->
  c = "currentHolder" /\ mutexes w !! "currentHolder" = None /\
  is_Some (prototype_currentHolder w).
Proof.
  intros HI. pose proof (inv_wf _ HI) as Hwf.
  destruct (requestMutex_spec c config w Hwf) as (_ & _ & Hm & _).
  rewrite Hm, decide_True by done. unfold requested, request_throws.
  pose proof (lookup_cases w c Hwf) as Hcases.
  pose proof (lookup_holder_code w c Hwf) as Hcode.
  rewrite (mutex_of_lookup w c Hwf). unfold lacks_pendingHolders in *.
  destruct (lookup_mutex w c) as [|r| | |h|own] eqn:E; simpl.
  - unfold enqueued. by destruct (currentHolder fresh_mutex).
  - unfold enqueued. by destruct (currentHolder (deref w r)).
  - unfold enqueued. by destruct (currentHolder fresh_mutex).
  - by destruct (prototype_currentHolder w) as [h|] eqn:Ep; simpl.
  - destruct Hcases as (Hc & Hnone & Hp). rewrite Hp. simpl. intros _.
    destruct (Hcode eq_refl) as [-> | ->]; [done |]. eauto.
  - by destruct own as [h|]; simpl.
Qed.

(** X21: from the moment a request finds the mutex free, or joins its queue,
    the mutex is locked, and its current holder stays the same through
    further requests, timeouts and other timer tasks, whatever their
    priorities: only the call of a release function changes it. *)
Theorem locked_until_release (before after : list Op) (c : string) (config : Config) :
  Forall not_a_release after ->
  let requested := run (before ++ [Request c config]) initial_world in
  let w := run after requested in
  isMutexLocked requested c = true /\
  isMutexLocked w c = true /\
  currentHolder (mutex_of w c) = currentHolder (mutex_of requested c).
Proof.
  intros Hafter requested w.
  assert (Inv requested) as HI by apply Inv_reachable.
  assert (Inv w) as HI' by by apply Inv_run.
  destruct (currentHolder (mutex_of requested c)) as [h|] eqn:Hh.
  - (* the mutex that the code names has a current holder *)
    assert (currentHolder (mutex_of w c) = Some h) as Hw by by apply run_current.
    rewrite Hw. split_and!; [| | done].
    + apply isMutexLocked_holder; [apply HI | by rewrite Hh].
    + apply isMutexLocked_holder; [apply HI' | by rewrite Hw].
  - (* the code finds the current holder of "__proto__" *)
    pose proof (Inv_reachable before) as HI0.
    assert (Hstep : requested = step (Request c config) (run before initial_world)).
    { subst requested. by rewrite run_snoc. }
    rewrite Hstep in Hh. simpl in Hh.
    destruct (request_without_holder c config _ HI0 Hh) as (-> & Hnone & Hheld).
    destruct (step_alias (Request "currentHolder" config) _ HI0 I Hnone Hheld)
      as [Hnone1 Hheld1].
    rewrite <- Hstep in Hnone1, Hheld1.
    destruct (run_alias after requested HI Hafter Hnone1 Hheld1) as [Hnone2 Hheld2].
    fold w in Hnone2, Hheld2.
    destruct (isMutexLocked_alias requested Hnone1 Hheld1) as (Hl1 & _ & _ & _).
    destruct (isMutexLocked_alias w Hnone2 Hheld2) as (Hl2 & _ & _ & Hc2).
    by rewrite Hc2.
Qed.

Lemma locked_until_release_witness :
  let requested :=
    run ([Request "m" (request_with 1 None "a")] ++ [Request "m" (request_with 5 (Some 50) "b")])
        initial_world in
  let w := run [RunNextTimer; Request "m" (request_with 9 None "c"); Elapse 60;
                RunNextTimer; RunNextTimer] requested in
  isMutexLocked requested "m" = true /\
  isMutexLocked w "m" = true /\
  currentHolder (mutex_of w "m") = currentHolder (mutex_of requested "m").
Proof.
  apply (locked_until_release
           [Request "m" (request_with 1 None "a")]
           [RunNextTimer; Request "m" (request_with 9 None "c"); Elapse 60;
            RunNextTimer; RunNextTimer]
           "m" (request_with 5 (Some 50) "b")).
  repeat constructor.
Defined.

(** * Further properties of the listener registry *)

Lemma obj_delete_set {A : Type} (key : string) (v : A) (o : JSObject A) :
  obj_delete key (obj_set key v o) = obj_delete key o.
Proof.
  unfold obj_delete. induction o as [|[k x] o IH]; simpl.
  - by rewrite filter_cons_False, filter_nil by (simpl; auto).
  - case_decide as E.
    + subst k. by rewrite !filter_cons_False by (simpl; auto).
    + rewrite !filter_cons_True by done. by rewrite IH.
Qed.

(** The ids that the counter gives are not "__proto__". *)
Lemma unique_listener_id_plain (n : nat) : unique_listener_id n ≠ "__proto__".
Proof.
  intros E.
  assert (Hcolon : has_colon (unique_listener_id n) = true).
  { unfold unique_listener_id. rewrite !has_colon_app.
    by replace (has_colon "__listener::") with true by reflexivity. }
  rewrite E in Hcolon. discriminate.
Qed.

Lemma obj_assign_unique {A : Type} (n : nat) (v : A) (o : JSObject A) :
  obj_assign (unique_listener_id n) v o = obj_set (unique_listener_id n) v o.
Proof.
  unfold obj_assign. rewrite decide_False; [done | apply unique_listener_id_plain].
Qed.

Lemma obj_delete_assign {A : Type} (key : string) (v : A) (o : JSObject A) :
  obj_delete key (obj_assign key v o) = obj_delete key o.
Proof. unfold obj_assign. case_decide; [done | apply obj_delete_set]. Qed.

Lemma registerEventListener_spec (event : string) (callback : Listener)
    (listenerId : option string) (reg : Registry) :
  let registered := registerEventListener event callback listenerId reg in
  let id := match listenerId with
            | Some id => id
            | None => unique_listener_id (S (last_event_listener_id reg))
            end in
  registered.1 = {| unregister_event := event; unregister_id := id |} /\
  last_event_listener_id registered.2 =
    match listenerId with
    | Some _ => last_event_listener_id reg
    | None => S (last_event_listener_id reg)
    end /\
  forall e, getEventListeners registered.2 e =
    if decide (e = event) then obj_assign id callback (getEventListeners reg event)
    else getEventListeners reg e.
Proof.
  unfold registerEventListener. destruct listenerId as [id|]; simpl.
  - split_and!; [done | done |]. intros e. rewrite getEventListeners_set.
    by repeat case_decide.
  - split_and!; [done | done |]. intros e. rewrite getEventListeners_set.
    by repeat case_decide.
Qed.

(** X22: a listener that was registered, for an event type and under a
    listener id other than "__proto__", is found under its id, and calling
    the function that [registerEventListener] returned removes it: the
    listeners of the event are then those from before the registration,
    without the one that had the same id, if any; the listeners of the
    other events are never touched. *)
Theorem register_then_unregister (event : string) (callback : Listener)
    (listenerId : option string) (reg : Registry) :
  event ≠ "__proto__" -> listenerId ≠ Some "__proto__" ->
  let registered := registerEventListener event callback listenerId reg in
  let id := unregister_id registered.1 in
  let after := call_unregister registered.1 registered.2 in
  obj_get id (getEventListeners registered.2 event) = Some callback /\
  obj_get id (getEventListeners after event) = None /\
  (forall e, getEventListeners after e =
     if decide (e = event) then obj_delete id (getEventListeners reg event)
     else getEventListeners reg e) /\
  (obj_get id (getEventListeners reg event) = None ->
   forall e, getEventListeners after e = getEventListeners reg e).
Proof.
  intros _ Hid registered id after.
  destruct (registerEventListener_spec event callback listenerId reg)
    as (Hclosure & _ & Hlisteners).
  fold registered in Hclosure, Hlisteners.
  assert (forall e, getEventListeners after e =
     if decide (e = event) then obj_delete id (getEventListeners reg event)
     else getEventListeners reg e) as Hafter.
  { intros e. subst after id. rewrite Hclosure.
    unfold call_unregister, unregisterEventListener. simpl.
    rewrite getEventListeners_set. destruct (decide (e = event)) as [->|Hne].
    - rewrite Hlisteners, decide_True by done. apply obj_delete_assign.
    - rewrite Hlisteners. by rewrite decide_False. }
  split_and!.
  - subst id. rewrite Hclosure, Hlisteners, decide_True by done. simpl.
    unfold obj_assign. rewrite decide_False.
    + rewrite obj_get_set. by rewrite decide_True.
    + destruct listenerId as [id|]; [congruence |]. apply unique_listener_id_plain.
  - rewrite Hafter, decide_True by done. apply obj_get_delete.
  - exact Hafter.
  - intros Hfresh e. rewrite Hafter. case_decide as E; [| done]. subst e.
    by apply obj_delete_absent.
Qed.

(** The listener "f" registered on "e" under the id "mine", next to the
    three listeners already there. *)
Lemma register_then_unregister_witness :
  let registered := registerEventListener "e" (UserListener "f") (Some "mine")
                      three_listeners in
  let after := call_unregister registered.1 registered.2 in
  obj_get "mine" (getEventListeners registered.2 "e") = Some (UserListener "f") /\
  obj_get "mine" (getEventListeners after "e") = None /\
  forall e, getEventListeners after e = getEventListeners three_listeners e.
Proof.
  intros registered after.
  destruct (register_then_unregister "e" (UserListener "f") (Some "mine")
              three_listeners) as (Hfound & Hgone & _ & Hsame); [done | done |].
  split; [exact Hfound |]. split; [exact Hgone |]. by apply Hsame.
Defined.

Lemma unique_listener_id_inj (m n : nat) :
  unique_listener_id m = unique_listener_id n -> m = n.
Proof.
  unfold unique_listener_id. intros Heq.
  apply (inj (String.append "__listener::")) in Heq.
  apply string_app_inj_r in Heq. by apply (inj pretty) in Heq.
Qed.

Lemma unique_listener_id_no_index (n : nat) :
  array_index (unique_listener_id n) = None.
Proof. reflexivity. Qed.

Lemma Object_values_no_index {A : Type} (o : JSObject A) :
  Forall (fun p => array_index p.1 = None) o -> Object_values o = o.*2.
Proof.
  intros Hall. unfold Object_values.
  assert (filter (fun p : string * A => is_Some (array_index p.1)) o = []) as ->.
  { apply filter_none. eapply Forall_impl; [exact Hall |].
    simpl. intros p -> [x Hx]. done. }
  assert (filter (fun p : string * A => ¬ is_Some (array_index p.1)) o = o) as ->.
  { clear -Hall. induction Hall as [|p o Hp _ IH]; [done |].
    rewrite filter_cons_True; [by rewrite IH |]. rewrite Hp. by intros [x Hx]. }
  done.
Qed.

Section RegisterEach.
Variable event : string.

Lemma register_each_spec (callbacks : list Listener) (reg : Registry) :
  (forall n, (last_event_listener_id reg < n)%nat ->
     obj_get (unique_listener_id n) (getEventListeners reg event) = None) ->
  let after := register_each event callbacks reg in
  getEventListeners after event =
    getEventListeners reg event
    ++ imap (fun i callback =>
               (unique_listener_id (S (last_event_listener_id reg + i)), callback))
            callbacks /\
  last_event_listener_id after = (last_event_listener_id reg + length callbacks)%nat.
Proof.
  revert reg. induction callbacks as [|callback callbacks IH]; intros reg Hfresh.
  - simpl. by rewrite app_nil_r, Nat.add_0_r.
  - unfold register_each. cbn [foldl].
    destruct (registerEventListener_spec event callback None reg) as (_ & _ & Hl).
    set (reg1 := (registerEventListener event callback None reg).2) in *.
    assert (last_event_listener_id reg1 = S (last_event_listener_id reg)) as Hcounter
      by reflexivity.
    assert (getEventListeners reg1 event =
            getEventListeners reg event
            ++ [(unique_listener_id (S (last_event_listener_id reg)), callback)]) as Hreg1.
    { rewrite Hl, decide_True by done. rewrite obj_assign_unique.
      apply obj_set_absent. apply Hfresh. lia. }
    destruct (IH reg1) as [Hafter Hcount].
    { intros n Hn. rewrite Hreg1.
      assert (obj_get (unique_listener_id n) (getEventListeners reg event) = None) as Hold
        by (apply Hfresh; lia).
      revert Hold. generalize (getEventListeners reg event). intros o.
      induction o as [|[k x] o IHo]; simpl.
      - intros _. rewrite decide_False; [done |].
        intros Heq%unique_listener_id_inj. lia.
      - case_decide; [done | exact IHo]. }
    fold (register_each event callbacks reg1). split.
    + rewrite Hafter, Hreg1, <- app_assoc. f_equal. cbn [imap app]. f_equal.
      * by rewrite Nat.add_0_r.
      * apply imap_ext. intros i x _. cbn [compose]. rewrite Hcounter. do 2 f_equal. lia.
    + rewrite Hcount, Hcounter. simpl. lia.
Qed.

End RegisterEach.

(** X23: listeners that are registered without a listener id never replace
    one another: each gets an id of its own from the counter, and they
    are added after the listeners already there, in the order of their
    registration, which is also the order in which [dispatchEvent] calls
    them.  (The ids that the counter has yet to give must not be in use.) *)
Theorem registerEventListener_keeps_registration_order (event : string)
    (callbacks : list Listener) (reg : Registry) :
  (forall n, (last_event_listener_id reg < n)%nat ->
     obj_get (unique_listener_id n) (getEventListeners reg event) = None) ->
  let after := register_each event callbacks reg in
  getEventListeners after event =
    getEventListeners reg event
    ++ imap (fun i callback =>
               (unique_listener_id (S (last_event_listener_id reg + i)), callback))
            callbacks /\
  (getEventListeners reg event = [] ->
   Object_values (getEventListeners after event) = callbacks).
Proof.
  intros Hfresh after.
  destruct (register_each_spec event callbacks reg Hfresh) as [Hafter _].
  fold after in Hafter. split; [done |].
  intros Hempty. rewrite Hafter, Hempty. cbn [app].
  rewrite Object_values_no_index.
  - generalize (last_event_listener_id reg). intros n. clear.
    revert n. induction callbacks as [|x callbacks IH]; intros n; [done |].
    cbn [imap fmap list_fmap snd]. f_equal.
    rewrite <- (IH (S n)) at 2. f_equal. apply imap_ext. intros i y _. simpl.
    do 2 f_equal. lia.
  - apply Forall_forall. intros [k x] Hin.
    apply elem_of_lookup_imap in Hin as (i & y & [= -> ->] & _).
    apply unique_listener_id_no_index.
Qed.

Lemma registerEventListener_order_witness :
  Object_values
    (getEventListeners
       (register_each "e" [UserListener "f"; UserListener "g"; UserListener "h"]
          empty_registry) "e") =
  [UserListener "f"; UserListener "g"; UserListener "h"].
Proof.
  apply (registerEventListener_keeps_registration_order "e"
           [UserListener "f"; UserListener "g"; UserListener "h"] empty_registry).
  - intros n _. reflexivity.
  - reflexivity.
Defined.

(** X24: when the current holder calls its release function, the mutex goes
    straight to a pending holder if there is one, and [isMutexLocked]
    stays true; the mutex is free afterwards only if nobody was waiting. *)
Theorem release_frees_only_an_empty_queue (ops : list Op) (p : nat) (c : string)
    (h : MutexHolder) :
  let w := run ops initial_world in
  promises w !! p = Some (Fulfilled c (uniqueId h)) ->
  currentHolder (mutex_of w c) = Some h ->
  let w' := step (CallRelease p) w in
  isMutexLocked w' c = negb (bool_decide (pendingHolders (mutex_of w c) = [])) /\
  (forall next, currentHolder (mutex_of w' c) = Some next ->
     next ∈ pendingHolders (mutex_of w c) /\ next ∉ pendingHolders (mutex_of w' c)).
Proof.
  intros w Hp Hc w'. subst w'. simpl. rewrite Hp.
  assert (Inv w) as HI by apply Inv_reachable.
  destruct (releaseMutex_spec c (uniqueId h) w (inv_wf _ HI))
    as (Hwf' & Hm & _ & _ & _ & _ & _ & _ & Hown).
  rewrite isMutexLocked_own; [| exact Hwf' |]; cycle 1.
  { destruct (decide (c = "__proto__")); [by left | right; by apply Hown]. }
  rewrite !Hm, decide_True by done.
  rewrite (released_at_current _ _ _ Hc).
  unfold promote.
  destruct (maxBy (pendingHolders (mutex_of w c)) priority) as [next|] eqn:E; simpl.
  - apply maxBy_Some in E as (l1 & l2 & Heq & _). split.
    + rewrite Heq. rewrite bool_decide_eq_false_2; [done | by destruct l1].
    + intros next' [= <-]. split.
      * rewrite Heq. apply elem_of_app. right. apply list_elem_of_here.
      * intros [Hne _]%list_elem_of_filter. done.
  - apply maxBy_None in E. rewrite E. split; [done |]. by intros next.
Qed.

Lemma release_frees_witness :
  let w := run [ Request "m" (request_with 4 None "a"); RunNextTimer;
                 Request "m" (request_with 5 None "b") ] initial_world in
  let w' := step (CallRelease 1) w in
  isMutexLocked w' "m" = negb (bool_decide (pendingHolders (mutex_of w "m") = [])) /\
  (forall next, currentHolder (mutex_of w' "m") = Some next ->
     next ∈ pendingHolders (mutex_of w "m") /\ next ∉ pendingHolders (mutex_of w' "m")).
Proof.
  apply (release_frees_only_an_empty_queue
           [ Request "m" (request_with 4 None "a"); RunNextTimer;
             Request "m" (request_with 5 None "b") ]
           1%nat "m" holder_a).
  - reflexivity.
  - reflexivity.
Defined.

(** ** From a base event to the listeners of a derived event *)

Section DerivedDispatch.
Variable callback_outcome : string -> list Value -> Outcome.
Variable mapPayload_outcome : string -> list Value -> Outcome.

Local Abbreviation dispatch := (dispatchEvent callback_outcome mapPayload_outcome).
Local Abbreviation deliver := (deliver_to callback_outcome mapPayload_outcome).

(** With enough fuel, the delivery to a listener completes. *)
Lemma deliver_completes (n fuel : nat) (reg : Registry) (payload : list Value)
    (listener : Listener) :
  match listener with
  | UserListener _ => true
  | BaseListener derivedEvent _ => depth_ok n reg derivedEvent
  end = true ->
  (n <= fuel)%nat ->
  exists results calls, deliver fuel reg payload listener = (Done results, calls).
Proof.
  intros Hdepth Hfuel. unfold deliver_to. destruct listener as [f|d m]; simpl.
  - destruct (callback_outcome f payload); simpl; by eexists _, _.
  - destruct (mapPayload_outcome m payload) as [v|e]; simpl; [| by eexists _, _].
    destruct v; simpl; try by eexists _, _.
    destruct (dispatch_returns callback_outcome mapPayload_outcome n fuel reg d
                elements Hdepth Hfuel) as (calls & -> & _).
    simpl. by eexists _, _.
Qed.

(** The calls of the hidden listener comprise those of the dispatch of the
    derived event. *)
Lemma deliver_hidden (fuel : nat) (reg : Registry) (payload elements : list Value)
    (derivedEvent mapPayload : string) (c : Call) :
  mapPayload_outcome mapPayload payload = Returns (VArray elements) ->
  c ∈ (dispatch fuel reg derivedEvent elements).2 ->
  c ∈ (deliver fuel reg payload (BaseListener derivedEvent mapPayload)).2.
Proof.
  intros Hmap Hc. unfold deliver_to, callListener. rewrite Hmap. simpl.
  destruct (dispatch fuel reg derivedEvent elements) as [[r|e|] calls]; simpl in *.
  - apply list_elem_of_further. rewrite !app_nil_r. done.
  - apply list_elem_of_further. rewrite !app_nil_r. done.
  - apply list_elem_of_further. done.
Qed.

Lemma flatMapM_log {A B : Type} (f : A -> M (list B)) (l : list A) (x : A) (c : Call) :
  (forall y, y ∈ l -> exists ys calls, f y = (Done ys, calls)) ->
  x ∈ l -> c ∈ (f x).2 -> c ∈ (flatMapM f l).2.
Proof.
  induction l as [|y l IH]; intros Hall Hx Hc; [by apply elem_of_nil in Hx |].
  simpl. destruct (Hall y) as (ys & calls & Hy); [apply list_elem_of_here |].
  rewrite Hy. simpl.
  assert (forall z, z ∈ l -> exists zs calls, f z = (Done zs, calls)) as Hrest.
  { intros z Hz. apply Hall. by apply list_elem_of_further. }
  destruct (flatMapM f l) as [[zs|e|] calls'] eqn:E; simpl.
  - apply elem_of_cons in Hx as [->|Hx].
    + rewrite Hy in Hc. apply elem_of_app. by left.
    + apply elem_of_app. right. rewrite app_nil_r. by apply IH.
  - apply elem_of_cons in Hx as [->|Hx].
    + rewrite Hy in Hc. apply elem_of_app. by left.
    + apply elem_of_app. right. by apply IH.
  - apply elem_of_cons in Hx as [->|Hx].
    + rewrite Hy in Hc. apply elem_of_app. by left.
    + apply elem_of_app. right. by apply IH.
Qed.

(** The calls of a dispatch comprise those of the delivery to each
    listener. *)
Lemma dispatch_log (n fuel : nat) (reg : Registry) (event : string)
    (payload : list Value) (listener : Listener) (c : Call) :
  depth_ok (S n) reg event = true -> (n <= fuel)%nat ->
  listener ∈ Object_values (getEventListeners reg event) ->
  c ∈ (deliver fuel reg payload listener).2 ->
  c ∈ (dispatch (S fuel) reg event payload).2.
Proof.
  intros Hdepth Hfuel Hin Hc. rewrite dispatch_unfold. unfold withEventListeners.
  destruct (getEventListeners reg event) as [|p o] eqn:Ho.
  { unfold Object_values in Hin. simpl in Hin. by apply elem_of_nil in Hin. }
  simpl isEmptyObject. cbv iota. simpl in Hdepth. rewrite Ho in Hdepth.
  pose proof (flatMapM_log (deliver fuel reg payload) (Object_values (p :: o))
                listener c) as Hlog.
  unfold bind, tell.
  destruct (flatMapM _ _) as [[zs|e|] calls]; simpl in *.
  all: apply list_elem_of_further; rewrite ?app_nil_r; apply Hlog; try done.
  all: intros y Hy; apply (deliver_completes n); [| done].
  all: pose proof (proj1 (forallb_forall _ _) Hdepth y) as H.
  all: apply H; by apply list_elem_of_In.
Qed.

End DerivedDispatch.

(** X25: once a listener is registered for a derived event, the event
    types and the listener id being other than "__proto__", dispatching the
    base event calls it with the elements of the array that [mapPayload]
    returns for the payload of the base event.  The [mapPayload] that
    counts is the one of the hidden listener: that of the first
    registration for the pair of events, as long as the hidden listener
    stays registered. *)
Theorem derived_listener_receives_mapped_payload
    (callback_outcome mapPayload_outcome : string -> list Value -> Outcome)
    (n fuel : nat) (reg : Registry) (derivedEvent baseEvent callback mapPayload : string)
    (listenerId : option string) (mapping : string) (payload elements : list Value) :
  baseEvent ≠ derivedEvent ->
  baseEvent ≠ "__proto__" -> derivedEvent ≠ "__proto__" ->
  listenerId ≠ Some "__proto__" ->
  match obj_get (baseListenerId baseEvent derivedEvent) (getEventListeners reg baseEvent) with
  | None => mapping = mapPayload
  | Some hidden => hidden = BaseListener derivedEvent mapping
  end ->
  mapPayload_outcome mapping payload = Returns (VArray elements) ->
  let reg' :=
    (registerDerivedEventListener derivedEvent baseEvent (UserListener callback)
       mapPayload registerBaseListener_default listenerId reg).2 in
  depth_ok n reg' baseEvent = true -> (n <= fuel)%nat ->
  Invoked (UserListener callback) elements
    ∈ (dispatchEvent callback_outcome mapPayload_outcome fuel reg' baseEvent payload).2.
Proof.
  intros Hne _ _ Hplain Hhidden Hmap reg' Hdepth Hfuel.
  destruct (registerDerivedEventListener_spec registerBaseListener_default
              derivedEvent baseEvent
              {| sub_callback := UserListener callback; sub_mapPayload := mapPayload;
                 sub_listenerId := listenerId |} reg Hne
              (registerBaseListener_default_installs _ _ Hne))
    as (id & Hid & _ & Hderived & Hbase).
  simpl in Hid, Hderived, Hbase. fold reg' in Hderived, Hbase.
  assert (id ≠ "__proto__") as Hid'.
  { rewrite Hid. destruct listenerId as [i|]; [congruence |].
    apply unique_listener_id_plain. }
  assert (obj_get (baseListenerId baseEvent derivedEvent) (getEventListeners reg' baseEvent)
          = Some (BaseListener derivedEvent mapping)) as Hinstalled.
  { rewrite Hbase.
    destruct (hasEventListener reg baseEvent (baseListenerId baseEvent derivedEvent))
      eqn:E.
    - apply hasEventListener_true in E as [hidden E]. rewrite E in Hhidden |- *.
      by subst hidden.
    - apply hasEventListener_false in E. rewrite E in Hhidden.
      subst mapping. rewrite obj_get_set. by rewrite decide_True. }
  assert (obj_get id (getEventListeners reg' derivedEvent) = Some (UserListener callback))
    as Hlistener.
  { rewrite Hderived. unfold obj_assign. rewrite decide_False by done.
    rewrite obj_get_set. by rewrite decide_True. }
  apply obj_get_Object_values in Hinstalled, Hlistener.
  destruct n as [|n]; [done |]. destruct fuel as [|fuel]; [lia |].
  assert (depth_ok n reg' derivedEvent = true) as Hdepth'.
  { simpl in Hdepth.
    pose proof (proj1 (forallb_forall _ _) Hdepth (BaseListener derivedEvent mapping)) as H.
    apply H. by apply list_elem_of_In. }
  eapply (dispatch_log _ _ n); [done | lia | exact Hinstalled |].
  apply deliver_hidden with (elements := elements); [done |].
  destruct (dispatch_returns callback_outcome mapPayload_outcome n fuel reg'
              derivedEvent elements Hdepth') as (calls & -> & Hcalls); [lia |].
  simpl. apply list_elem_of_further. by apply Hcalls.
Qed.

Lemma derived_listener_witness :
  Invoked (UserListener "cb") [VNumber 1; VNumber 2]
    ∈ (dispatchEvent g_throws identity_map 2
         (registerDerivedEventListener "derived" "base" (UserListener "cb") "map"
            registerBaseListener_default None empty_registry).2
         "base" [VNumber 1; VNumber 2]).2.
Proof.
  apply (derived_listener_receives_mapped_payload g_throws identity_map 2 2
           empty_registry "derived" "base" "cb" "map" None "map"
           [VNumber 1; VNumber 2] [VNumber 1; VNumber 2]).
  - done.
  - done.
  - done.
  - done.
  - reflexivity.
  - reflexivity.
  - reflexivity.
  - lia.
Defined.

(** ** Calling an unregister function again *)

Lemma unregisterEventListener_listeners (event id : string) (reg : Registry) (e : string) :
  getEventListeners (unregisterEventListener event id reg) e =
    if decide (e = event) then obj_delete id (getEventListeners reg event)
    else getEventListeners reg e.
Proof. unfold unregisterEventListener. apply getEventListeners_set. Qed.

Lemma obj_delete_comm {A : Type} (key key' : string) (o : JSObject A) :
  obj_delete key (obj_delete key' o) = obj_delete key' (obj_delete key o).
Proof.
  unfold obj_delete. induction o as [|[k x] o IH]; [done |].
  rewrite !filter_cons. simpl.
  destruct (decide (k ≠ key')), (decide (k ≠ key));
    rewrite ?filter_cons; simpl;
    rewrite ?decide_True, ?decide_False by done; by rewrite ?IH.
Qed.

Lemma obj_delete_empty {A : Type} (key : string) (o : JSObject A) :
  isEmptyObject o = true -> isEmptyObject (obj_delete key o) = true.
Proof. by destruct o. Qed.

(** X26: calling a second time the function that [registerEventListener] or
    [registerDerivedEventListener] returned changes nothing: the listeners
    of every event are as they were after the first call. *)
Theorem unregister_twice_is_unregister_once (u : UnregisterDerived) (reg : Registry)
    (e : string) :
  getEventListeners (call_unregister (unregisterDerived u)
                       (call_unregister (unregisterDerived u) reg)) e =
    getEventListeners (call_unregister (unregisterDerived u) reg) e /\
  getEventListeners (call_unregisterDerived u (call_unregisterDerived u reg)) e =
    getEventListeners (call_unregisterDerived u reg) e.
Proof.
  destruct u as [[event id] derived base bid]. unfold call_unregisterDerived, call_unregister.
  simpl. split.
  - rewrite !unregisterEventListener_listeners. case_decide; [| done].
    rewrite decide_True by done. apply obj_delete_idemp.
  - set (reg1 := unregisterEventListener event id reg).
    assert (forall r e', (forall x, getEventListeners r x = getEventListeners reg1 x \/
                                    getEventListeners r x = obj_delete bid (getEventListeners reg1 x)) ->
              getEventListeners (unregisterEventListener event id r) e' = getEventListeners r e')
      as Hagain.
    { intros r e' Hr. rewrite unregisterEventListener_listeners. case_decide as E; [| done].
      subst e'. destruct (Hr event) as [-> | ->].
      - subst reg1. rewrite unregisterEventListener_listeners, decide_True by done.
        apply obj_delete_idemp.
      - subst reg1. rewrite unregisterEventListener_listeners, decide_True by done.
        rewrite obj_delete_comm. by rewrite obj_delete_idemp. }
    unfold hasEventListeners.
    destruct (isEmptyObject (getEventListeners reg1 derived)) eqn:Hempty; simpl.
    + (* the hidden listener was removed by the first call *)
      set (reg2 := unregisterEventListener base bid reg1).
      assert (forall x, getEventListeners reg2 x = getEventListeners reg1 x \/
                        getEventListeners reg2 x = obj_delete bid (getEventListeners reg1 x))
        as Hreg2.
      { intros x. subst reg2. rewrite unregisterEventListener_listeners.
        case_decide as E; [right; by subst x | by left]. }
      rewrite (Hagain reg2 derived Hreg2).
      assert (isEmptyObject (getEventListeners reg2 derived) = true) as ->.
      { destruct (Hreg2 derived) as [-> | ->]; [done | by apply obj_delete_empty]. }
      simpl. rewrite unregisterEventListener_listeners.
      case_decide as E.
      * subst e. rewrite (Hagain reg2 base Hreg2). subst reg2.
        rewrite unregisterEventListener_listeners, decide_True by done.
        apply obj_delete_idemp.
      * apply Hagain, Hreg2.
    + (* the derived event kept listeners *)
      assert (forall x, getEventListeners reg1 x = getEventListeners reg1 x \/
                        getEventListeners reg1 x = obj_delete bid (getEventListeners reg1 x))
        as Hreg1 by (by left).
      rewrite (Hagain reg1 derived Hreg1), Hempty. simpl. by apply Hagain.
Qed.

